(** * DosDirect: the direct (same-thread) command interface of the emulator

    A shallow embedding of [src/dos/direct/ts/direct.ts]: the function
    [DosDirect] (startup handshake) and the class [DirectCommandInterface]
    (input tracker, lifecycle futures, screenshot).

    The wasm module is an external collaborator.  Calls into it are recorded
    in a chronological [trace]; what the module does during such a call (the
    callbacks it invokes on the module object, and whether the call throws)
    is supplied from outside as a [reply].  [Date.now()] is likewise read
    from outside: every host command carries the clock reading of its call. *)

From Stdlib Require Import QArith.
From stdpp Require Import gmap list strings numbers sorting.
From Equations Require Import Equations.

Set Default Proof Using "Type".
#[local] Set Warnings "-clear-no-such-hyp".
Open Scope Z_scope.

(** ** Data *)

(** The first argument of [eventsImpl.fireMessage]. *)
Inductive level := LogLevel | WarnLevel | ErrorLevel.

(** Values that are thrown or that reject a promise: whatever the module
    throws (told apart by an identifier), or the [new Error(startupErrorLog)]
    of [DosDirect]. *)
Inductive err :=
| ModuleError (id : nat)
| StartupError (message : string).

(** Values that fulfil a promise: [undefined], or the archive ([Uint8Array])
    handed to [module.persist]. *)
Inductive value :=
| VUndefined
| VArchive (bytes : list Byte.byte).

Inductive pstate :=
| Pending
| Fulfilled (v : value)
| Rejected (e : err).

(** [module.err] and [module.printErr] hold [startupErrFn] during the
    handshake and [errFn] afterwards. *)
Inductive sink := StartupErrFn | ErrFn.

(** What is observable from outside the interface, in order of occurrence:
    calls into the module, callbacks the module made on the module object,
    events fired on [eventsImpl], [console.error], settled promises.
    Mouse coordinates are JS numbers that the code only passes on; rationals
    stand for them. *)
Inductive obs :=
| AddKey (keyCode : Z) (pressed : bool) (timeMs : Z)
| MouseMove (x y : Q) (timeMs : Z)
| MouseButton (button : Z) (pressed : bool) (timeMs : Z)
| PackFsToBundle
| RequestExit
| CallMain
| RunRuntime
| PersistCallback (archive : list Byte.byte)
| ExitCallback
| ConsoleError (args : list string)
| FireMessage (l : level) (args : list string)
| FireExit
| Settled (p : nat) (o : pstate).

(** The module object, the closure variables of [DosDirect] and the fields of
    the [DirectCommandInterface], as one store.  Promises live in [promises]
    and are named by their index; a [then] whose source is still pending waits
    in [reactions] as (source, derived), a triggered one in [microtasks]. *)
Record World := mkWorld {
  startedAt : Z;
  keyMatrix : gmap Z bool;
  persistPromise : option nat;
  exitPromise : option nat;
  promises : list pstate;
  reactions : list (nat * nat);
  microtasks : list (nat * nat);
  module_persist : option nat;
  module_exit : option nat;
  module_err : sink;
  startupErrorLog : string;
  trace : list obs
}.

Definition set_startedAt (t : Z) (w : World) : World :=
  mkWorld t (keyMatrix w) (persistPromise w) (exitPromise w) (promises w)
    (reactions w) (microtasks w) (module_persist w) (module_exit w)
    (module_err w) (startupErrorLog w) (trace w).

Definition set_keyMatrix (m : gmap Z bool) (w : World) : World :=
  mkWorld (startedAt w) m (persistPromise w) (exitPromise w) (promises w)
    (reactions w) (microtasks w) (module_persist w) (module_exit w)
    (module_err w) (startupErrorLog w) (trace w).

Definition set_persistPromise (p : option nat) (w : World) : World :=
  mkWorld (startedAt w) (keyMatrix w) p (exitPromise w) (promises w)
    (reactions w) (microtasks w) (module_persist w) (module_exit w)
    (module_err w) (startupErrorLog w) (trace w).

Definition set_exitPromise (p : option nat) (w : World) : World :=
  mkWorld (startedAt w) (keyMatrix w) (persistPromise w) p (promises w)
    (reactions w) (microtasks w) (module_persist w) (module_exit w)
    (module_err w) (startupErrorLog w) (trace w).

Definition set_promises (ps : list pstate) (w : World) : World :=
  mkWorld (startedAt w) (keyMatrix w) (persistPromise w) (exitPromise w) ps
    (reactions w) (microtasks w) (module_persist w) (module_exit w)
    (module_err w) (startupErrorLog w) (trace w).

Definition set_reactions (rs : list (nat * nat)) (w : World) : World :=
  mkWorld (startedAt w) (keyMatrix w) (persistPromise w) (exitPromise w)
    (promises w) rs (microtasks w) (module_persist w) (module_exit w)
    (module_err w) (startupErrorLog w) (trace w).

Definition set_microtasks (q : list (nat * nat)) (w : World) : World :=
  mkWorld (startedAt w) (keyMatrix w) (persistPromise w) (exitPromise w)
    (promises w) (reactions w) q (module_persist w) (module_exit w)
    (module_err w) (startupErrorLog w) (trace w).

Definition set_module_persist (s : option nat) (w : World) : World :=
  mkWorld (startedAt w) (keyMatrix w) (persistPromise w) (exitPromise w)
    (promises w) (reactions w) (microtasks w) s (module_exit w)
    (module_err w) (startupErrorLog w) (trace w).

Definition set_module_exit (s : option nat) (w : World) : World :=
  mkWorld (startedAt w) (keyMatrix w) (persistPromise w) (exitPromise w)
    (promises w) (reactions w) (microtasks w) (module_persist w) s
    (module_err w) (startupErrorLog w) (trace w).

Definition set_module_err (s : sink) (w : World) : World :=
  mkWorld (startedAt w) (keyMatrix w) (persistPromise w) (exitPromise w)
    (promises w) (reactions w) (microtasks w) (module_persist w)
    (module_exit w) s (startupErrorLog w) (trace w).

Definition set_startupErrorLog (s : string) (w : World) : World :=
  mkWorld (startedAt w) (keyMatrix w) (persistPromise w) (exitPromise w)
    (promises w) (reactions w) (microtasks w) (module_persist w)
    (module_exit w) (module_err w) s (trace w).

(** Append one observation to the trace. *)
Definition emit (o : obs) (w : World) : World :=
  mkWorld (startedAt w) (keyMatrix w) (persistPromise w) (exitPromise w)
    (promises w) (reactions w) (microtasks w) (module_persist w)
    (module_exit w) (module_err w) (startupErrorLog w) (trace w ++ [o]).

(** The store as [DosDirect] creates it: no promise, no callback slot, the
    startup sink installed, an empty log. *)
Definition boot : World :=
  mkWorld 0 ∅ None None [] [] [] None None StartupErrFn "" [].

(** The field initialisers of [DirectCommandInterface]:
    [startedAt = Date.now()], [keyMatrix = {}], both promises undefined. *)
Definition construct (now : Z) (w : World) : World :=
  set_exitPromise None
    (set_persistPromise None (set_keyMatrix ∅ (set_startedAt now w))).

Definition newInstance (now : Z) : World := construct now boot.

(** ** Input state tracker *)

(** [this.keyMatrix[keyCode] === true] *)
Definition isPressed (w : World) (keyCode : Z) : bool :=
  bool_decide (keyMatrix w !! keyCode = Some true).

Definition addKey (keyCode : Z) (pressed : bool) (timeMs : Z) (w : World)
  : World :=
  let keyPressed := isPressed w keyCode in
  if bool_decide (keyPressed = pressed) then w
  else emit (AddKey keyCode pressed timeMs)
         (set_keyMatrix (<[keyCode := pressed]> (keyMatrix w)) w).

Definition sendKeyEvent (keyCode : Z) (pressed : bool) (now : Z) (w : World)
  : World :=
  addKey keyCode pressed (now - startedAt w) w.

(** [keyCodes.forEach(keyCode => this.addKey(keyCode, pressed, timeMs))] *)
Definition forEach_addKey (keyCodes : list Z) (pressed : bool) (timeMs : Z)
  (w : World) : World :=
  foldl (fun acc keyCode => addKey keyCode pressed timeMs acc) w keyCodes.

Definition simulateKeyPress (keyCodes : list Z) (now : Z) (w : World)
  : World :=
  let timeMs := now - startedAt w in
  forEach_addKey keyCodes false (timeMs + 16)
    (forEach_addKey keyCodes true timeMs w).

Definition sendMouseMotion (x y : Q) (now : Z) (w : World) : World :=
  emit (MouseMove x y (now - startedAt w)) w.

Definition sendMouseButton (button : Z) (pressed : bool) (now : Z)
  (w : World) : World :=
  emit (MouseButton button pressed (now - startedAt w)) w.

(** The key and mouse commands of the facade. *)
Inductive command :=
| SendKeyEvent (keyCode : Z) (pressed : bool)
| SimulateKeyPress (keyCodes : list Z)
| SendMouseMotion (x y : Q)
| SendMouseButton (button : Z) (pressed : bool).

(** A command together with what [Date.now()] returns during its call. *)
Definition issue (c : command * Z) (w : World) : World :=
  match c.1 with
  | SendKeyEvent k p => sendKeyEvent k p c.2 w
  | SimulateKeyPress ks => simulateKeyPress ks c.2 w
  | SendMouseMotion x y => sendMouseMotion x y c.2 w
  | SendMouseButton b p => sendMouseButton b p c.2 w
  end.

Definition issueAll (cmds : list (command * Z)) (w : World) : World :=
  foldl (fun acc c => issue c acc) w cmds.

(** A sequence of [sendKeyEvent(code, pressed)] calls, each with its clock
    reading. *)
Definition sendKeyEvents (calls : list (Z * bool * Z)) (w : World) : World :=
  foldl (fun acc c => sendKeyEvent c.1.1 c.1.2 c.2 acc) w calls.

(** The timestamps of the input events in a trace. *)
Definition stamp (o : obs) : option Z :=
  match o with
  | AddKey _ _ t | MouseMove _ _ t | MouseButton _ _ t => Some t
  | _ => None
  end.

Definition stamps (tr : list obs) : list Z := omap stamp tr.

(** *** The tracker as the specification words it

    The recorded state is a total function from key codes to pressed, a code
    never recorded counting as released; a call is forwarded exactly when its
    pressed state differs from the recorded one. *)
Definition recordState (st : Z → bool) (code : Z) (pressed : bool) : Z → bool :=
  fun k => if bool_decide (k = code) then pressed else st k.

Fixpoint forwarded_spec (st : Z → bool) (start : Z)
  (calls : list (Z * bool * Z)) : list obs :=
  match calls with
  | [] => []
  | (code, pressed, now) :: rest =>
      if bool_decide (st code = pressed) then forwarded_spec st start rest
      else AddKey code pressed (now - start)
             :: forwarded_spec (recordState st code pressed) start rest
  end.

(** The pressed state last asked for [code], [init] when no call names it. *)
Fixpoint lastRequested (calls : list (Z * bool * Z)) (code : Z) (init : bool)
  : bool :=
  match calls with
  | [] => init
  | (k, p, _) :: rest =>
      lastRequested rest code (if bool_decide (k = code) then p else init)
  end.

(** The pressed state of the last event forwarded for [code]. *)
Fixpoint lastForwarded (evs : list obs) (code : Z) (init : option bool)
  : option bool :=
  match evs with
  | [] => init
  | AddKey k p _ :: rest =>
      lastForwarded rest code (if bool_decide (k = code) then Some p else init)
  | _ :: rest => lastForwarded rest code init
  end.

(** The four events a two-key tap is expected to forward. *)
Definition tapEvents (a b t : Z) : list obs :=
  [AddKey a true t; AddKey b true t;
   AddKey a false (t + 16); AddKey b false (t + 16)].

(** The clock reading up to which a command dates its events: a tap dates
    its releases 16 units after its call, every other command dates its
    event at its call. *)
Definition due (c : command * Z) : Z :=
  match c.1 with
  | SimulateKeyPress _ => c.2 + 16
  | _ => c.2
  end.

(** No command is issued before the events of the one before it are due;
    [ready] is the earliest clock reading allowed for the first command. *)
Fixpoint spaced (ready : Z) (cmds : list (command * Z)) : Prop :=
  match cmds with
  | [] => True
  | c :: rest => ready ≤ c.2 ∧ spaced (due c) rest
  end.

#[export] Instance spaced_dec ready cmds : Decision (spaced ready cmds).
Proof. revert ready. induction cmds; intros ready; simpl; apply _. Defined.

(** A host that taps a key and sends another key one time unit later. *)
Definition tapThenKey : list (command * Z) :=
  [(SimulateKeyPress [65], 1000); (SendKeyEvent 66 true, 1001)].

(** ** Screenshot *)

(** The part of the wasm module that [screenshot] and [onFrame] touch: its
    linear memory ([HEAPU8] and [HEAPU8.buffer] are the same bytes) and the
    three frame getters. *)
Record Wasm := mkWasm {
  HEAPU8 : list Byte.byte;
  _getFrameWidth : Z;
  _getFrameHeight : Z;
  _getFrameRgba : Z
}.

Definition set_HEAPU8 (heap : list Byte.byte) (m : Wasm) : Wasm :=
  mkWasm heap (_getFrameWidth m) (_getFrameHeight m) (_getFrameRgba m).

(** A typed array created over the module's buffer: a window
    ([byteOffset], [byteLength]) onto it, holding no bytes of its own. *)
Record Uint8ClampedArray := mkView {
  byteOffset : nat;
  byteLength : nat
}.

(** [new Uint8ClampedArray(buffer, byteOffset, length)]; a [RangeError]
    ([None]) when the window does not lie inside the buffer. *)
Definition newUint8ClampedArray (buffer : list Byte.byte)
  (offset len : Z) : option Uint8ClampedArray :=
  if decide (0 ≤ offset ∧ 0 ≤ len ∧ offset + len ≤ Z.of_nat (length buffer))
  then Some (mkView (Z.to_nat offset) (Z.to_nat len))
  else None.

(** [rgba[i] = b]: written into the buffer under the window; an index
    outside the window is ignored. *)
Definition view_set (rgba : Uint8ClampedArray) (i : nat) (b : Byte.byte)
  (heap : list Byte.byte) : list Byte.byte :=
  if decide (i < byteLength rgba)%nat
  then <[(byteOffset rgba + i)%nat := b]> heap
  else heap.

(** [rgba[i]], read from the buffer as it is now. *)
Definition view_get (rgba : Uint8ClampedArray) (i : nat)
  (heap : list Byte.byte) : option Byte.byte :=
  if decide (i < byteLength rgba)%nat
  then heap !! (byteOffset rgba + i)%nat
  else None.

(** [for (next = ..; next < rgba.byteLength; next = next + 4) rgba[next] = 255] *)
Equations? forceAlpha (rgba : Uint8ClampedArray) (next : nat)
  (heap : list Byte.byte) : list Byte.byte
  by wf (byteLength rgba - next)%nat lt :=
  forceAlpha rgba next heap with decide (next < byteLength rgba)%nat := {
    | left _ => forceAlpha rgba (next + 4)%nat
                  (view_set rgba next Byte.xff heap)
    | right _ => heap }.
Proof. lia. Qed.

(** [ImageData]: [data] is the very array given to the constructor. *)
Record ImageData := mkImageData {
  data : Uint8ClampedArray;
  sw : Z;
  sh : Z
}.

(** [new ImageData(rgba, width, height)]; throws ([None]) unless the array
    has [4 * width * height] bytes for positive dimensions. *)
Definition newImageData (rgba : Uint8ClampedArray) (width height : Z)
  : option ImageData :=
  if decide (0 < width ∧ 0 < height
             ∧ Z.of_nat (byteLength rgba) = 4 * width * height)
  then Some (mkImageData rgba width height)
  else None.

Definition width (m : Wasm) : Z := _getFrameWidth m.
Definition height (m : Wasm) : Z := _getFrameHeight m.

(** [screenshot()]: the image (none when a constructor throws) and the
    module as the call leaves it. *)
Definition screenshot (m : Wasm) : option ImageData * Wasm :=
  let width := width m in
  let height := height m in
  let rgbaPtr := _getFrameRgba m in
  match newUint8ClampedArray (HEAPU8 m) rgbaPtr (width * height * 4) with
  | None => (None, m)
  | Some rgba =>
      let heap := forceAlpha rgba 3 (HEAPU8 m) in
      (newImageData rgba width height, set_HEAPU8 heap m)
  end.

(** The bytes an image shows when the module memory is [m]. *)
Definition pixels (img : ImageData) (m : Wasm) : list Byte.byte :=
  take (byteLength (data img)) (drop (byteOffset (data img)) (HEAPU8 m)).

(** [onFrame]: [HEAPU8.slice(rgbaPtr, rgbaPtr + width * height * 4)], a copy;
    [slice] clamps both ends to the buffer. *)
Definition slice (heap : list Byte.byte) (from to : Z) : list Byte.byte :=
  let from' := Z.to_nat (if decide (from < 0)
                         then Z.max 0 (Z.of_nat (length heap) + from)
                         else from) in
  let to' := Z.to_nat (if decide (to < 0)
                       then Z.max 0 (Z.of_nat (length heap) + to)
                       else to) in
  take (to' - from')%nat (drop from' heap).

Definition onFrame (rgbaPtr : Z) (m : Wasm) : list Byte.byte :=
  slice (HEAPU8 m) rgbaPtr (rgbaPtr + width m * height m * 4).

(** What the specification asks of [screenshot] at module state [m]: the
    module's memory is left as it was, and whatever the module writes into
    its memory afterwards, the image shows the same bytes. *)
Definition screenshot_is_detached_copy (m : Wasm) : Prop :=
  ∀ img m', screenshot m = (Some img, m') →
    HEAPU8 m' = HEAPU8 m
    ∧ ∀ heap, length heap = length (HEAPU8 m') →
        pixels img (set_HEAPU8 heap m') = pixels img m'.

(** One black pixel with alpha 0 at address 0. *)
Definition onePixel : Wasm :=
  mkWasm [Byte.x00; Byte.x00; Byte.x00; Byte.x00] 1 1 0.

(** ** Sinks installed on the module *)

(** [JSON.stringify], applied to the arguments of a diagnostic call, belongs
    to the platform and is kept abstract. *)
Class Serializer := JSON_stringify : list string → string.

(** The string made of the line feed alone. *)
Definition newline : string := String (Ascii.ascii_of_nat 10) EmptyString.

(** Modelled from the spec: [CommandInterfaceEventsImpl] (impl/ci-impl) is
    not among the sources.  Its emitters dispatch at once to the handlers
    registered at that moment and keep nothing; a call of an emitter is
    therefore one observation in the trace. *)
Definition fireMessage (l : level) (args : list string) (w : World) : World :=
  emit (FireMessage l args) w.

(** Modelled from the spec: [fireExit] of the same absent class, as
    [fireMessage]. *)
Definition fireExit (w : World) : World := emit FireExit w.

Definition logFn (args : list string) (w : World) : World :=
  fireMessage LogLevel args w.

Definition warnFn (args : list string) (w : World) : World :=
  fireMessage WarnLevel args w.

Definition errFn (args : list string) (w : World) : World :=
  fireMessage ErrorLevel args w.

Definition startupErrFn `{Serializer} (args : list string) (w : World)
  : World :=
  let w1 := emit (ConsoleError args) w in
  let w2 := fireMessage ErrorLevel args w1 in
  set_startupErrorLog (startupErrorLog w2 +:+ JSON_stringify args +:+ newline)
    w2.

(** ** Promises *)

(** [new Promise(..)]: the new promise is [length (promises w)]. *)
Definition newPromise (w : World) : World :=
  set_promises (promises w ++ [Pending]) w.

(** The [resolve] and [reject] functions of promise [p]: the first call
    settles it and queues the reactions that wait for it, a call on a settled
    promise does nothing. *)
Definition settle (p : nat) (o : pstate) (w : World) : World :=
  match promises w !! p with
  | Some Pending =>
      let triggered := filter (fun r => r.1 = p) (reactions w) in
      let waiting := filter (fun r => r.1 ≠ p) (reactions w) in
      emit (Settled p o)
        (set_microtasks (microtasks w ++ triggered)
           (set_reactions waiting
              (set_promises (<[p := o]> (promises w)) w)))
  | _ => w
  end.

(** [p.then(() => { this.events().fireExit(); })]: a new promise [d], and
    the reaction (p, d), queued at once when [p] is settled already. *)
Definition then_fireExit (p : nat) (w : World) : World :=
  let d := length (promises w) in
  let w1 := newPromise w in
  match promises w1 !! p with
  | Some (Fulfilled _) | Some (Rejected _) =>
      set_microtasks (microtasks w1 ++ [(p, d)]) w1
  | _ => set_reactions (reactions w1 ++ [(p, d)]) w1
  end.

(** The job of a reaction (p, d): on fulfilment run the callback, which fires
    Exit, and fulfil [d] with what it returns; a rejection passes on to [d],
    as no rejection handler was given. *)
Definition runJob (j : nat * nat) (w : World) : World :=
  match promises w !! j.1 with
  | Some (Fulfilled _) => settle j.2 (Fulfilled VUndefined) (fireExit w)
  | Some (Rejected e) => settle j.2 (Rejected e) w
  | _ => w
  end.

(** The event loop takes the first queued job. *)
Definition runMicrotask (w : World) : World :=
  match microtasks w with
  | [] => w
  | j :: q => runJob j (set_microtasks q w)
  end.

Fixpoint drain (fuel : nat) (w : World) : World :=
  match fuel with
  | O => w
  | S fuel' =>
      match microtasks w with
      | [] => w
      | _ => drain fuel' (runMicrotask w)
      end
  end.

(** Run the queue until it is empty: a job queues at most the reactions that
    wait, so this many rounds are enough. *)
Definition runMicrotasks (w : World) : World :=
  drain (length (microtasks w) + length (reactions w)) w.

(** ** The module as seen from the interface *)

(** What the module may call on the module object.  The frame, sound and
    stdout callbacks go to the Event Bus only and are left out. *)
Inductive callback :=
| CallLog (args : list string)
| CallPrint (args : list string)
| CallWarn (args : list string)
| CallErr (args : list string)
| CallPrintErr (args : list string)
| CallPersist (archive : list Byte.byte)
| CallExit.

(** What the module does during one call into it: the callbacks it makes, in
    order, and the value it throws, if it throws. *)
Record reply := mkReply {
  callbacks : list callback;
  thrown : option err
}.

(** The module calls [c].  [module.persist] is the closure installed by
    [persist()], which resolves and then deletes itself; [module.exit] is the
    [resolve] installed by [exit()].  A call of a slot that holds nothing
    fails inside the module and has no effect here. *)
Definition invoke `{Serializer} (c : callback) (w : World) : World :=
  match c with
  | CallLog args | CallPrint args => logFn args w
  | CallWarn args => warnFn args w
  | CallErr args | CallPrintErr args =>
      match module_err w with
      | StartupErrFn => startupErrFn args w
      | ErrFn => errFn args w
      end
  | CallPersist archive =>
      match module_persist w with
      | Some p =>
          set_module_persist None
            (settle p (Fulfilled (VArchive archive))
               (emit (PersistCallback archive) w))
      | None => w
      end
  | CallExit =>
      match module_exit w with
      | Some p => settle p (Fulfilled VUndefined) (emit ExitCallback w)
      | None => w
      end
  end.

(** A call into the module: recorded, then answered. *)
Definition request `{Serializer} (o : obs) (r : reply) (w : World) : World :=
  foldl (fun acc c => invoke c acc) (emit o w) (callbacks r).

(** ** Lifecycle controller *)

(** [persist()] taken as one step: the promise returned and the store
    afterwards, for a call during whose [_packFsToBundle()] no handler of
    the Event Bus calls back into the interface.  The source assigns
    [persistPromise] only when the executor has returned, so a handler that
    runs during the request (the module's [log] and [err] reach the Event
    Bus at once) still finds it undefined.  Calls made from there are steps
    of the machine defined further down ([HostPersist], [enterPersist],
    [leavePersist]); this definition is its run without such a call. *)
Definition persist `{Serializer} (r : reply) (w : World) : nat * World :=
  match persistPromise w with
  | Some p => (p, w)
  | None =>
      let p := length (promises w) in
      let w1 := set_module_persist (Some p) (newPromise w) in
      let w2 := request PackFsToBundle r w1 in
      let w3 := match thrown r with
                | Some e => settle p (Rejected e) w2
                | None => w2
                end in
      (p, set_persistPromise (Some p) w3)
  end.

(** [exit()] taken as one step, for a call during whose [_requestExit()] no
    handler of the Event Bus calls back into the interface: a throw of the
    executor rejects the inner promise; the promise kept and returned is the
    one [then] derives from it.  [exitPromise] is assigned only when the
    executor has returned and [then] has derived its promise; a handler
    that calls [exit()] before that is a step of the machine defined
    further down ([HostExit], [enterExit], [leaveExit]), of which this
    definition is the run without such a call. *)
Definition exit `{Serializer} (r : reply) (w : World) : nat * World :=
  match exitPromise w with
  | Some d => (d, w)
  | None =>
      let q := length (promises w) in
      let w1 := set_module_exit (Some q) (newPromise w) in
      let w2 := request RequestExit r w1 in
      let w3 := match thrown r with
                | Some e => settle q (Rejected e) w2
                | None => w2
                end in
      let d := length (promises w3) in
      (d, set_exitPromise (Some d) (then_fireExit q w3))
  end.

(** ** The interface in use *)

(** What can happen to a running interface: the host issues a command or
    asks for [persist()] or [exit()] (the module answering with a [reply]),
    the module calls back on its own, the event loop runs a queued job.
    In these runs no handler calls the interface while a request is
    running; the runs in which handlers do are those of the machine defined
    further down, which has the runs of [run] among its own. *)
Inductive action :=
| Input (c : command) (now : Z)
| Persist (r : reply)
| Exit (r : reply)
| ModuleCalls (c : callback)
| Microtask.

Definition step `{Serializer} (a : action) (w : World) : World :=
  match a with
  | Input c now => issue (c, now) w
  | Persist r => (persist r w).2
  | Exit r => (exit r w).2
  | ModuleCalls c => invoke c w
  | Microtask => runMicrotask w
  end.

Definition run `{Serializer} (acts : list action) (w : World) : World :=
  foldl (fun acc a => step a acc) w acts.

(** [a] comes before every [b]: each occurrence of an observation satisfying
    [b] has an earlier one satisfying [a]. *)
Definition precedes (a b : obs → Prop) (tr : list obs) : Prop :=
  ∀ i o, tr !! i = Some o → b o →
    ∃ j o', (j < i)%nat ∧ tr !! j = Some o' ∧ a o'.

(** The number of [_packFsToBundle()] and of [_requestExit()] calls. *)
Definition isPackFsToBundle (o : obs) : bool :=
  match o with PackFsToBundle => true | _ => false end.

Definition isRequestExit (o : obs) : bool :=
  match o with RequestExit => true | _ => false end.

Definition count (f : obs → bool) (tr : list obs) : nat :=
  length (List.filter f tr).

(** ** Startup handshake *)

(** What the outside contributes to one run of [DosDirect]: the behaviour of
    the module during [wasm.instantiate(module)] (a throw standing for the
    rejection of that promise), the clock at construction, the behaviour of
    [callMain([])], [_runRuntime()] and [_requestExit()], and what the module
    calls, task after task, while [DosDirect] waits for the exit. *)
Record StartupEnv := mkEnv {
  instantiate : reply;
  constructedAt : Z;
  callMain : reply;
  runRuntime : reply;
  requestExit : reply;
  afterwards : list callback
}.

(** How [DosDirect] ends: it returns the interface, it throws (its promise
    rejects), or it is still waiting when the module has nothing more to do. *)
Inductive outcome :=
| Returned (ci : World)
| Threw (e : err) (w : World)
| Waiting (w : World).

(** [await p]: the queue is run; while [p] is not settled the module gets
    its next task. *)
Fixpoint awaitSettled `{Serializer} (p : nat) (tasks : list callback)
  (w : World) : World :=
  let w' := runMicrotasks w in
  match promises w' !! p with
  | Some (Fulfilled _) | Some (Rejected _) => w'
  | _ =>
      match tasks with
      | [] => w'
      | c :: rest => awaitSettled p rest (invoke c w')
      end
  end.

Definition DosDirect `{Serializer} (env : StartupEnv) : outcome :=
  (* await wasm.instantiate(module) *)
  let w1 := foldl (fun acc c => invoke c acc) boot
              (callbacks (instantiate env)) in
  match thrown (instantiate env) with
  | Some e => Threw e w1
  | None =>
      (* new DirectCommandInterface(..): callMain, ready(this), _runRuntime;
         a throw before ready rejects, a throw after it is ignored *)
      let w2 := request CallMain (callMain env)
                  (construct (constructedAt env) w1) in
      match thrown (callMain env) with
      | Some e => Threw e w2
      | None =>
          let w3 := request RunRuntime (runRuntime env) w2 in
          if bool_decide (0 < String.length (startupErrorLog w3))%nat then
            (* await ci.exit(); throw new Error(startupErrorLog) *)
            let d := (exit (requestExit env) w3).1 in
            let w4 := (exit (requestExit env) w3).2 in
            let w5 := awaitSettled d (afterwards env) w4 in
            match promises w5 !! d with
            | Some (Fulfilled _) =>
                Threw (StartupError (startupErrorLog w5)) w5
            | Some (Rejected e) => Threw e w5
            | _ => Waiting w5
            end
          else Returned (set_module_err ErrFn w3)
      end
  end.

(** The diagnostics that went through the startup sink, in order. *)
Definition diagnostic (o : obs) : option (list string) :=
  match o with ConsoleError args => Some args | _ => None end.

Definition diagnostics (tr : list obs) : list (list string) :=
  omap diagnostic tr.

(** Diagnostic fragments, serialised and concatenated in order. *)
Fixpoint logText `{Serializer} (fragments : list (list string)) : string :=
  match fragments with
  | [] => ""
  | args :: rest => (JSON_stringify args +:+ newline) +:+ logText rest
  end.

(** The arguments of the [err] and [printErr] calls among callbacks. *)
Definition errArgs (c : callback) : option (list string) :=
  match c with
  | CallErr args | CallPrintErr args => Some args
  | _ => None
  end.

(** The diagnostics the module emits before readiness is checked. *)
Definition earlyDiagnostics (env : StartupEnv) : list (list string) :=
  omap errArgs (callbacks (instantiate env) ++ callbacks (callMain env)
                ++ callbacks (runRuntime env)).

(** The module confirms the exit that [DosDirect] requests: during the
    request, or afterwards when the request returned. *)
Definition exitConfirmed (env : StartupEnv) : Prop :=
  CallExit ∈ callbacks (requestExit env)
  ∨ (thrown (requestExit env) = None ∧ CallExit ∈ afterwards env).

(** What the specification asks of the handshake. *)
Definition handshake_claim `{Serializer} (env : StartupEnv) : Prop :=
  (earlyDiagnostics env ≠ [] →
     ∃ w, DosDirect env
          = Threw (StartupError (logText (diagnostics (trace w)))) w
          ∧ RequestExit ∈ trace w)
  ∧ (earlyDiagnostics env = [] →
     ∃ w, DosDirect env = Returned w ∧ module_err w = ErrFn).

(** A serializer for examples: the arguments joined by commas. *)
Definition joinArgs : Serializer := String.concat ",".

(** The module prints an error while it is instantiated, and its
    [_requestExit] throws. *)
Definition failedBootBrokenExit : StartupEnv :=
  mkEnv (mkReply [CallPrintErr ["no disk"]] None) 1000
        (mkReply [] None) (mkReply [] None)
        (mkReply [] (Some (ModuleError 7))) [].

(** The module prints an error while it is instantiated, and [callMain]
    throws. *)
Definition failedBootThrowingMain : StartupEnv :=
  mkEnv (mkReply [CallPrintErr ["no disk"]] None) 1000
        (mkReply [] (Some (ModuleError 8))) (mkReply [] None)
        (mkReply [] None) [CallExit].

(** The module prints an error during [callMain] and confirms the exit in a
    later task. *)
Definition failedBoot : StartupEnv :=
  mkEnv (mkReply [CallLog ["loading"]] None) 1000
        (mkReply [CallPrintErr ["no disk"]; CallErr ["bad"; "config"]] None)
        (mkReply [] None)
        (mkReply [] None) [CallLog ["bye"]; CallExit].

(** The module boots without a diagnostic. *)
Definition cleanBoot : StartupEnv :=
  mkEnv (mkReply [CallLog ["loading"]] None) 1000
        (mkReply [] None) (mkReply [CallWarn ["slow"]] None)
        (mkReply [] None) [].

(** ** Invariants of a running interface *)

Definition hostRequest (o : obs) : bool :=
  match o with
  | PackFsToBundle | RequestExit | CallMain | RunRuntime => true
  | _ => false
  end.

(** What holds of the store at every moment, also in the middle of
    [persist()] and [exit()]: callback slots and promises name allocated,
    distinct promises; every reaction belongs to the exit; and the trace
    records confirmations, Exit events and settlements in that order. *)
Record WeakInv (w : World) : Prop := mkWeakInv {
  wi_persist : ∀ p, module_persist w = Some p →
    (p < length (promises w))%nat
    ∧ module_exit w ≠ Some p ∧ exitPromise w ≠ Some p;
  wi_idle : module_exit w = None → reactions w = [] ∧ microtasks w = [];
  wi_jobs : ∀ q j, module_exit w = Some q →
    j ∈ reactions w ++ microtasks w → j.1 = q ∧ exitPromise w = Some j.2;
  wi_inner : ∀ q, module_exit w = Some q → (q < length (promises w))%nat;
  wi_derived : ∀ d, exitPromise w = Some d →
    ∃ q, module_exit w = Some q ∧ (q < d < length (promises w))%nat;
  wi_confirmed : ∀ q v, module_exit w = Some q →
    promises w !! q = Some (Fulfilled v) → ExitCallback ∈ trace w;
  wi_fired : FireExit ∈ trace w → is_Some (exitPromise w);
  wi_settled : ∀ p o, Settled p o ∈ trace w → (p < length (promises w))%nat;
  wi_recorded : ∀ p o, promises w !! p = Some o → o ≠ Pending →
    Settled p o ∈ trace w;
  wi_order1 : precedes (eq ExitCallback) (eq FireExit) (trace w);
  wi_order2 : ∀ d, exitPromise w = Some d →
    precedes (eq FireExit) (fun o => ∃ v, o = Settled d (Fulfilled v))
      (trace w);
  wi_cause : FireExit ∈ trace w →
    ∃ q v, module_exit w = Some q ∧ promises w !! q = Some (Fulfilled v)
}.

(** What holds between two actions: in addition, a slot is filled only once
    its promise is kept, and each request went out exactly when its promise
    was made. *)
Record Inv (w : World) : Prop := mkInv {
  inv_weak : WeakInv w;
  inv_exit_slot : exitPromise w = None → module_exit w = None;
  inv_persist_slot : persistPromise w = None → module_persist w = None;
  inv_packs : count isPackFsToBundle (trace w)
              = match persistPromise w with Some _ => 1%nat | None => 0%nat end;
  inv_exits : count isRequestExit (trace w)
              = match exitPromise w with Some _ => 1%nat | None => 0%nat end
}.

(** The part of the store that only [persist()] and [exit()] change: the
    two kept promises, the exit slot, and the requests sent so far. *)
Definition ledger (w : World)
  : option nat * option nat * option nat * list obs :=
  (persistPromise w, exitPromise w, module_exit w,
   List.filter hostRequest (trace w)).

(** ** Requests that throw *)


(** What is claimed when [_requestExit()], called by [exit()] on store [w],
    throws: no Exit event at any later moment, the returned promise rejected
    with what was thrown once its reaction has run, and the same promise
    returned by every later call. *)
Definition exit_throw_claim `{Serializer} (r : reply) (w : World) : Prop :=
  ∀ e, thrown r = Some e →
    ∀ acts r',
      (FireExit ∉ trace (run acts (exit r w).2))
      ∧ promises (run (Microtask :: acts) (exit r w).2) !! (exit r w).1
        = Some (Rejected e)
      ∧ exit r' (run acts (exit r w).2)
        = ((exit r w).1, run acts (exit r w).2).


(** The module confirms termination and then throws. *)
Definition confirmThenThrow : reply :=
  mkReply [CallExit] (Some (ModuleError 3)).

(** The module prints a line and throws. *)
Definition justThrow : reply :=
  mkReply [CallPrintErr ["abort"]] (Some (ModuleError 3)).

(** ** The startup log *)

(** The part of the store the startup sink writes: the sink installed, the
    log, and the diagnostics recorded in the trace. *)
Definition journal (w : World) : sink * string * list (list string) :=
  (module_err w, startupErrorLog w, diagnostics (trace w)).

(** While the startup sink is installed, the log is the text of the
    diagnostics emitted so far. *)
Definition LogInv `{Serializer} (w : World) : Prop :=
  module_err w = StartupErrFn
  ∧ startupErrorLog w = logText (diagnostics (trace w)).

(** The exit has been requested and not yet confirmed: both promises are
    pending and the reaction waits. *)
Record Armed (q d : nat) (w : World) : Prop := mkArmed {
  armed_persist : module_persist w = None;
  armed_slot : module_exit w = Some q;
  armed_inner : promises w !! q = Some Pending;
  armed_derived : promises w !! d = Some Pending;
  armed_reactions : reactions w = [(q, d)];
  armed_microtasks : microtasks w = []
}.

(** The module has confirmed the exit and the reaction is queued. *)
Record Confirmed (q d : nat) (w : World) : Prop := mkConfirmed {
  confirmed_inner : ∃ v, promises w !! q = Some (Fulfilled v);
  confirmed_derived : promises w !! d = Some Pending;
  confirmed_reactions : reactions w = [];
  confirmed_microtasks : microtasks w = [(q, d)]
}.

(** ** What the module sees of one key *)

(** The pressed state an event forwards for [code], if it is a key event of
    that code. *)
Definition keyEvent (code : Z) (o : obs) : option bool :=
  match o with
  | AddKey k p _ => if bool_decide (k = code) then Some p else None
  | _ => None
  end.

(** The states forwarded for [code], in order. *)
Definition transitions (code : Z) (tr : list obs) : list bool :=
  omap (keyEvent code) tr.

(** Every state differs from the one before it, [prev] being the state
    before the first. *)
Fixpoint alternates (prev : bool) (l : list bool) : bool :=
  match l with
  | [] => true
  | b :: rest => bool_decide (b = negb prev) && alternates b rest
  end.

(** The Key Matrix and the module agree on every key, and the module never
    saw the same state of a key twice in a row. *)
Definition KeyInv (w : World) : Prop :=
  ∀ code,
    alternates false (transitions code (trace w)) = true
    ∧ isPressed w code = default false (last (transitions code (trace w))).

Definition isInputEvent (o : obs) : bool :=
  match o with
  | AddKey _ _ _ | MouseMove _ _ _ | MouseButton _ _ _ => true
  | _ => false
  end.

(** The part of the store the input commands work on: the start time, the
    Key Matrix and the input events forwarded so far. *)
Definition desk (w : World) : Z * gmap Z bool * list obs :=
  (startedAt w, keyMatrix w, List.filter isInputEvent (trace w)).

(** Everything else in the store. *)
Definition backstage (w : World)
  : option nat * option nat * list pstate * list (nat * nat)
    * list (nat * nat) * option nat * option nat * sink * string :=
  (persistPromise w, exitPromise w, promises w, reactions w, microtasks w,
   module_persist w, module_exit w, module_err w, startupErrorLog w).

Definition isInputAction (a : action) : bool :=
  match a with Input _ _ => true | _ => false end.

Definition isMouseCommand (c : command * Z) : bool :=
  match c.1 with
  | SendMouseMotion _ _ | SendMouseButton _ _ => true
  | _ => false
  end.

(** The event a mouse command forwards on an interface started at [start]. *)
Definition mouseEvent (start : Z) (c : command * Z) : option obs :=
  match c.1 with
  | SendMouseMotion x y => Some (MouseMove x y (c.2 - start))
  | SendMouseButton b p => Some (MouseButton b p (c.2 - start))
  | _ => None
  end.


(** * Calls that are re-entered *)

(** [persist] and [exit] above take a call and the module's answer as one
    step, which is what happens when no handler of the Event Bus calls back
    into the interface while the request runs.  The sinks installed on the
    module dispatch to the handlers at once, and a handler is host code: it
    may call any method of the interface in the middle of
    [_packFsToBundle()] or [_requestExit()].  The machine below runs the
    statements of [persist()] and [exit()] with the request opened up: a
    call that finds no kept promise enters its request, anything may happen
    until the request returns, and only then is the kept promise written, as
    in the source. *)

(** A call in progress: it found no kept promise, made promise [p] (or the
    inner promise [q]) and is inside its request to the module. *)
Inductive frame :=
| InPersist (p : nat)
| InExit (q : nat).

(** The store and the calls in progress, innermost first. *)
Record Machine := mkMachine {
  store : World;
  stack : list frame
}.

(** What happens next: host code (a task of the host, or a handler run by a
    callback of the module) issues an input command or calls [persist()] or
    [exit()]; the request of the innermost call in progress returns or
    throws; the module calls back; the event loop runs a job. *)
Inductive label :=
| HostInput (c : command) (now : Z)
| HostPersist
| HostExit
| Returns (thrown : option err)
| Callback (c : callback)
| Job.

(** [persist()] up to [this.module._packFsToBundle()]: the kept promise is
    returned when there is one; else the promise is made, the closure
    installed and the module asked. *)
Definition enterPersist (m : Machine) : Machine :=
  match persistPromise (store m) with
  | Some _ => m
  | None =>
      let p := length (promises (store m)) in
      mkMachine
        (emit PackFsToBundle
           (set_module_persist (Some p) (newPromise (store m))))
        (InPersist p :: stack m)
  end.

(** [persist()] from the return of [_packFsToBundle()]: a throw rejects,
    and the promise is kept. *)
Definition leavePersist (p : nat) (thrown : option err) (w : World) : World :=
  set_persistPromise (Some p)
    match thrown with
    | Some e => settle p (Rejected e) w
    | None => w
    end.

(** [exit()] up to [this.module._requestExit()]. *)
Definition enterExit (m : Machine) : Machine :=
  match exitPromise (store m) with
  | Some _ => m
  | None =>
      let q := length (promises (store m)) in
      mkMachine
        (emit RequestExit (set_module_exit (Some q) (newPromise (store m))))
        (InExit q :: stack m)
  end.

(** [exit()] from the return of [_requestExit()]: a throw rejects the inner
    promise, [then] derives the promise that is kept. *)
Definition leaveExit (q : nat) (thrown : option err) (w : World) : World :=
  let w3 := match thrown with
            | Some e => settle q (Rejected e) w
            | None => w
            end in
  set_exitPromise (Some (length (promises w3))) (then_fireExit q w3).

(** One step; [None] when it cannot happen: nothing returns when no call is
    in progress, and no job runs while one is. *)
Definition mstep `{Serializer} (l : label) (m : Machine) : option Machine :=
  match l with
  | HostInput c now => Some (mkMachine (issue (c, now) (store m)) (stack m))
  | HostPersist => Some (enterPersist m)
  | HostExit => Some (enterExit m)
  | Returns thrown =>
      match stack m with
      | [] => None
      | InPersist p :: rest =>
          Some (mkMachine (leavePersist p thrown (store m)) rest)
      | InExit q :: rest =>
          Some (mkMachine (leaveExit q thrown (store m)) rest)
      end
  | Callback c => Some (mkMachine (invoke c (store m)) (stack m))
  | Job =>
      match stack m with
      | [] => Some (mkMachine (runMicrotask (store m)) [])
      | _ => None
      end
  end.

Fixpoint mrun `{Serializer} (ls : list label) (m : Machine)
  : option Machine :=
  match ls with
  | [] => Some m
  | l :: rest =>
      match mstep l m with
      | Some m' => mrun rest m'
      | None => None
      end
  end.

(** A new interface, no call in progress. *)
Definition fresh (start : Z) : Machine := mkMachine (newInstance start) [].

(** The steps of an action of [run]: a call that is not re-entered is its
    entry, the module's callbacks and its return. *)
Definition labels (a : action) (w : World) : list label :=
  match a with
  | Input c now => [HostInput c now]
  | Persist r =>
      match persistPromise w with
      | Some _ => [HostPersist]
      | None => HostPersist :: map Callback (callbacks r) ++ [Returns (thrown r)]
      end
  | Exit r =>
      match exitPromise w with
      | Some _ => [HostExit]
      | None => HostExit :: map Callback (callbacks r) ++ [Returns (thrown r)]
      end
  | ModuleCalls c => [Callback c]
  | Microtask => [Job]
  end.

Fixpoint unfolding `{Serializer} (acts : list action) (w : World)
  : list label :=
  match acts with
  | [] => []
  | a :: rest => labels a w ++ unfolding rest (step a w)
  end.

(** The promises of the calls in progress. *)
Definition persistFrames (st : list frame) : list nat :=
  omap (fun f => match f with InPersist p => Some p | _ => None end) st.

Definition exitFrames (st : list frame) : list nat :=
  omap (fun f => match f with InExit q => Some q | _ => None end) st.

(** A handler calls [persist()] while the module logs a line during the
    [_packFsToBundle()] of an earlier [persist()]; both requests return. *)
Definition persistReentered : list label :=
  [HostPersist; Callback (CallLog ["packing"]); HostPersist;
   Returns None; Returns None].

(** The same for [exit()]. *)
Definition exitReentered : list label :=
  [HostExit; Callback (CallLog ["bye"]); HostExit;
   Returns None; Returns None].

(** ** Exit events and the reactions that fire them *)

Definition isFireExit (o : obs) : bool :=
  match o with FireExit => true | _ => false end.

(** The Exit events fired so far together with the reactions, waiting or
    queued, that may still fire one. *)
Definition exitBudget (w : World) : nat :=
  (length (reactions w) + length (microtasks w)
   + count isFireExit (trace w))%nat.

(** Every Exit event, every reaction and every [exit()] in progress goes
    back to a [_requestExit()] of its own. *)
Definition ExitPaid (m : Machine) : Prop :=
  (exitBudget (store m) + length (exitFrames (stack m))
   ≤ count isRequestExit (trace (store m)))%nat.

(** ** The archive callback *)

(** The archive an observation hands over, if it is a run of the closure
    that [persist()] installs. *)
Definition archive (o : obs) : option (list Byte.byte) :=
  match o with PersistCallback a => Some a | _ => None end.

Definition archives (tr : list obs) : list (list Byte.byte) :=
  omap archive tr.

(** Every run of the closure, and the closure that is installed, goes back
    to a [_packFsToBundle()] of its own. *)
Definition ArchivePaid (m : Machine) : Prop :=
  (length (archives (trace (store m)))
   + match module_persist (store m) with Some _ => 1 | None => 0 end
   ≤ count isPackFsToBundle (trace (store m)))%nat.

(** ** Promises and who names them *)

(** Promise [p] is named on the persist side: by the closure on the module
    or by a [persist()] in progress. *)
Definition persistNamed (m : Machine) (p : nat) : Prop :=
  module_persist (store m) = Some p ∨ InPersist p ∈ stack m.

(** Promise [p] is named on the exit side: by [module.exit], by an [exit()]
    in progress, or by a reaction. *)
Definition exitNamed (m : Machine) (p : nat) : Prop :=
  module_exit (store m) = Some p ∨ InExit p ∈ stack m
  ∨ ∃ j, j ∈ reactions (store m) ++ microtasks (store m)
         ∧ (j.1 = p ∨ j.2 = p).

(** Whatever is named has been made. *)
Definition Allocated (m : Machine) : Prop :=
  ∀ p, persistNamed m p ∨ exitNamed m p →
       (p < length (promises (store m)))%nat.

(** Before [exit()] (or [persist()]) has returned for the first time, the
    requests sent are those of the calls in progress. *)
Definition Counted (m : Machine) : Prop :=
  (exitPromise (store m) = None →
   count isRequestExit (trace (store m)) = length (exitFrames (stack m)))
  ∧ (persistPromise (store m) = None →
     count isPackFsToBundle (trace (store m))
     = length (persistFrames (stack m))).

(** ** A [persist()] that reached the module *)

(** The closure that serves promise [p] is on the module, [p] is pending,
    and nothing on the exit side names [p]. *)
Record Awaited (p : nat) (m : Machine) : Prop := mkAwaited {
  aw_slot : module_persist (store m) = Some p;
  aw_pending : promises (store m) !! p = Some Pending;
  aw_free : ¬ exitNamed m p
}.

(** What is reachable: the named promises exist, and no call is in progress
    twice. *)
Definition Sound (m : Machine) : Prop := Allocated m ∧ NoDup (stack m).

(** ** The stages of an exit *)

(** What [then] makes of the promise it derives once the source has settled
    as [s]: the callback returns nothing, a rejection is passed on. *)
Definition derived (s : pstate) : pstate :=
  match s with
  | Fulfilled _ => Fulfilled VUndefined
  | other => other
  end.

(** The stages an interface goes through once [exit()] has made the inner
    promise [q] and kept the derived promise [d]: the request is out and the
    reaction waits; the inner promise has settled as some [s] and the
    reaction is queued; the reaction has run.  [P] restricts how the inner
    promise may have settled. *)
Inductive ExitStage (P : pstate → Prop) (q d : nat) (w : World) : Prop :=
| Requested :
    promises w !! q = Some Pending → promises w !! d = Some Pending →
    reactions w = [(q, d)] → microtasks w = [] → (FireExit ∉ trace w) →
    ExitStage P q d w
| Queued (s : pstate) :
    P s → promises w !! q = Some s → s ≠ Pending →
    promises w !! d = Some Pending →
    reactions w = [] → microtasks w = [(q, d)] → (FireExit ∉ trace w) →
    ExitStage P q d w
| Finished (s : pstate) :
    P s → promises w !! q = Some s → s ≠ Pending →
    promises w !! d = Some (derived s) →
    reactions w = [] → microtasks w = [] →
    (FireExit ∈ trace w ↔ ∃ v, s = Fulfilled v) →
    ExitStage P q d w.

(** An [exit()] that found no kept promise and is alone in progress: its
    inner promise [q] is the one [module.exit] resolves, it is the only
    request sent, and [q] is pending or was resolved by the module. *)
Record Running (q : nat) (m : Machine) : Prop := mkRunning {
  run_slot : module_exit (store m) = Some q;
  run_kept : exitPromise (store m) = None;
  run_frames : exitFrames (stack m) = [q];
  run_requests : count isRequestExit (trace (store m)) = 1%nat;
  run_free : ¬ persistNamed m q;
  run_inner : promises (store m) !! q = Some Pending
              ∨ promises (store m) !! q = Some (Fulfilled VUndefined)
}.

(** That [exit()] has returned: the derived promise [d] is kept, no
    [exit()] is in progress, and the interface is in one of the stages. *)
Record Kept (P : pstate → Prop) (q d : nat) (m : Machine) : Prop := mkKept {
  kept_slot : module_exit (store m) = Some q;
  kept_promise : exitPromise (store m) = Some d;
  kept_frames : exitFrames (stack m) = [];
  kept_requests : count isRequestExit (trace (store m)) = 1%nat;
  kept_distinct : q ≠ d;
  kept_free_inner : ¬ persistNamed m q;
  kept_free_derived : ¬ persistNamed m d;
  kept_stage : ExitStage P q d (store m)
}.

(** ** What each promise was made for *)

(** [persist()] makes one promise, [exit()] an inner one and, through
    [then], a derived one. *)
Inductive kind := OfPersist | Inner | Derived.

(** The inner promises the store still names: the [resolve] on the module,
    the calls in progress, the sources of the reactions. *)
Definition innerNamed (m : Machine) (q : nat) : Prop :=
  module_exit (store m) = Some q ∨ InExit q ∈ stack m
  ∨ ∃ j, j ∈ reactions (store m) ++ microtasks (store m) ∧ j.1 = q.

(** The derived promises the store still names: the kept one and the
    targets of the reactions. *)
Definition derivedNamed (m : Machine) (d : nat) : Prop :=
  exitPromise (store m) = Some d
  ∨ ∃ j, j ∈ reactions (store m) ++ microtasks (store m) ∧ j.2 = d.

(** [ks] tells of every promise made so far what it was made for, and
    every name in the store is of its kind. *)
Record Typed (ks : list kind) (m : Machine) : Prop := mkTyped {
  ty_length : length ks = length (promises (store m));
  ty_persist : ∀ p, persistNamed m p → ks !! p = Some OfPersist;
  ty_inner : ∀ q, innerNamed m q → ks !! q = Some Inner;
  ty_derived : ∀ d, derivedNamed m d → ks !! d = Some Derived
}.

(** The order of what the trace records: an Exit event comes after a
    confirmation by the module, the fulfilment of a derived promise after
    an Exit event; a fulfilled inner promise was confirmed, every settled
    promise is recorded as settled, and only promises made are. *)
Record Chron (ks : list kind) (w : World) : Prop := mkChron {
  ch_order1 : precedes (eq ExitCallback) (eq FireExit) (trace w);
  ch_order2 : ∀ d, ks !! d = Some Derived →
    precedes (eq FireExit) (fun o => ∃ v, o = Settled d (Fulfilled v))
      (trace w);
  ch_confirmed : ∀ q v, ks !! q = Some Inner →
    promises w !! q = Some (Fulfilled v) → ExitCallback ∈ trace w;
  ch_recorded : ∀ p o, promises w !! p = Some o → o ≠ Pending →
    Settled p o ∈ trace w;
  ch_settled : ∀ p o, Settled p o ∈ trace w → (p < length (promises w))%nat
}.

(** ** Sound *)

(** [ToIntegerOrInfinity] on a finite number: the fraction is dropped. *)
Definition toInteger (x : Q) : Z := Z.quot (Qnum x) (Z.pos (Qden x)).

(** [HEAPF32.slice(from, to)] on the float view of the memory, whose
    elements are left abstract: both ends are made integers and clamped to
    the array, the result is a copy. *)
Definition sliceF32 {A} (HEAPF32 : list A) (from to : Q) : list A :=
  let index k := Z.to_nat (if decide (k < 0)
                           then Z.max 0 (Z.of_nat (length HEAPF32) + k)
                           else k) in
  take (index (toInteger to) - index (toInteger from))%nat
    (drop (index (toInteger from)) HEAPF32).

(** [onSoundPush]: the module passes the byte address of the samples and
    their number; what goes to [fireSoundPush] is
    [HEAPF32.slice(samples / 4, samples / 4 + numSamples)]. *)
Definition onSoundPush {A} (HEAPF32 : list A) (samples numSamples : Z)
  : list A :=
  sliceF32 HEAPF32 (inject_Z samples / inject_Z 4)%Q
    (inject_Z samples / inject_Z 4 + inject_Z numSamples)%Q.
(** ** Properties of the input state tracker *)

Section input_tracker.
Implicit Types (w : World) (k code : Z) (p pressed : bool) (t now : Z).

Lemma addKey_absorbed w k p t : isPressed w k = p → addKey k p t w = w.
Proof. intros H. unfold addKey. by rewrite bool_decide_eq_true_2. Qed.

Lemma addKey_forwarded w k p t :
  isPressed w k ≠ p →
  addKey k p t w
  = emit (AddKey k p t) (set_keyMatrix (<[k := p]> (keyMatrix w)) w).
Proof. intros H. unfold addKey. by rewrite bool_decide_eq_false_2. Qed.

Lemma addKey_trace w k p t :
  trace (addKey k p t w)
  = trace w ++ (if bool_decide (isPressed w k = p) then []
                else [AddKey k p t]).
Proof.
  unfold addKey. case_bool_decide; simpl; [by rewrite app_nil_r | done].
Qed.

Lemma addKey_startedAt w k p t : startedAt (addKey k p t w) = startedAt w.
Proof. unfold addKey. by case_bool_decide. Qed.

Lemma addKey_isPressed w k p t c :
  isPressed (addKey k p t w) c = recordState (isPressed w) k p c.
Proof.
  unfold addKey, recordState.
  destruct (decide (c = k)) as [->|Hc].
  - rewrite (bool_decide_eq_true_2 (k = k)) by done.
    case_bool_decide as Hkp; [done|]. unfold isPressed; simpl.
    rewrite lookup_insert_eq. destruct p; by simplify_eq/=.
  - rewrite (bool_decide_eq_false_2 (c = k)) by done.
    case_bool_decide as Hkp; [done|]. unfold isPressed; simpl.
    by rewrite lookup_insert_ne.
Qed.

Lemma addKey_keyMatrix w k p t c :
  keyMatrix (addKey k p t w) !! c
  = if bool_decide (isPressed w k = p) then keyMatrix w !! c
    else if bool_decide (k = c) then Some p else keyMatrix w !! c.
Proof.
  unfold addKey. case_bool_decide; [done|]. simpl.
  case_bool_decide; subst; by simplify_map_eq.
Qed.

Lemma forwarded_spec_ext st st' start calls :
  (∀ k, st k = st' k) →
  forwarded_spec st start calls = forwarded_spec st' start calls.
Proof.
  revert st st'. induction calls as [|[[c p] now] rest IH];
    intros st st' Hst; simpl; [done|].
  rewrite Hst. case_bool_decide; [by apply IH|].
  f_equal. apply IH. intros k. unfold recordState. by rewrite Hst.
Qed.

Lemma sendKeyEvents_trace calls w :
  trace (sendKeyEvents calls w)
  = trace w ++ forwarded_spec (isPressed w) (startedAt w) calls.
Proof.
  revert w. induction calls as [|[[c p] now] rest IH]; intros w.
  - simpl. by rewrite app_nil_r.
  - unfold sendKeyEvents in *. simpl. rewrite IH. unfold sendKeyEvent.
    rewrite addKey_trace, addKey_startedAt, <-app_assoc. f_equal.
    case_bool_decide as Hp; simpl.
    + by rewrite addKey_absorbed.
    + f_equal. apply forwarded_spec_ext, addKey_isPressed.
Qed.

Lemma sendKeyEvents_isPressed calls w c :
  isPressed (sendKeyEvents calls w) c = lastRequested calls c (isPressed w c).
Proof.
  revert w. induction calls as [|[[k p] now] rest IH]; intros w; [done|].
  unfold sendKeyEvents in *. simpl. rewrite IH. unfold sendKeyEvent.
  rewrite addKey_isPressed. unfold recordState.
  by rewrite (bool_decide_ext (c = k) (k = c)).
Qed.

Lemma sendKeyEvents_keyMatrix calls w c :
  keyMatrix (sendKeyEvents calls w) !! c
  = lastForwarded (forwarded_spec (isPressed w) (startedAt w) calls) c
      (keyMatrix w !! c).
Proof.
  revert w. induction calls as [|[[k p] now] rest IH]; intros w; [done|].
  unfold sendKeyEvents in *. simpl. rewrite IH. unfold sendKeyEvent.
  rewrite addKey_startedAt, addKey_keyMatrix.
  case_bool_decide as Hp; simpl.
  - by rewrite addKey_absorbed.
  - f_equal. apply forwarded_spec_ext, addKey_isPressed.
Qed.
End input_tracker.

(** C1. For every sequence of [sendKeyEvent] calls, from any state of the
    interface: the events forwarded to the module are exactly the calls whose
    pressed state differs from the state last recorded for their code (a code
    never recorded counting as released); the Key Matrix afterwards reads, for
    every code, as the state last asked for, and holds the state of the last
    forwarded event of that code; one more call either changes nothing at all
    (same state) or forwards one event and records the new state. *)
Theorem sendKeyEvent_forwards_iff_state_differs
  (calls : list (Z * bool * Z)) (w : World) :
  let w' := sendKeyEvents calls w in
  trace w' = trace w ++ forwarded_spec (isPressed w) (startedAt w) calls
  ∧ (∀ code, isPressed w' code = lastRequested calls code (isPressed w code))
  ∧ (∀ code,
       keyMatrix w' !! code
       = lastForwarded (forwarded_spec (isPressed w) (startedAt w) calls)
           code (keyMatrix w !! code))
  ∧ (∀ code pressed now,
       let w1 := sendKeyEvent code pressed now w' in
       if bool_decide (isPressed w' code = pressed) then w1 = w'
       else trace w1 = trace w' ++ [AddKey code pressed (now - startedAt w')]
            ∧ keyMatrix w1 = <[code := pressed]> (keyMatrix w')).
Proof.
  intros w'. split_and!.
  - apply sendKeyEvents_trace.
  - intros code. apply sendKeyEvents_isPressed.
  - intros code. apply sendKeyEvents_keyMatrix.
  - intros code pressed now w1. subst w1. unfold sendKeyEvent.
    case_bool_decide as Hp.
    + by apply addKey_absorbed.
    + by rewrite addKey_forwarded.
Qed.

(** ** Taps *)

Section taps.
Implicit Types (w : World) (ks : list Z).

(** One pass of [forEach] over distinct codes that all are in the state
    opposite to [p]: every code is forwarded, in order. *)
Lemma forEach_addKey_all_forwarded ks p t w :
  NoDup ks → (∀ k, k ∈ ks → isPressed w k = negb p) →
  trace (forEach_addKey ks p t w)
  = trace w ++ map (fun k => AddKey k p t) ks
  ∧ startedAt (forEach_addKey ks p t w) = startedAt w
  ∧ ∀ c, isPressed (forEach_addKey ks p t w) c
         = if bool_decide (c ∈ ks) then p else isPressed w c.
Proof.
  revert w. induction ks as [|k ks IH]; intros w Hnd Hst.
  - split_and!; [by rewrite app_nil_r|done|].
    intros c. case_bool_decide; [set_solver|done].
  - apply NoDup_cons in Hnd as [Hk Hnd].
    assert (isPressed w k ≠ p) as Hne.
    { rewrite Hst by set_solver. by destruct p. }
    destruct (IH (addKey k p t w) Hnd) as (Htr & Hst' & Hpr).
    { intros k' Hk'. rewrite addKey_isPressed. unfold recordState.
      rewrite bool_decide_eq_false_2 by set_solver. apply Hst. set_solver. }
    unfold forEach_addKey in *. simpl. split_and!.
    + rewrite Htr, addKey_trace, bool_decide_eq_false_2 by done.
      by rewrite <-app_assoc.
    + by rewrite Hst', addKey_startedAt.
    + intros c. rewrite Hpr, addKey_isPressed. unfold recordState.
      destruct (decide (c = k)) as [->|Hc].
      * rewrite (bool_decide_eq_true_2 (k = k)) by done.
        rewrite (bool_decide_eq_true_2 (k ∈ k :: ks)) by set_solver.
        by case_bool_decide.
      * rewrite (bool_decide_eq_false_2 (c = k)) by done.
        by rewrite (bool_decide_ext (c ∈ k :: ks) (c ∈ ks)) by set_solver.
Qed.

(** A tap of distinct, released codes: the press pass, then the release
    pass 16 units later. *)
Lemma simulateKeyPress_released ks now w :
  NoDup ks → (∀ k, k ∈ ks → isPressed w k = false) →
  trace (simulateKeyPress ks now w)
  = trace w
    ++ map (fun k => AddKey k true (now - startedAt w)) ks
    ++ map (fun k => AddKey k false (now - startedAt w + 16)) ks.
Proof.
  intros Hnd Hrel. unfold simulateKeyPress.
  destruct (forEach_addKey_all_forwarded ks true (now - startedAt w) w)
    as (Htr & _ & Hpr); [done..|].
  destruct (forEach_addKey_all_forwarded ks false (now - startedAt w + 16)
              (forEach_addKey ks true (now - startedAt w) w))
    as (Htr' & _ & _); [done| |].
  { intros k Hk. rewrite Hpr. by rewrite bool_decide_eq_true_2. }
  by rewrite Htr', Htr, <-app_assoc.
Qed.
End taps.

(** C6, as stated, fails: tapping one code twice forwards two events, and
    tapping a code that is held forwards no press for it. *)
Lemma simulateKeyPress_not_always_four_events :
  trace (simulateKeyPress [65; 65] 1000 (newInstance 1000)) ≠ tapEvents 65 65 0
  ∧ trace (simulateKeyPress [65; 66] 1000
             (sendKeyEvent 65 true 1000 (newInstance 1000)))
    ≠ AddKey 65 true 0 :: tapEvents 65 66 0.
Proof. split; vm_compute; discriminate. Qed.

(** C6 (amended). For two different codes that the Key Matrix both records as
    released, [simulateKeyPress(a, b)] forwards exactly four events, in order:
    press(a,t), press(b,t), release(a,t+16), release(b,t+16), with [t] the
    relative time of the call. *)
Theorem simulateKeyPress_four_events (a b now : Z) (w : World) :
  a ≠ b → isPressed w a = false → isPressed w b = false →
  trace (simulateKeyPress [a; b] now w)
  = trace w ++ tapEvents a b (now - startedAt w).
Proof.
  intros Hab Ha Hb. rewrite simulateKeyPress_released; [done| |].
  - apply NoDup_cons. split; [set_solver|]. apply NoDup_singleton.
  - intros k Hk. set_unfold. by destruct Hk as [->|[->|[]]].
Qed.

Lemma simulateKeyPress_four_events_witness :
  trace (simulateKeyPress [65; 66] 1007 (newInstance 1000))
  = trace (newInstance 1000) ++ tapEvents 65 66 (1007 - 1000).
Proof.
  apply (simulateKeyPress_four_events 65 66 1007 (newInstance 1000));
    [done | reflexivity | reflexivity].
Defined.

(** ** Order and timestamps of forwarded input events *)

Section ordering.
Implicit Types (w : World) (evs : list obs) (cmds : list (command * Z)).

Lemma constant_sorted (t : Z) (l : list Z) :
  Forall (eq t) l → StronglySorted Z.le l.
Proof.
  induction 1 as [|x l <- Hl IH]; constructor; [done|].
  eapply Forall_impl; [done|]. simpl. lia.
Qed.

Lemma forEach_addKey_delta ks p t w :
  ∃ evs, trace (forEach_addKey ks p t w) = trace w ++ evs
         ∧ startedAt (forEach_addKey ks p t w) = startedAt w
         ∧ Forall (eq t) (stamps evs).
Proof.
  revert w. induction ks as [|k ks IH]; intros w.
  - exists []. by rewrite app_nil_r.
  - destruct (IH (addKey k p t w)) as (evs & Htr & Hst & Hall).
    unfold forEach_addKey in *. simpl. rewrite Htr, Hst, addKey_trace.
    rewrite addKey_startedAt, <-app_assoc. eexists. split_and!; [done..|].
    unfold stamps. rewrite omap_app. apply Forall_app. split; [|done].
    case_bool_decide; simpl; by repeat constructor.
Qed.

(** What one command appends: events stamped between the relative time of
    its call and the relative time at which it is [due], in non-decreasing
    order. *)
Lemma issue_delta c w :
  ∃ evs, trace (issue c w) = trace w ++ evs
         ∧ startedAt (issue c w) = startedAt w
         ∧ StronglySorted Z.le (stamps evs)
         ∧ Forall (fun t => c.2 - startedAt w ≤ t ≤ due c - startedAt w)
             (stamps evs).
Proof.
  destruct c as [[k p|ks|x y|b p] now]; unfold issue, due; simpl.
  - unfold sendKeyEvent. rewrite addKey_trace, addKey_startedAt.
    eexists. split_and!; [done..| |];
      case_bool_decide; simpl; repeat constructor; lia.
  - unfold simulateKeyPress.
    destruct (forEach_addKey_delta ks true (now - startedAt w) w)
      as (e1 & Ht1 & Hs1 & Ha1).
    destruct (forEach_addKey_delta ks false (now - startedAt w + 16)
                (forEach_addKey ks true (now - startedAt w) w))
      as (e2 & Ht2 & Hs2 & Ha2).
    exists (e1 ++ e2). rewrite Ht2, Ht1, Hs2, Hs1, <-app_assoc.
    split_and!; [done..| |]; unfold stamps; rewrite omap_app.
    + apply StronglySorted_app_2.
      * intros x1 x2 H1 H2. rewrite Forall_forall in Ha1, Ha2.
        rewrite <-(Ha1 _ H1), <-(Ha2 _ H2). lia.
      * by eapply constant_sorted.
      * by eapply constant_sorted.
    + apply Forall_app. split; (eapply Forall_impl; [done|]); simpl; lia.
  - exists [MouseMove x y (now - startedAt w)].
    split_and!; [done..| |]; simpl; repeat constructor; lia.
  - exists [MouseButton b p (now - startedAt w)].
    split_and!; [done..| |]; simpl; repeat constructor; lia.
Qed.

Lemma issueAll_app cmds1 cmds2 w :
  issueAll (cmds1 ++ cmds2) w = issueAll cmds2 (issueAll cmds1 w).
Proof. apply foldl_app. Qed.

Lemma issueAll_extends cmds w : trace w `prefix_of` trace (issueAll cmds w).
Proof.
  revert w. induction cmds as [|c cmds IH]; intros w; [done|].
  simpl. etrans; [|apply IH].
  destruct (issue_delta c w) as (evs & -> & _). by apply prefix_app_r.
Qed.

Lemma issueAll_sorted cmds w ready :
  StronglySorted Z.le (stamps (trace w)) →
  Forall (fun t => t ≤ ready - startedAt w) (stamps (trace w)) →
  spaced ready cmds →
  StronglySorted Z.le (stamps (trace (issueAll cmds w))).
Proof.
  revert w ready. induction cmds as [|c cmds IH];
    intros w ready Hsorted Hbound Hsp; [done|].
  destruct Hsp as [Hready Hsp]. simpl.
  destruct (issue_delta c w) as (evs & Htr & Hst & Hs & Hb).
  apply (IH _ (due c)); [| |done]; rewrite Htr; unfold stamps;
    rewrite omap_app.
  - apply StronglySorted_app_2; [|done..].
    intros x1 x2 H1 H2. rewrite Forall_forall in Hbound, Hb.
    specialize (Hbound _ H1). specialize (Hb _ H2). lia.
  - rewrite Hst. apply Forall_app. split.
    + eapply Forall_impl; [done|]. simpl. intros t Ht.
      assert (c.2 ≤ due c); [|lia].
      unfold due. destruct (c.1); lia.
    + eapply Forall_impl; [done|]. simpl. lia.
Qed.
End ordering.

(** C9, as stated, fails even when the clock never runs backwards: a tap
    dates its release 16 units ahead, and a key sent one unit after the tap
    is forwarded later with an earlier timestamp. *)
Lemma timestamps_not_monotone_after_tap :
  Sorted Z.le (tapThenKey.*2)
  ∧ stamps (trace (issueAll tapThenKey (newInstance 1000))) = [0; 16; 1]
  ∧ ¬ Sorted Z.le (stamps (trace (issueAll tapThenKey (newInstance 1000)))).
Proof.
  split_and!.
  - repeat constructor. simpl. lia.
  - by vm_compute.
  - replace (stamps _) with [0; 16; 1] by by vm_compute.
    intros H. apply Sorted_inv in H as [H _]. apply Sorted_inv in H as [_ H].
    apply HdRel_inv in H. lia.
Qed.

(** C9 (amended). The events of every sequence of key and mouse commands
    reach the module in the order the commands were issued: whatever the
    commands and the clock readings, what a prefix of the sequence forwards
    is a prefix of what the whole sequence forwards.  Their relative
    timestamps are non-decreasing when the clock readings are and every
    command that follows a [simulateKeyPress] is issued at least 16 time
    units after it. *)
Theorem input_events_in_order_and_monotone_when_spaced
  (start : Z) (cmds1 cmds2 : list (command * Z)) :
  trace (issueAll cmds1 (newInstance start))
    `prefix_of` trace (issueAll (cmds1 ++ cmds2) (newInstance start))
  ∧ (spaced start (cmds1 ++ cmds2) →
     Sorted Z.le
       (stamps (trace (issueAll (cmds1 ++ cmds2) (newInstance start))))).
Proof.
  split.
  - rewrite issueAll_app. apply issueAll_extends.
  - intros Hsp. apply StronglySorted_Sorted, (issueAll_sorted _ _ start);
      [constructor|constructor|done].
Qed.

Lemma input_events_in_order_and_monotone_when_spaced_witness :
  trace (issueAll [(SimulateKeyPress [65], 1000)] (newInstance 1000))
    `prefix_of`
    trace (issueAll ([(SimulateKeyPress [65], 1000)]
                       ++ [(SendKeyEvent 66 true, 1016)]) (newInstance 1000))
  ∧ Sorted Z.le
      (stamps (trace (issueAll ([(SimulateKeyPress [65], 1000)]
                                  ++ [(SendKeyEvent 66 true, 1016)])
                        (newInstance 1000)))).
Proof.
  destruct (input_events_in_order_and_monotone_when_spaced 1000
              [(SimulateKeyPress [65], 1000)] [(SendKeyEvent 66 true, 1016)])
    as [Horder Hsorted].
  split; [exact Horder|]. apply Hsorted.
  simpl. unfold due. simpl. lia.
Defined.

(** ** Screenshot *)

Section screenshot.
Implicit Types (m : Wasm) (rgba : Uint8ClampedArray) (img : ImageData).
Implicit Types (heap : list Byte.byte).
Local Open Scope nat_scope.

Lemma forceAlpha_length rgba next heap :
  length (forceAlpha rgba next heap) = length heap.
Proof.
  funelim (forceAlpha rgba next heap); [|done].
  rewrite H. unfold view_set. rewrite decide_True by done.
  apply length_insert.
Qed.

(** Bytes the loop does not visit keep their value. *)
Lemma forceAlpha_other rgba next heap j :
  (∀ q, next + 4 * q < byteLength rgba →
        j ≠ byteOffset rgba + next + 4 * q) →
  forceAlpha rgba next heap !! j = heap !! j.
Proof.
  funelim (forceAlpha rgba next heap); intros Hj; [|done].
  rewrite H.
  - unfold view_set. rewrite decide_True by done.
    apply list_lookup_insert_ne. specialize (Hj 0). lia.
  - intros q Hq. specialize (Hj (S q)). lia.
Qed.

(** Every byte the loop visits ends as 255. *)
Lemma forceAlpha_visited rgba next heap q :
  byteOffset rgba + byteLength rgba ≤ length heap →
  next + 4 * q < byteLength rgba →
  forceAlpha rgba next heap !! (byteOffset rgba + next + 4 * q)
  = Some Byte.xff.
Proof.
  revert q.
  funelim (forceAlpha rgba next heap); intros q Hfit Hq; [|lia].
  destruct q as [|q].
  - rewrite forceAlpha_other.
    + unfold view_set. rewrite decide_True by done.
      rewrite Nat.add_0_r. apply list_lookup_insert_eq. lia.
    + intros q' _. lia.
  - replace (byteOffset rgba + next + 4 * S q)
      with (byteOffset rgba + (next + 4) + 4 * q) by lia.
    apply H; [|lia]. unfold view_set. rewrite decide_True by done.
    by rewrite length_insert.
Qed.

Lemma pixels_lookup img m i :
  pixels img m !! i = view_get (data img) i (HEAPU8 m).
Proof.
  unfold pixels, view_get. case_decide.
  - by rewrite lookup_take_lt, lookup_drop.
  - apply lookup_take_ge. lia.
Qed.

(** [screenshot] unfolded: when it returns an image, the window lay inside
    the memory and the image is that window. *)
Lemma screenshot_Some m img m' :
  screenshot m = (Some img, m') →
  let rgba := mkView (Z.to_nat (_getFrameRgba m))
                (Z.to_nat (width m * height m * 4)) in
  (0 ≤ _getFrameRgba m ∧ 0 < width m ∧ 0 < height m)%Z
  ∧ byteOffset rgba + byteLength rgba ≤ length (HEAPU8 m)
  ∧ img = mkImageData rgba (width m) (height m)
  ∧ m' = set_HEAPU8 (forceAlpha rgba 3 (HEAPU8 m)) m.
Proof.
  unfold screenshot, newUint8ClampedArray, newImageData.
  case_decide as Hfit; [|done]. case_decide as Hdim; [|done].
  intros [= <- <-]. simpl. split_and!; try done; lia.
Qed.

(** The copying sibling: what [onFrame] hands to the Event Bus is a list
    of its own, equal to the frame as it was. *)
Lemma onFrame_copies m :
  (0 ≤ _getFrameRgba m ∧ 0 ≤ width m * height m * 4)%Z →
  onFrame (_getFrameRgba m) m
  = take (Z.to_nat (width m * height m * 4))
      (drop (Z.to_nat (_getFrameRgba m)) (HEAPU8 m)).
Proof.
  intros [Hp Hn]. unfold onFrame, slice.
  rewrite !decide_False by lia. f_equal. lia.
Qed.
End screenshot.

(** C8. Whatever the module's memory holds, for a frame of at least 1x1 that
    lies inside that memory, [screenshot()] returns an image of the frame's
    dimensions with four bytes per pixel, and the fourth byte of every pixel
    (offsets 3, 7, 11, ...) is 255. *)
Theorem screenshot_alpha_is_255 (m : Wasm) :
  1 ≤ width m → 1 ≤ height m → 0 ≤ _getFrameRgba m →
  _getFrameRgba m + width m * height m * 4 ≤ Z.of_nat (length (HEAPU8 m)) →
  ∃ img,
    (screenshot m).1 = Some img
    ∧ sw img = width m ∧ sh img = height m
    ∧ length (pixels img (screenshot m).2) = Z.to_nat (4 * width m * height m)
    ∧ ∀ p : nat, Z.of_nat p < width m * height m →
        pixels img (screenshot m).2 !! (4 * p + 3)%nat = Some Byte.xff.
Proof.
  intros Hw Hh Hptr Hfit.
  set (rgba := mkView (Z.to_nat (_getFrameRgba m))
                 (Z.to_nat (width m * height m * 4))).
  assert (screenshot m
          = (Some (mkImageData rgba (width m) (height m)),
             set_HEAPU8 (forceAlpha rgba 3 (HEAPU8 m)) m)) as ->.
  { unfold screenshot, newUint8ClampedArray, newImageData.
    rewrite decide_True by nia. fold rgba. simpl.
    rewrite decide_True; [done|]. simpl. nia. }
  eexists. split_and!; [done..| |]; cbn [fst snd].
  - unfold pixels. cbn [data HEAPU8 set_HEAPU8 byteLength byteOffset rgba].
    rewrite length_take, length_drop, forceAlpha_length. nia.
  - intros p Hp. rewrite pixels_lookup. unfold view_get.
    cbn [data HEAPU8 set_HEAPU8]. rewrite decide_True by (subst rgba; cbn; nia).
    replace (byteOffset rgba + (4 * p + 3))%nat
      with (byteOffset rgba + 3 + 4 * p)%nat by lia.
    apply forceAlpha_visited; subst rgba; cbn [byteOffset byteLength]; nia.
Qed.

Lemma screenshot_alpha_is_255_witness :
  ∃ img,
    (screenshot onePixel).1 = Some img
    ∧ sw img = width onePixel ∧ sh img = height onePixel
    ∧ length (pixels img (screenshot onePixel).2)
      = Z.to_nat (4 * width onePixel * height onePixel)
    ∧ ∀ p : nat, Z.of_nat p < width onePixel * height onePixel →
        pixels img (screenshot onePixel).2 !! (4 * p + 3)%nat = Some Byte.xff.
Proof.
  apply (screenshot_alpha_is_255 onePixel); vm_compute; congruence.
Defined.

(** C7. The code at the failing input, a frame of one pixel with alpha 0 at
    address 0.  [onFrame] hands the frame over as a copy and leaves the
    memory alone.  [screenshot()] returns an image over the window of four
    bytes at address 0 of the module memory, and leaves that memory with
    255 in the alpha byte; when the module then draws its next frame the
    image shows the new bytes, not those of the moment of the call.  So
    [screenshot] is not the detached copy the specification asks for. *)
Theorem screenshot_is_a_view_of_module_memory :
  HEAPU8 onePixel = [Byte.x00; Byte.x00; Byte.x00; Byte.x00]
  ∧ onFrame 0 onePixel = [Byte.x00; Byte.x00; Byte.x00; Byte.x00]
  ∧ (screenshot onePixel).1 = Some (mkImageData (mkView 0 4) 1 1)
  ∧ HEAPU8 (screenshot onePixel).2
    = [Byte.x00; Byte.x00; Byte.x00; Byte.xff]
  ∧ pixels (mkImageData (mkView 0 4) 1 1) (screenshot onePixel).2
    = [Byte.x00; Byte.x00; Byte.x00; Byte.xff]
  ∧ pixels (mkImageData (mkView 0 4) 1 1)
      (set_HEAPU8 [Byte.x01; Byte.x02; Byte.x03; Byte.x04]
         (screenshot onePixel).2)
    = [Byte.x01; Byte.x02; Byte.x03; Byte.x04]
  ∧ ¬ screenshot_is_detached_copy onePixel.
Proof.
  split_and!; try by vm_compute.
  intros Hcopy.
  destruct (Hcopy (mkImageData (mkView 0 4) 1 1)
              (mkWasm [Byte.x00; Byte.x00; Byte.x00; Byte.xff] 1 1 0))
    as [Hmem _]; [by vm_compute|].
  discriminate Hmem.
Qed.

(** ** Traces *)

Section traces.
Implicit Types (tr evs : list obs) (o : obs) (f : obs → bool).

Lemma precedes_snoc (a b : obs → Prop) tr o :
  precedes a b tr → (b o → ∃ o', o' ∈ tr ∧ a o') →
  precedes a b (tr ++ [o]).
Proof.
  intros Hp Ho i x Hi Hb.
  apply lookup_app_Some in Hi as [Hi|[Hlen Hi]].
  - destruct (Hp i x Hi Hb) as (j & o' & Hj & Hlook & Ha).
    exists j, o'. split_and!; [done| |done]. by apply lookup_app_l_Some.
  - apply list_lookup_singleton_Some in Hi as [Hi ->].
    destruct (Ho Hb) as (o' & Hin & Ha).
    apply list_elem_of_lookup in Hin as [j Hj].
    exists j, o'. split_and!; [|by apply lookup_app_l_Some|done].
    apply lookup_lt_Some in Hj. lia.
Qed.

Lemma precedes_elem_of (a b : obs → Prop) tr o :
  precedes a b tr → o ∈ tr → b o → ∃ o', o' ∈ tr ∧ a o'.
Proof.
  intros Hp [i Hi]%list_elem_of_lookup Hb.
  destruct (Hp i o Hi Hb) as (j & o' & _ & Hj & Ha).
  exists o'. split; [|done]. apply list_elem_of_lookup. eauto.
Qed.

Lemma count_app f tr evs : count f (tr ++ evs) = (count f tr + count f evs)%nat.
Proof. unfold count. by rewrite List.filter_app, length_app. Qed.

Lemma count_snoc f tr o :
  count f (tr ++ [o]) = (count f tr + if f o then 1 else 0)%nat.
Proof. rewrite count_app. unfold count. simpl. by destruct (f o). Qed.
End traces.

(** ** Strings *)

Lemma string_app_nil_r (s : string) : s +:+ "" = s.
Proof.
  induction s as [|a s IH]; [done|].
  change (String a (s +:+ "") = String a s). by rewrite IH.
Qed.

Lemma string_app_assoc (s1 s2 s3 : string) :
  (s1 +:+ s2) +:+ s3 = s1 +:+ (s2 +:+ s3).
Proof.
  induction s1 as [|a s1 IH]; [done|].
  change (String a ((s1 +:+ s2) +:+ s3) = String a (s1 +:+ (s2 +:+ s3))).
  by rewrite IH.
Qed.

(** ** The invariants are kept *)

Section invariants.
Context `{Serializer}.
Implicit Types (w : World) (o : obs) (c : callback) (r : reply).

Lemma WeakInv_emit o w :
  WeakInv w →
  (o = FireExit →
     ExitCallback ∈ trace w ∧ is_Some (exitPromise w)
     ∧ ∃ q v, module_exit w = Some q
              ∧ promises w !! q = Some (Fulfilled v)) →
  (∀ p s, o ≠ Settled p s) →
  WeakInv (emit o w).
Proof.
  intros [Hp Hidle Hjobs Hinner Hder Hconf Hfired Hset Hrec Ho1 Ho2 Hcause] Hfire Hns.
  constructor; simpl; try done.
  - intros q v Hq Hv. apply elem_of_app. left. eauto.
  - intros [Hin|Hin%list_elem_of_singleton]%elem_of_app; [eauto|].
    subst o. by apply Hfire.
  - intros p s [Hin|Hin%list_elem_of_singleton]%elem_of_app; [eauto|].
    by destruct (Hns p s).
  - intros p s Hp' Hs. apply elem_of_app. left. eauto.
  - apply precedes_snoc; [done|]. intros <-.
    exists ExitCallback. split; [by apply Hfire|done].
  - intros d Hd. apply precedes_snoc; [eauto|]. intros [v ->].
    by destruct (Hns d (Fulfilled v)).
  - intros [Hin|Hin%list_elem_of_singleton]%elem_of_app; [eauto|].
    subst o. by apply Hfire.
Qed.

Lemma WeakInv_settle p s w :
  WeakInv w → s ≠ Pending →
  (∀ v, s = Fulfilled v →
     (module_exit w = Some p → ExitCallback ∈ trace w)
     ∧ (exitPromise w = Some p → FireExit ∈ trace w)) →
  WeakInv (settle p s w).
Proof.
  intros [Hp Hidle Hjobs Hinner Hder Hconf Hfired Hset Hrec Ho1 Ho2 Hcause] Hs Hok.
  unfold settle. destruct (promises w !! p) as [[]|] eqn:Hlook; try done.
  constructor; simpl; rewrite ?length_insert; try done.
  - intros Hq. destruct (Hidle Hq) as [-> ->]. done.
  - intros q j Hq Hj. apply (Hjobs q j Hq).
    rewrite !elem_of_app, !list_elem_of_filter in Hj.
    rewrite elem_of_app. naive_solver.
  - intros q v Hq Hv. apply elem_of_app. left.
    destruct (decide (q = p)) as [->|Hne].
    + rewrite list_lookup_insert_eq in Hv by by eapply lookup_lt_Some.
      injection Hv as ->. by apply (Hok v).
    + rewrite list_lookup_insert_ne in Hv by done. eauto.
  - intros [Hin|Hin%list_elem_of_singleton]%elem_of_app; [eauto|done].
  - intros p' s' [Hin|Hin%list_elem_of_singleton]%elem_of_app; [eauto|].
    injection Hin as -> ->. by eapply lookup_lt_Some.
  - intros p' s' Hp' Hs'. apply elem_of_app.
    destruct (decide (p' = p)) as [->|Hne].
    + rewrite list_lookup_insert_eq in Hp' by by eapply lookup_lt_Some.
      injection Hp' as ->. right. by apply list_elem_of_singleton.
    + rewrite list_lookup_insert_ne in Hp' by done. left. eauto.
  - apply precedes_snoc; [done|]. by intros.
  - intros d Hd. apply precedes_snoc; [eauto|]. intros [v [= -> ->]].
    exists FireExit. split; [|done]. by apply (Hok v).
  - intros [Hin|Hin%list_elem_of_singleton]%elem_of_app; [|done].
    destruct (Hcause Hin) as (q & v & Hq & Hv). exists q, v.
    split; [done|]. destruct (decide (q = p)) as [->|Hne]; [congruence|].
    by rewrite list_lookup_insert_ne.
Qed.
Lemma WeakInv_set_keyMatrix m w : WeakInv w → WeakInv (set_keyMatrix m w).
Proof. intros []. by constructor. Qed.

Lemma WeakInv_set_startupErrorLog l w :
  WeakInv w → WeakInv (set_startupErrorLog l w).
Proof. intros []. by constructor. Qed.

Lemma WeakInv_set_module_err k w : WeakInv w → WeakInv (set_module_err k w).
Proof. intros []. by constructor. Qed.

Lemma WeakInv_set_persistPromise p w :
  WeakInv w → WeakInv (set_persistPromise p w).
Proof. intros []. by constructor. Qed.

Lemma WeakInv_clear_persist w :
  WeakInv w → WeakInv (set_module_persist None w).
Proof. intros []. by constructor. Qed.

Lemma WeakInv_pop j q w :
  microtasks w = j :: q → WeakInv w → WeakInv (set_microtasks q w).
Proof.
  intros Hq [Hp Hidle Hjobs Hinner Hder Hconf Hfired Hset Hrec Ho1 Ho2 Hcause].
  constructor; simpl; try done.
  - intros Hm. destruct (Hidle Hm) as [_ Hnil]. congruence.
  - intros q' j' Hm Hj. apply (Hjobs q' j' Hm). rewrite Hq.
    set_solver.
Qed.

Lemma WeakInv_newPromise w : WeakInv w → WeakInv (newPromise w).
Proof.
  intros [Hp Hidle Hjobs Hinner Hder Hconf Hfired Hset Hrec Ho1 Ho2 Hcause].
  constructor; simpl; rewrite ?length_app; simpl; try done.
  - intros p Hm. destruct (Hp p Hm) as (? & ? & ?). split_and!; [lia|done..].
  - intros q Hm. specialize (Hinner q Hm). lia.
  - intros d Hd. destruct (Hder d Hd) as (q & ? & ?). exists q. split; [done|lia].
  - intros q v Hm Hv. apply (Hconf q v Hm).
    by rewrite lookup_app_l in Hv by eauto.
  - intros p s Hin. specialize (Hset p s Hin). lia.
  - intros p s Hlook Hs. apply Hrec; [|done].
    apply lookup_app_Some in Hlook as [Hlook|[_ Hlook]]; [done|].
    apply list_lookup_singleton_Some in Hlook as [_ <-]. done.
  - intros Hin. destruct (Hcause Hin) as (q & v & Hq & Hv).
    exists q, v. split; [done|]. by apply lookup_app_l_Some.
Qed.

Lemma WeakInv_addKey k p t w : WeakInv w → WeakInv (addKey k p t w).
Proof.
  intros Hw. unfold addKey. case_bool_decide; [done|].
  apply WeakInv_emit; [by apply WeakInv_set_keyMatrix|done..].
Qed.

Lemma WeakInv_forEach_addKey ks p t w :
  WeakInv w → WeakInv (forEach_addKey ks p t w).
Proof.
  revert w. induction ks as [|k ks IH]; intros w Hw; [done|].
  apply IH. by apply WeakInv_addKey.
Qed.

Lemma WeakInv_issue cmd w : WeakInv w → WeakInv (issue cmd w).
Proof.
  intros Hw. destruct cmd as [[k p|ks|x y|b p] now]; unfold issue; simpl.
  - by apply WeakInv_addKey.
  - by do 2 apply WeakInv_forEach_addKey.
  - by apply WeakInv_emit.
  - by apply WeakInv_emit.
Qed.

Lemma WeakInv_invoke c w : WeakInv w → WeakInv (invoke c w).
Proof.
  intros Hw. destruct c as [a|a|a|a|a|a|]; simpl;
    unfold logFn, warnFn, errFn, startupErrFn, fireMessage;
    try (by apply WeakInv_emit).
  - destruct (module_err w); [|by apply WeakInv_emit].
    apply WeakInv_set_startupErrorLog.
    by do 2 (apply WeakInv_emit; [|done..]).
  - destruct (module_err w); [|by apply WeakInv_emit].
    apply WeakInv_set_startupErrorLog.
    by do 2 (apply WeakInv_emit; [|done..]).
  - destruct (module_persist w) as [p|] eqn:Hm; [|done].
    apply WeakInv_clear_persist, WeakInv_settle;
      [by apply WeakInv_emit|done|].
    intros v _. simpl. destruct (wi_persist w Hw p Hm) as (_ & ? & ?).
    done.
  - destruct (module_exit w) as [q|] eqn:Hm; [|done].
    apply WeakInv_settle; [by apply WeakInv_emit|done|].
    intros v _. simpl. split; [set_solver|].
    intros Hd. destruct (wi_derived w Hw q Hd) as (q' & Hq' & ?).
    assert (q' = q) as -> by congruence. lia.
Qed.

Lemma WeakInv_request o r w :
  hostRequest o = true → WeakInv w → WeakInv (request o r w).
Proof.
  intros Ho Hw. unfold request.
  assert (WeakInv (emit o w)) as Hw'.
  { apply WeakInv_emit; [done|by intros ->|by intros ? ? ->]. }
  revert Hw'. generalize (emit o w). clear Hw.
  induction (callbacks r) as [|c cs IH]; intros w' Hw'; [done|].
  simpl. by apply IH, WeakInv_invoke.
Qed.

Lemma WeakInv_runMicrotask w : WeakInv w → WeakInv (runMicrotask w).
Proof.
  intros Hw. unfold runMicrotask.
  destruct (microtasks w) as [|j rest] eqn:Hq; [done|].
  pose proof (WeakInv_pop j rest w Hq Hw) as Hw'.
  destruct (module_exit w) as [q|] eqn:Hm;
    [|destruct (wi_idle w Hw Hm); congruence].
  destruct (wi_jobs w Hw q j Hm) as [Hj1 Hj2]; [rewrite Hq; set_solver|].
  destruct (wi_derived w Hw _ Hj2) as (q' & Hq' & Hlt).
  assert (q' = q) as -> by congruence.
  unfold runJob, fireExit. simpl.
  destruct (promises w !! j.1) as [[|v|e]|] eqn:Hlook; try done.
  - apply WeakInv_settle; [|done|].
    + apply WeakInv_emit; [done| |done]. intros _. simpl.
      rewrite Hj1 in Hlook. split_and!; [|by eauto|by eauto].
      by apply (wi_confirmed w Hw q v Hm).
    + intros v' _. simpl. split; [|set_solver].
      intros Hm'. assert (j.2 = q) by congruence. lia.
  - by apply WeakInv_settle.
Qed.
(** *** What the primitives leave alone *)

Lemma ledger_emit o w : hostRequest o = false → ledger (emit o w) = ledger w.
Proof.
  intros Ho. unfold ledger. simpl. rewrite List.filter_app. simpl.
  by rewrite Ho, app_nil_r.
Qed.

Lemma ledger_settle p s w : ledger (settle p s w) = ledger w.
Proof.
  unfold settle. destruct (promises w !! p) as [[]|]; try done.
  unfold ledger. simpl. rewrite List.filter_app. simpl. by rewrite app_nil_r.
Qed.

Lemma ledger_addKey k p t w : ledger (addKey k p t w) = ledger w.
Proof. unfold addKey. case_bool_decide; [done|]. by rewrite ledger_emit. Qed.

Lemma ledger_forEach_addKey ks p t w :
  ledger (forEach_addKey ks p t w) = ledger w.
Proof.
  revert w. induction ks as [|k ks IH]; intros w; [done|].
  unfold forEach_addKey in *. simpl. by rewrite IH, ledger_addKey.
Qed.

Lemma ledger_issue cmd w : ledger (issue cmd w) = ledger w.
Proof.
  destruct cmd as [[k p|ks|x y|b p] now]; unfold issue; simpl.
  - apply ledger_addKey.
  - unfold simulateKeyPress. by rewrite !ledger_forEach_addKey.
  - by apply ledger_emit.
  - by apply ledger_emit.
Qed.

Lemma ledger_invoke c w : ledger (invoke c w) = ledger w.
Proof.
  destruct c as [a|a|a|a|a|a|]; simpl;
    unfold logFn, warnFn, errFn, startupErrFn, fireMessage;
    try (by apply ledger_emit).
  - destruct (module_err w); [|by apply ledger_emit].
    unfold ledger. simpl. rewrite !List.filter_app. simpl.
    by rewrite !app_nil_r.
  - destruct (module_err w); [|by apply ledger_emit].
    unfold ledger. simpl. rewrite !List.filter_app. simpl.
    by rewrite !app_nil_r.
  - destruct (module_persist w); [|done].
    transitivity (ledger (settle n (Fulfilled (VArchive a))
                            (emit (PersistCallback a) w))); [done|].
    by rewrite ledger_settle, ledger_emit.
  - destruct (module_exit w); [|done].
    by rewrite ledger_settle, ledger_emit.
Qed.

Lemma ledger_runMicrotask w : ledger (runMicrotask w) = ledger w.
Proof.
  unfold runMicrotask. destruct (microtasks w) as [|j rest]; [done|].
  unfold runJob, fireExit. simpl.
  destruct (promises w !! j.1) as [[]|]; try done.
  - by rewrite ledger_settle, ledger_emit.
  - by rewrite ledger_settle.
Qed.

Lemma module_persist_settle p s w :
  module_persist (settle p s w) = module_persist w.
Proof. unfold settle. by destruct (promises w !! p) as [[]|]. Qed.

Lemma module_persist_invoke c w :
  module_persist (invoke c w) = module_persist w
  ∨ module_persist (invoke c w) = None.
Proof.
  destruct c; simpl; unfold startupErrFn; try (by left).
  - destruct (module_err w); by left.
  - destruct (module_err w); by left.
  - destruct (module_persist w) eqn:Hm; [by right|by left].
  - destruct (module_exit w); [|by left]. left.
    by rewrite module_persist_settle.
Qed.

Lemma module_persist_runMicrotask w :
  module_persist (runMicrotask w) = module_persist w.
Proof.
  unfold runMicrotask. destruct (microtasks w) as [|j rest]; [done|].
  unfold runJob, fireExit. simpl.
  destruct (promises w !! j.1) as [[]|]; try done;
    by rewrite module_persist_settle.
Qed.

Lemma module_persist_addKey k p t w :
  module_persist (addKey k p t w) = module_persist w.
Proof. unfold addKey. by case_bool_decide. Qed.

Lemma module_persist_issue cmd w :
  module_persist (issue cmd w) = module_persist w.
Proof.
  destruct cmd as [[k p|ks|x y|b p] now]; unfold issue; simpl; try done.
  - apply module_persist_addKey.
  - unfold simulateKeyPress, forEach_addKey.
    generalize (now - startedAt w). intros t.
    assert (∀ b t' w', module_persist
              (foldl (fun acc k => addKey k b t' acc) w' ks)
            = module_persist w') as Hfold.
    { intros b t'. induction ks as [|k ks IH]; intros w'; [done|].
      simpl. by rewrite IH, module_persist_addKey. }
    by rewrite !Hfold.
Qed.

Lemma count_filter_hostRequest (f : obs → bool) (tr : list obs) :
  (∀ o, f o = true → hostRequest o = true) →
  count f tr = count f (List.filter hostRequest tr).
Proof.
  intros Hf. induction tr as [|o tr IH]; [done|]. unfold count in *. simpl.
  destruct (f o) eqn:Hfo.
  - rewrite (Hf o Hfo). simpl. rewrite Hfo. simpl. by rewrite IH.
  - destruct (hostRequest o); simpl; [by rewrite Hfo|done].
Qed.

Lemma count_ledger (f : obs → bool) w w' :
  (∀ o, f o = true → hostRequest o = true) →
  ledger w' = ledger w → count f (trace w') = count f (trace w).
Proof.
  intros Hf [= _ _ _ Hreq].
  rewrite (count_filter_hostRequest f (trace w')) by done.
  by rewrite Hreq, <-count_filter_hostRequest.
Qed.

(** The invariant survives whatever keeps [WeakInv] and the ledger and
    does not fill the persist slot. *)
Lemma Inv_frame w w' :
  WeakInv w' → ledger w' = ledger w →
  (module_persist w' = module_persist w ∨ module_persist w' = None) →
  Inv w → Inv w'.
Proof.
  intros Hw' Hl Hp [_ Hes Hps Hpk Hex].
  pose proof Hl as [= Hl1 Hl2 Hl3 _].
  constructor; [done|..].
  - rewrite Hl2, Hl3. done.
  - rewrite Hl1. intros Hn. destruct Hp as [->| ->]; auto.
  - rewrite Hl1, <-Hpk. apply count_ledger; [|done]. by intros [].
  - rewrite Hl2, <-Hex. apply count_ledger; [|done]. by intros [].
Qed.
Lemma request_frame o r w :
  hostRequest o = true →
  ledger (request o r w)
  = (persistPromise w, exitPromise w, module_exit w,
     List.filter hostRequest (trace w) ++ [o])
  ∧ (module_persist (request o r w) = module_persist w
     ∨ module_persist (request o r w) = None)
  ∧ length (promises (request o r w)) = length (promises w).
Proof.
  intros Ho. unfold request.
  assert (ledger (emit o w)
          = (persistPromise w, exitPromise w, module_exit w,
             List.filter hostRequest (trace w) ++ [o])) as <-.
  { unfold ledger. simpl. rewrite List.filter_app. simpl. by rewrite Ho. }
  change (module_persist w) with (module_persist (emit o w)).
  change (promises w) with (promises (emit o w)).
  generalize (emit o w). clear w.
  induction (callbacks r) as [|c cs IH]; intros w; simpl; [by auto|].
  destruct (IH (invoke c w)) as (-> & Hp & ->).
  split_and!; [apply ledger_invoke| |].
  - destruct Hp as [->|]; [apply module_persist_invoke|by right].
  - destruct c; simpl; unfold startupErrFn; try done.
    + by destruct (module_err w).
    + by destruct (module_err w).
    + destruct (module_persist w) as [p|]; [|done]. simpl.
      unfold settle. simpl. destruct (promises w !! p) as [[]|]; try done.
      simpl. by rewrite length_insert.
    + destruct (module_exit w) as [q|]; [|done].
      unfold settle. simpl. destruct (promises w !! q) as [[]|]; try done.
      simpl. by rewrite length_insert.
Qed.

Lemma WeakInv_install_persist w :
  WeakInv w →
  WeakInv (set_module_persist (Some (length (promises w))) (newPromise w)).
Proof.
  intros Hw. pose proof (WeakInv_newPromise w Hw)
    as [Hp Hidle Hjobs Hinner Hder Hconf Hfired Hset Hrec Ho1 Ho2 Hcause].
  constructor; try done. simpl. intros p [= <-].
  rewrite length_app. simpl. split_and!; [lia| |].
  - intros Hm. specialize (wi_inner w Hw _ Hm). lia.
  - intros Hd. destruct (wi_derived w Hw _ Hd) as (? & ? & ?). lia.
Qed.

Lemma WeakInv_install_exit w :
  WeakInv w → module_exit w = None →
  WeakInv (set_module_exit (Some (length (promises w))) (newPromise w)).
Proof.
  intros Hw Hm. pose proof (WeakInv_newPromise w Hw)
    as [Hp Hidle Hjobs Hinner Hder Hconf Hfired Hset Hrec Ho1 Ho2 Hcause].
  simpl in *. destruct (Hidle Hm) as [Hr Hq].
  assert (exitPromise w = None) as Hd.
  { destruct (exitPromise w) as [d|] eqn:Hd; [|done].
    destruct (wi_derived w Hw d Hd) as (? & ? & ?). congruence. }
  constructor; simpl; try done.
  - intros p Hp'. destruct (Hp p Hp') as (Hlt & _ & ?).
    destruct (wi_persist w Hw p Hp') as (Hlt' & _).
    split_and!; [done| |done]. intros [= <-]. lia.
  - rewrite Hr, Hq. intros q j _ Hj. set_solver.
  - intros q [= <-]. rewrite length_app. simpl. lia.
  - rewrite Hd. done.
  - intros q v [= <-]. rewrite lookup_app_r by done.
    rewrite Nat.sub_diag. done.
  - intros Hin. destruct (wi_fired w Hw Hin) as [? ?]. congruence.
Qed.

Lemma WeakInv_then q w :
  WeakInv w → module_exit w = Some q → exitPromise w = None →
  WeakInv (set_exitPromise (Some (length (promises w))) (then_fireExit q w)).
Proof.
  intros Hw Hm Hd.
  assert (reactions w = [] ∧ microtasks w = []) as [Hr Hq].
  { destruct (reactions w ++ microtasks w) as [|j l] eqn:Hl.
    - by apply app_eq_nil in Hl.
    - destruct (wi_jobs w Hw q j Hm) as [_ ?]; [rewrite Hl; set_solver|].
      congruence. }
  pose proof (WeakInv_newPromise w Hw)
    as [Hp Hidle Hjobs Hinner Hder Hconf Hfired Hset Hrec Ho1 Ho2 Hcause].
  pose proof (wi_inner w Hw q Hm) as Hlt.
  assert (∀ w', trace w' = trace (newPromise w) →
                promises w' = promises (newPromise w) →
                module_persist w' = module_persist w →
                module_exit w' = Some q →
                exitPromise w' = Some (length (promises w)) →
                reactions w' ++ microtasks w'
                = [(q, length (promises w))] →
                WeakInv w') as Hgoal.
  { intros w' Htr Hpr Hmp Hme Hde Hj.
    constructor; rewrite ?Htr, ?Hpr, ?Hmp, ?Hme, ?Hde; try done.
    - intros p Hp'. destruct (Hp p Hp') as (? & _ & _).
      split_and!; [done| |].
      + destruct (wi_persist w Hw p Hp') as (_ & ? & _). congruence.
      + destruct (wi_persist w Hw p Hp') as (Hlt' & _).
        intros [= <-]. lia.
    - intros q' j [= <-]. rewrite Hj. intros ->%list_elem_of_singleton.
      done.
    - intros q' [= <-]. simpl. rewrite length_app. lia.
    - intros d [= <-]. exists q. split; [done|].
      simpl. rewrite length_app. simpl. lia.
    - intros q' v [= <-] Hv. by apply (Hconf q v).
    - intros d [= <-] i o Hi [v ->].
      assert (Settled (length (promises w)) (Fulfilled v) ∈ trace w) as Hin
        by (apply list_elem_of_lookup; eauto).
      specialize (wi_settled w Hw _ _ Hin). lia.
    - intros Hin. destruct (Hcause Hin) as (q' & v & Hq' & Hv).
      exists q', v. split; [|done]. simpl in Hq'. congruence. }
  unfold then_fireExit.
  destruct (promises (newPromise w) !! q) as [[]|];
    apply Hgoal; simpl; rewrite ?Hr, ?Hq; done.
Qed.
(** *** The invariant holds of every reachable store *)

Lemma Inv_newInstance start : Inv (newInstance start).
Proof.
  constructor; try done. constructor; simpl; try done.
  - by intros ?%elem_of_nil.
  - by intros p o ?%elem_of_nil.
  - by intros ?%elem_of_nil.
Qed.

Lemma persist_memo w p r :
  persistPromise w = Some p → persist r w = (p, w).
Proof. intros Hp. unfold persist. by rewrite Hp. Qed.

Lemma exit_memo w d r : exitPromise w = Some d → exit r w = (d, w).
Proof. intros Hd. unfold exit. by rewrite Hd. Qed.

Lemma Inv_persist r w : Inv w → Inv (persist r w).2.
Proof.
  intros Hinv. unfold persist.
  destruct (persistPromise w) as [p|] eqn:Hpp; [done|]. simpl.
  destruct Hinv as [Hw Hes Hps Hpk Hex]. rewrite Hpp in Hpk.
  set (p := length (promises w)).
  set (w1 := set_module_persist (Some p) (newPromise w)).
  set (w2 := request PackFsToBundle r w1).
  set (w3 := match thrown r with
             | Some e => settle p (Rejected e) w2
             | None => w2
             end).
  assert (WeakInv w3) as Hw3.
  { subst w3. assert (WeakInv w2) as Hw2
      by by apply WeakInv_request, WeakInv_install_persist.
    destruct (thrown r); [|done]. by apply WeakInv_settle. }
  destruct (request_frame PackFsToBundle r w1 eq_refl) as (Hl & _ & _).
  fold w2 in Hl. simpl in Hl.
  assert (ledger w3
          = (None, exitPromise w, module_exit w,
             List.filter hostRequest (trace w) ++ [PackFsToBundle]))
    as [= Hl1 Hl2 Hl3 Hl4].
  { subst w3. destruct (thrown r); [rewrite ledger_settle|];
      by rewrite Hl, Hpp. }
  constructor; simpl.
  - by apply WeakInv_set_persistPromise.
  - by rewrite Hl2, Hl3.
  - done.
  - rewrite (count_filter_hostRequest isPackFsToBundle) by by intros [].
    rewrite Hl4, count_app.
    rewrite <-(count_filter_hostRequest isPackFsToBundle) by by intros [].
    by rewrite Hpk.
  - rewrite (count_filter_hostRequest isRequestExit) by by intros [].
    rewrite Hl4, count_app.
    rewrite <-(count_filter_hostRequest isRequestExit) by by intros [].
    rewrite Hl2, Hex. unfold count. simpl. lia.
Qed.

Lemma Inv_exit r w : Inv w → Inv (exit r w).2.
Proof.
  intros Hinv. unfold exit.
  destruct (exitPromise w) as [d|] eqn:Hd; [done|]. simpl.
  destruct Hinv as [Hw Hes Hps Hpk Hex]. rewrite Hd in Hex.
  specialize (Hes Hd).
  set (q := length (promises w)).
  set (w1 := set_module_exit (Some q) (newPromise w)).
  set (w2 := request RequestExit r w1).
  set (w3 := match thrown r with
             | Some e => settle q (Rejected e) w2
             | None => w2
             end).
  assert (WeakInv w3) as Hw3.
  { subst w3. assert (WeakInv w2) as Hw2
      by by apply WeakInv_request, WeakInv_install_exit.
    destruct (thrown r); [|done]. by apply WeakInv_settle. }
  destruct (request_frame RequestExit r w1 eq_refl) as (Hl & Hmp & _).
  fold w2 in Hl, Hmp. simpl in Hl, Hmp.
  assert (ledger w3
          = (persistPromise w, None, Some q,
             List.filter hostRequest (trace w) ++ [RequestExit]))
    as [= Hl1 Hl2 Hl3 Hl4].
  { subst w3. destruct (thrown r); [rewrite ledger_settle|];
      by rewrite Hl, Hd. }
  assert (module_persist w3 = module_persist w ∨ module_persist w3 = None)
    as Hmp3.
  { subst w3. destruct (thrown r); [rewrite module_persist_settle|]; done. }
  assert (trace (then_fireExit q w3) = trace w3
          ∧ persistPromise (then_fireExit q w3) = persistPromise w3
          ∧ module_persist (then_fireExit q w3) = module_persist w3)
    as (Htr & Hpp & Hmp').
  { unfold then_fireExit.
    by destruct (promises (newPromise w3) !! q) as [[]|]. }
  constructor; simpl.
  - by apply WeakInv_then.
  - done.
  - rewrite Hpp, Hl1, Hmp'. intros Hn. destruct Hmp3 as [->| ->]; auto.
  - rewrite Htr, Hpp, Hl1, <-Hpk.
    rewrite (count_filter_hostRequest isPackFsToBundle) by by intros [].
    rewrite Hl4, count_app.
    rewrite <-(count_filter_hostRequest isPackFsToBundle) by by intros [].
    unfold count at 2. simpl. lia.
  - rewrite Htr.
    rewrite (count_filter_hostRequest isRequestExit) by by intros [].
    rewrite Hl4, count_app.
    rewrite <-(count_filter_hostRequest isRequestExit) by by intros [].
    by rewrite Hex.
Qed.

Lemma Inv_step a w : Inv w → Inv (step a w).
Proof.
  intros Hinv. destruct a as [c now|r|r|c|]; simpl.
  - eapply Inv_frame; [|apply ledger_issue| |done].
    + apply WeakInv_issue, Hinv.
    + left. apply module_persist_issue.
  - by apply Inv_persist.
  - by apply Inv_exit.
  - eapply Inv_frame; [|apply ledger_invoke| |done].
    + apply WeakInv_invoke, Hinv.
    + apply module_persist_invoke.
  - eapply Inv_frame; [|apply ledger_runMicrotask| |done].
    + apply WeakInv_runMicrotask, Hinv.
    + left. apply module_persist_runMicrotask.
Qed.

Lemma Inv_run acts w : Inv w → Inv (run acts w).
Proof.
  revert w. induction acts as [|a acts IH]; intros w Hinv; [done|].
  simpl. by apply IH, Inv_step.
Qed.

(** *** A kept promise stays kept *)


Lemma exit_kept r w : exitPromise (exit r w).2 = Some (exit r w).1.
Proof. unfold exit. by destruct (exitPromise w) eqn:Hd. Qed.

Lemma exit_persistPromise r w :
  persistPromise (exit r w).2 = persistPromise w.
Proof.
  unfold exit. destruct (exitPromise w); [done|]. simpl.
  set (w1 := set_module_exit _ _).
  destruct (request_frame RequestExit r w1 eq_refl) as ([= Hl _ _ _] & _).
  set (w3 := match thrown r with Some e => _ | None => _ end).
  assert (persistPromise w3 = persistPromise w) as <-.
  { subst w3. destruct (thrown r); [|done].
    by pose proof (ledger_settle (length (promises w)) (Rejected e)
                     (request RequestExit r w1)) as [= -> _ _ _]. }
  unfold then_fireExit.
  by destruct (promises (newPromise w3) !! length (promises w)) as [[]|].
Qed.

Lemma persist_exitPromise r w :
  exitPromise (persist r w).2 = exitPromise w.
Proof.
  unfold persist. destruct (persistPromise w); [done|]. simpl.
  set (w1 := set_module_persist _ _).
  destruct (request_frame PackFsToBundle r w1 eq_refl)
    as ([= _ Hl _ _] & _).
  destruct (thrown r); [|done].
  by pose proof (ledger_settle (length (promises w)) (Rejected e)
                   (request PackFsToBundle r w1)) as [= _ -> _ _].
Qed.


Lemma step_exitPromise a w d :
  exitPromise w = Some d → exitPromise (step a w) = Some d.
Proof.
  intros Hd. destruct a as [c now|r|r|c|]; simpl.
  - by pose proof (ledger_issue (c, now) w) as [= _ -> _ _].
  - by rewrite persist_exitPromise.
  - by rewrite (exit_memo w d).
  - by pose proof (ledger_invoke c w) as [= _ -> _ _].
  - by pose proof (ledger_runMicrotask w) as [= _ -> _ _].
Qed.


Lemma run_exitPromise acts w d :
  exitPromise w = Some d → exitPromise (run acts w) = Some d.
Proof.
  revert w. induction acts as [|a acts IH]; intros w Hd; [done|].
  simpl. by apply IH, step_exitPromise.
Qed.

Lemma count_pos_elem_of (f : obs → bool) (tr : list obs) :
  (0 < count f tr)%nat → ∃ o, o ∈ tr ∧ f o = true.
Proof.
  unfold count. induction tr as [|o tr IH]; simpl; [lia|].
  destruct (f o) eqn:Hf.
  - intros _. exists o. split; [by left|done].
  - intros Hpos. destruct (IH Hpos) as (o' & ? & ?).
    exists o'. split; [by right|done].
Qed.
(** *** Settled promises do not change *)

Lemma settle_length p s w :
  length (promises (settle p s w)) = length (promises w).
Proof.
  unfold settle. destruct (promises w !! p) as [[]|]; try done.
  simpl. apply length_insert.
Qed.

Lemma settle_lookup_ne p s w p' :
  p ≠ p' → promises (settle p s w) !! p' = promises w !! p'.
Proof.
  intros Hne. unfold settle. destruct (promises w !! p) as [[]|]; try done.
  simpl. by apply list_lookup_insert_ne.
Qed.

Lemma settle_pending p s w :
  promises w !! p = Some Pending → promises (settle p s w) !! p = Some s.
Proof.
  intros Hp. unfold settle. rewrite Hp. simpl.
  apply list_lookup_insert_eq. by eapply lookup_lt_Some.
Qed.

Lemma settle_stays p s w p' s' :
  promises w !! p' = Some s' → s' ≠ Pending →
  promises (settle p s w) !! p' = Some s'.
Proof.
  intros Hp' Hs'. destruct (decide (p = p')) as [->|Hne].
  - unfold settle. rewrite Hp'. by destruct s'.
  - by rewrite settle_lookup_ne.
Qed.

Lemma issue_promises cmd w : promises (issue cmd w) = promises w.
Proof.
  assert (∀ k p t w', promises (addKey k p t w') = promises w') as Hadd.
  { intros. unfold addKey. by case_bool_decide. }
  assert (∀ ks p t w', promises (forEach_addKey ks p t w') = promises w')
    as Hfor.
  { induction ks as [|k ks IH]; intros p t w'; [done|].
    unfold forEach_addKey in *. simpl. by rewrite IH, Hadd. }
  destruct cmd as [[k p|ks|x y|b p] now]; unfold issue; simpl; try done.
  - apply Hadd.
  - unfold simulateKeyPress. by rewrite !Hfor.
Qed.

(** A callback leaves alone every promise but the one its slot names. *)
Lemma invoke_lookup_other p c w :
  (c = CallExit → module_exit w ≠ Some p) →
  (∀ a, c = CallPersist a → module_persist w ≠ Some p) →
  promises (invoke c w) !! p = promises w !! p.
Proof.
  intros He Hp. destruct c as [a|a|a|a|a|a|]; simpl;
    unfold startupErrFn; try done.
  - by destruct (module_err w).
  - by destruct (module_err w).
  - destruct (module_persist w) as [p'|] eqn:Hm; [|done]. simpl.
    rewrite settle_lookup_ne; [done|]. intros ->. by apply (Hp a).
  - destruct (module_exit w) as [q|] eqn:Hm; [|done].
    rewrite settle_lookup_ne; [done|]. intros ->. by apply He.
Qed.

Lemma invoke_stays c w p s :
  promises w !! p = Some s → s ≠ Pending →
  promises (invoke c w) !! p = Some s.
Proof.
  intros Hp Hs. destruct c as [a|a|a|a|a|a|]; simpl;
    unfold startupErrFn; try done.
  - by destruct (module_err w).
  - by destruct (module_err w).
  - destruct (module_persist w); [|done]. simpl. by apply settle_stays.
  - destruct (module_exit w); [|done]. by apply settle_stays.
Qed.

Lemma invokes_stay cs w p s :
  promises w !! p = Some s → s ≠ Pending →
  promises (foldl (fun acc c => invoke c acc) w cs) !! p = Some s.
Proof.
  revert w. induction cs as [|c cs IH]; intros w Hp Hs; [done|].
  simpl. apply IH; [|done]. by apply invoke_stays.
Qed.

Lemma runMicrotask_stays w p s :
  promises w !! p = Some s → s ≠ Pending →
  promises (runMicrotask w) !! p = Some s.
Proof.
  intros Hp Hs. unfold runMicrotask.
  destruct (microtasks w) as [|j rest]; [done|]. unfold runJob, fireExit. simpl.
  destruct (promises w !! j.1) as [[]|]; try done; by apply settle_stays.
Qed.





(** *** The exit slot, once filled, keeps its promise *)

Lemma persist_module_exit r w : module_exit (persist r w).2 = module_exit w.
Proof.
  unfold persist. destruct (persistPromise w); [done|]. simpl.
  set (w1 := set_module_persist _ _).
  destruct (request_frame PackFsToBundle r w1 eq_refl)
    as ([= _ _ Hl _] & _).
  destruct (thrown r); [|done].
  by pose proof (ledger_settle (length (promises w)) (Rejected e)
                   (request PackFsToBundle r w1)) as [= _ _ -> _].
Qed.

Lemma step_module_exit a w d :
  exitPromise w = Some d → module_exit (step a w) = module_exit w.
Proof.
  intros Hd. destruct a as [c now|r|r|c|]; simpl.
  - by pose proof (ledger_issue (c, now) w) as [= _ _ -> _].
  - by rewrite persist_module_exit.
  - by rewrite (exit_memo w d).
  - by pose proof (ledger_invoke c w) as [= _ _ -> _].
  - by pose proof (ledger_runMicrotask w) as [= _ _ -> _].
Qed.

Lemma run_module_exit acts w d :
  exitPromise w = Some d → module_exit (run acts w) = module_exit w.
Proof.
  revert w. induction acts as [|a acts IH]; intros w Hd; [done|].
  simpl. rewrite IH by by apply step_exitPromise.
  by eapply step_module_exit.
Qed.
(** *** What a request leaves pending *)

Lemma module_persist_invoke_ne c w :
  (∀ a, c ≠ CallPersist a) → module_persist (invoke c w) = module_persist w.
Proof.
  intros Hc. destruct c as [a|a|a|a|a|a|]; simpl; unfold startupErrFn;
    try done.
  - by destruct (module_err w).
  - by destruct (module_err w).
  - by destruct (Hc a).
  - destruct (module_exit w); [|done]. by rewrite module_persist_settle.
Qed.

Lemma module_exit_invoke c w : module_exit (invoke c w) = module_exit w.
Proof. by pose proof (ledger_invoke c w) as [= _ _ -> _]. Qed.


Lemma invokes_keep_exit cs w q :
  module_persist w ≠ Some q → promises w !! q = Some Pending →
  CallExit ∉ cs →
  promises (foldl (fun acc c => invoke c acc) w cs) !! q = Some Pending.
Proof.
  revert w. induction cs as [|c cs IH]; intros w Hm Hq Hcs; [done|].
  simpl. assert (c ≠ CallExit) as Hc by (intros ->; apply Hcs; by left).
  apply IH.
  - destruct (module_persist_invoke c w) as [->| ->]; done.
  - rewrite invoke_lookup_other; [done|done|by intros a _].
  - intros Hin. apply Hcs. by right.
Qed.

Lemma invokes_confirm cs w q :
  module_exit w = Some q → module_persist w ≠ Some q →
  promises w !! q = Some Pending → CallExit ∈ cs →
  ∃ v, promises (foldl (fun acc c => invoke c acc) w cs) !! q
       = Some (Fulfilled v).
Proof.
  revert w. induction cs as [|c cs IH]; intros w He Hm Hq Hcs;
    [by apply elem_of_nil in Hcs|].
  simpl. assert (c = CallExit ∨ c ≠ CallExit) as [->|Hc]
    by (destruct c; (by left) || (by right)).
  - exists VUndefined. apply invokes_stay; [|done]. simpl. rewrite He.
    apply settle_pending. done.
  - apply IH.
    + by rewrite module_exit_invoke.
    + destruct (module_persist_invoke c w) as [->| ->]; done.
    + rewrite invoke_lookup_other; [done|done|by intros a _].
    + apply elem_of_cons in Hcs as [Heq|]; [by destruct Hc|done].
Qed.

(** *** [persist()] and [exit()] on an interface that has none yet *)


Lemma exit_first r w :
  Inv w → exitPromise w = None →
  let q := length (promises w) in
  let d := S q in
  let w' := (exit r w).2 in
  (exit r w).1 = d ∧ module_exit w' = Some q
  ∧ promises w' !! d = Some Pending
  ∧ (CallExit ∉ callbacks r →
       promises w' !! q
       = Some (match thrown r with Some e => Rejected e | None => Pending end))
  ∧ (CallExit ∈ callbacks r → ∃ v, promises w' !! q = Some (Fulfilled v))
  ∧ (promises w' !! q = Some Pending →
       reactions w' = [(q, d)] ∧ microtasks w' = [])
  ∧ (promises w' !! q ≠ Some Pending →
       reactions w' = [] ∧ microtasks w' = [(q, d)]).
Proof.
  intros Hinv Hd q d w'. subst w'. unfold exit. rewrite Hd.
  cbn [fst snd]. fold q.
  pose proof (inv_weak w Hinv) as Hw.
  pose proof (inv_exit_slot w Hinv Hd) as Hme.
  set (w1 := set_module_exit (Some q) (newPromise w)).
  set (w2 := request RequestExit r w1).
  set (w3 := match thrown r with
             | Some e => settle q (Rejected e) w2
             | None => w2
             end).
  assert (module_persist (emit RequestExit w1) ≠ Some q) as Hmp.
  { simpl. intros Hp. destruct (wi_persist w Hw q Hp) as (? & _). lia. }
  assert (promises (emit RequestExit w1) !! q = Some Pending) as Hq1.
  { simpl. rewrite lookup_app_r by done. by rewrite Nat.sub_diag. }
  assert (WeakInv w2) as Hw2
    by by apply WeakInv_request, WeakInv_install_exit.
  assert (WeakInv w3) as Hw3.
  { subst w3. destruct (thrown r); [|done]. by apply WeakInv_settle. }
  destruct (request_frame RequestExit r w1 eq_refl)
    as ([= _ Hd2 He2 _] & _ & Hlen2). fold w2 in Hd2, He2, Hlen2.
  assert (ledger w3 = ledger w2) as [= _ Hd3 He3 _].
  { subst w3. destruct (thrown r); [apply ledger_settle|done]. }
  assert (length (promises w3) = d) as Hlen3.
  { subst w3. destruct (thrown r); [rewrite settle_length|];
      rewrite Hlen2; simpl; rewrite length_app; simpl; lia. }
  assert (reactions w3 = [] ∧ microtasks w3 = []) as [Hr3 Hq3].
  { destruct (reactions w3 ++ microtasks w3) as [|j l] eqn:Hl.
    - by apply app_eq_nil in Hl.
    - destruct (wi_jobs w3 Hw3 q j) as [_ ?];
        [by rewrite He3, He2|rewrite Hl; set_solver|].
      rewrite Hd3, Hd2 in *. simpl in *. congruence. }
  assert (promises (then_fireExit q w3) !! d = Some Pending
          ∧ promises (then_fireExit q w3) !! q = promises w3 !! q
          ∧ module_exit (then_fireExit q w3) = Some q
          ∧ (promises w3 !! q = Some Pending →
               reactions (then_fireExit q w3) = [(q, d)]
               ∧ microtasks (then_fireExit q w3) = [])
          ∧ (promises w3 !! q ≠ Some Pending →
               reactions (then_fireExit q w3) = []
               ∧ microtasks (then_fireExit q w3) = [(q, d)]))
    as (Hthen_d & Hthen_q & Hthen_e & Hthen_p & Hthen_s).
  { assert (is_Some (promises w3 !! q)) as [s Hs]
      by (apply lookup_lt_is_Some; lia).
    assert (promises (newPromise w3) !! q = Some s) as Hs'
      by by apply lookup_app_l_Some.
    assert (promises (newPromise w3) !! d = Some Pending) as Hd'.
    { simpl. rewrite lookup_app_r by lia. by rewrite Hlen3, Nat.sub_diag. }
    unfold then_fireExit. rewrite Hs', Hlen3, Hs.
    destruct s; simpl; rewrite ?Hr3, ?Hq3, ?He3, ?He2;
      split_and!; done. }
  rewrite Hlen3. unfold set_exitPromise.
  cbn [module_exit promises reactions microtasks].
  rewrite Hthen_q. split_and!; [done|done|done| | |done|done].
  - intros Hcs.
    pose proof (invokes_keep_exit (callbacks r) _ q Hmp Hq1 Hcs) as Hq2.
    fold (request RequestExit r w1) in Hq2. fold w2 in Hq2.
    subst w3. destruct (thrown r); [by apply settle_pending|done].
  - intros Hcs.
    destruct (invokes_confirm (callbacks r) (emit RequestExit w1) q
                eq_refl Hmp Hq1 Hcs) as [v Hv].
    fold (request RequestExit r w1) in Hv. fold w2 in Hv.
    exists v. subst w3. destruct (thrown r); [by apply settle_stays|done].
Qed.
End invariants.

(** ** Lifecycle controller *)

(** The exit in the order it is meant to happen: request, confirmation by
    the module, Exit event, fulfilment of the returned promise. *)
Example exit_confirmed_later :
  let w := run (H := joinArgs)
             [Exit (mkReply [] None); ModuleCalls CallExit; Microtask]
             (newInstance 0) in
  exitPromise w = Some 1%nat
  ∧ trace w = [RequestExit; ExitCallback; Settled 0 (Fulfilled VUndefined);
               FireExit; Settled 1 (Fulfilled VUndefined)].
Proof. by vm_compute. Qed.

(** C4. At every moment of every run of an interface: an Exit event on the
    Event Bus has the module's termination callback before it, and the
    fulfilment of the promise that [exit()] returns has an Exit event before
    it; so when that promise is fulfilled, the callback has fired, then the
    Exit event, in this order. *)
Theorem exit_event_after_termination `{Serializer} (start : Z)
  (acts : list action) :
  let w := run acts (newInstance start) in
  precedes (eq ExitCallback) (eq FireExit) (trace w)
  ∧ ∀ d r, exitPromise w = Some d →
      exit r w = (d, w)
      ∧ precedes (eq FireExit) (fun o => ∃ v, o = Settled d (Fulfilled v))
          (trace w)
      ∧ ∀ v, promises w !! d = Some (Fulfilled v) →
          Settled d (Fulfilled v) ∈ trace w
          ∧ FireExit ∈ trace w ∧ ExitCallback ∈ trace w.
Proof.
  intros w.
  assert (WeakInv w) as Hw by apply inv_weak, Inv_run, Inv_newInstance.
  split; [apply (wi_order1 w Hw)|].
  intros d r Hd. split_and!; [by apply exit_memo|by apply (wi_order2 w Hw)|].
  intros v Hv.
  assert (Settled d (Fulfilled v) ∈ trace w) as Hs
    by by apply (wi_recorded w Hw).
  destruct (precedes_elem_of _ _ _ _ (wi_order2 w Hw d Hd) Hs)
    as (o & Hfire & <-); [by eexists|].
  destruct (precedes_elem_of _ _ _ _ (wi_order1 w Hw) Hfire eq_refl)
    as (o & Hcb & <-).
  done.
Qed.


(** After a throw alone the callback stays on the module, and the module may
    still invoke it. *)
Example persist_callback_after_throw :
  let w := run (H := joinArgs)
             [Persist justThrow; ModuleCalls (CallPersist [Byte.x01])]
             (newInstance 0) in
  trace w = [PackFsToBundle; ConsoleError ["abort"];
             FireMessage ErrorLevel ["abort"];
             Settled 0 (Rejected (ModuleError 3));
             PersistCallback [Byte.x01]]
  ∧ promises w = [Rejected (ModuleError 3)].
Proof. by vm_compute. Qed.



(** C10, as stated, fails: when the module confirms termination and only
    then throws, the inner promise is already fulfilled, the throw is lost,
    and the Exit event fires. *)
Lemma exit_throw_after_confirmation :
  ¬ exit_throw_claim (H := joinArgs) confirmThenThrow (newInstance 0).
Proof.
  intros Hclaim.
  destruct (Hclaim (ModuleError 3) eq_refl [Microtask] confirmThenThrow)
    as [Hfire _].
  apply Hfire. vm_compute. apply list_elem_of_In. simpl. tauto.
Qed.

(** ** The event loop empties its queue *)

Section event_loop.
Implicit Types (w : World).

Lemma settle_jobs p s w :
  (length (microtasks (settle p s w)) + length (reactions (settle p s w))
   = length (microtasks w) + length (reactions w))%nat.
Proof.
  unfold settle. destruct (promises w !! p) as [[]|]; try done. simpl.
  rewrite length_app.
  assert (length (filter (fun r : nat * nat => r.1 = p) (reactions w))
          + length (filter (fun r : nat * nat => r.1 ≠ p) (reactions w))
          = length (reactions w))%nat as Hsplit.
  { induction (reactions w) as [|r l IH]; [done|].
    rewrite !filter_cons. destruct (decide (r.1 = p)) as [Heq|Hne].
    - rewrite decide_False by (by intros ?). simpl. lia.
    - rewrite decide_True by done. simpl. lia. }
  lia.
Qed.

Lemma runMicrotask_jobs j rest w :
  microtasks w = j :: rest →
  (length (microtasks (runMicrotask w))
   + length (reactions (runMicrotask w))
   = length rest + length (reactions w))%nat.
Proof.
  intros Hq. unfold runMicrotask. rewrite Hq. unfold runJob, fireExit.
  simpl. destruct (promises w !! j.1) as [[]|]; try done;
    by rewrite settle_jobs.
Qed.

Lemma drain_empties n w :
  (length (microtasks w) + length (reactions w) ≤ n)%nat →
  microtasks (drain n w) = [].
Proof.
  revert w. induction n as [|n IH]; intros w Hn.
  - simpl. destruct (microtasks w); [done|]. simpl in Hn. lia.
  - simpl. destruct (microtasks w) as [|j rest] eqn:Hq; [done|].
    apply IH. rewrite (runMicrotask_jobs j rest w Hq). simpl in Hn. lia.
Qed.

(** The rounds [runMicrotasks] allows are enough. *)
Lemma runMicrotasks_empties w : microtasks (runMicrotasks w) = [].
Proof. by apply drain_empties. Qed.
End event_loop.

(** ** Startup handshake *)

Section handshake.
Context `{Serializer}.
Implicit Types (w : World) (c : callback) (cs : list callback).

Lemma string_length_app (s t : string) :
  String.length (s +:+ t) = (String.length s + String.length t)%nat.
Proof.
  induction s as [|a s IH]; [done|].
  change (S (String.length (s +:+ t))
          = S (String.length s + String.length t)). by rewrite IH.
Qed.

Lemma logText_snoc frags args :
  logText (frags ++ [args])
  = logText frags +:+ JSON_stringify args +:+ newline.
Proof.
  induction frags as [|a frags IH].
  - cbn [app logText]. rewrite string_app_nil_r. reflexivity.
  - cbn [app logText]. rewrite IH. symmetry. apply string_app_assoc.
Qed.

Lemma logText_nonempty frags :
  frags ≠ [] → (0 < String.length (logText frags))%nat.
Proof.
  destruct frags as [|a frags]; [done|]. intros _. simpl.
  rewrite !string_length_app. simpl. lia.
Qed.

(** *** What leaves the journal alone *)

Lemma journal_emit o w : diagnostic o = None → journal (emit o w) = journal w.
Proof.
  intros Ho. unfold journal, diagnostics. simpl. rewrite omap_app. simpl.
  by rewrite Ho, app_nil_r.
Qed.

Lemma journal_settle p s w : journal (settle p s w) = journal w.
Proof.
  unfold settle. destruct (promises w !! p) as [[]|]; try done.
  unfold journal, diagnostics. simpl. rewrite omap_app. simpl.
  by rewrite app_nil_r.
Qed.

Lemma journal_runMicrotask w : journal (runMicrotask w) = journal w.
Proof.
  unfold runMicrotask. destruct (microtasks w) as [|j rest]; [done|].
  unfold runJob, fireExit. simpl. destruct (promises w !! j.1) as [[]|]; try done.
  - by rewrite journal_settle, journal_emit.
  - by rewrite journal_settle.
Qed.

Lemma journal_drain n w : journal (drain n w) = journal w.
Proof.
  revert w. induction n as [|n IH]; intros w; [done|]. simpl.
  destruct (microtasks w) eqn:Hq; [done|].
  by rewrite IH, journal_runMicrotask.
Qed.

Lemma LogInv_journal w w' : journal w' = journal w → LogInv w → LogInv w'.
Proof. intros [= Hs Hl Hd] [Hsink Hlog]. split; congruence. Qed.

Lemma diagnostics_journal w w' :
  journal w' = journal w → diagnostics (trace w') = diagnostics (trace w).
Proof. by intros [= _ _ ->]. Qed.

(** *** What the callbacks add to it *)

Lemma invoke_journal c w :
  LogInv w →
  LogInv (invoke c w)
  ∧ diagnostics (trace (invoke c w))
    = diagnostics (trace w) ++ omap errArgs [c].
Proof.
  intros [Hsink Hlog].
  assert (∀ w', journal w' = journal w →
            LogInv w'
            ∧ diagnostics (trace w') = diagnostics (trace w) ++ [])
    as Hquiet.
  { intros w' Hj. split; [by eapply LogInv_journal|].
    by rewrite app_nil_r, (diagnostics_journal w w'). }
  assert (∀ a, LogInv (startupErrFn a w)
               ∧ diagnostics (trace (startupErrFn a w))
                 = diagnostics (trace w) ++ [a]) as Herr.
  { intros a. unfold startupErrFn, fireMessage, LogInv, diagnostics.
    simpl. rewrite !omap_app. simpl. rewrite app_nil_r.
    split_and!; [done| |done].
    fold (diagnostics (trace w)). by rewrite logText_snoc, Hlog. }
  destruct c as [a|a|a|a|a|a|]; simpl;
    unfold logFn, warnFn, fireMessage;
    try (by apply Hquiet, journal_emit).
  - rewrite Hsink. apply Herr.
  - rewrite Hsink. apply Herr.
  - destruct (module_persist w); [|by apply Hquiet]. apply Hquiet.
    transitivity (journal (settle n (Fulfilled (VArchive a))
                             (emit (PersistCallback a) w))); [done|].
    by rewrite journal_settle, journal_emit.
  - destruct (module_exit w); [|by apply Hquiet]. apply Hquiet.
    by rewrite journal_settle, journal_emit.
Qed.

Lemma invokes_journal cs w :
  LogInv w →
  LogInv (foldl (fun acc c => invoke c acc) w cs)
  ∧ diagnostics (trace (foldl (fun acc c => invoke c acc) w cs))
    = diagnostics (trace w) ++ omap errArgs cs.
Proof.
  revert w. induction cs as [|c cs IH]; intros w Hlog; simpl.
  - by rewrite app_nil_r.
  - destruct (invoke_journal c w Hlog) as [Hlog' Hd'].
    destruct (IH _ Hlog') as [Hlog'' Hd'']. split; [done|].
    rewrite Hd'', Hd', <-app_assoc. f_equal. simpl.
    by destruct (errArgs c).
Qed.

Lemma request_journal o r w :
  diagnostic o = None → LogInv w →
  LogInv (request o r w)
  ∧ diagnostics (trace (request o r w))
    = diagnostics (trace w) ++ omap errArgs (callbacks r).
Proof.
  intros Ho Hlog. unfold request.
  pose proof (journal_emit o w Ho) as Hj.
  rewrite <-(diagnostics_journal _ _ Hj).
  apply invokes_journal. by eapply LogInv_journal.
Qed.

Lemma exit_journal r w :
  exitPromise w = None → LogInv w →
  LogInv (exit r w).2
  ∧ diagnostics (trace (exit r w).2)
    = diagnostics (trace w) ++ omap errArgs (callbacks r).
Proof.
  intros Hd Hlog. unfold exit. rewrite Hd. cbn [snd].
  set (w1 := set_module_exit _ _).
  destruct (request_journal RequestExit r w1 eq_refl) as [Hlog2 Hd2];
    [done|].
  set (w3 := match thrown r with Some e => _ | None => _ end).
  assert (journal w3 = journal (request RequestExit r w1)) as Hj3.
  { subst w3. destruct (thrown r); [apply journal_settle|done]. }
  assert (journal (set_exitPromise (Some (length (promises w3)))
                     (then_fireExit (length (promises w)) w3))
          = journal w3) as Hj.
  { unfold then_fireExit.
    by destruct (promises (newPromise w3) !! length (promises w))
      as [[]|]. }
  split.
  - apply (LogInv_journal (request RequestExit r w1)); [|done].
    by rewrite Hj, Hj3.
  - rewrite (diagnostics_journal _ _ Hj), (diagnostics_journal _ _ Hj3).
    exact Hd2.
Qed.
(** *** The invariant along the handshake *)

Lemma Inv_boot : Inv boot.
Proof. exact (Inv_newInstance 0). Qed.

Lemma Inv_invokes cs w :
  Inv w → Inv (foldl (fun acc c => invoke c acc) w cs).
Proof.
  revert w. induction cs as [|c cs IH]; intros w Hinv; [done|].
  simpl. apply IH. exact (Inv_step (ModuleCalls c) w Hinv).
Qed.

Lemma ledger_invokes cs w :
  ledger (foldl (fun acc c => invoke c acc) w cs) = ledger w.
Proof.
  revert w. induction cs as [|c cs IH]; intros w; [done|].
  simpl. by rewrite IH, ledger_invoke.
Qed.

Lemma Inv_construct t w :
  persistPromise w = None → exitPromise w = None →
  Inv w → Inv (construct t w).
Proof.
  intros Hp Hd Hinv.
  assert (construct t w = set_keyMatrix ∅ (set_startedAt t w)) as ->.
  { destruct w. simpl in *. by subst. }
  apply (Inv_frame w); [|done|by left|done].
  destruct Hinv as [[] _ _ _ _]. by constructor.
Qed.

Lemma Inv_request o r w :
  hostRequest o = true → isPackFsToBundle o = false →
  isRequestExit o = false → Inv w → Inv (request o r w).
Proof.
  intros Ho Hpk Hex [Hw Hes Hps Hcp Hce].
  destruct (request_frame o r w Ho) as ([= Hl1 Hl2 Hl3 Hl4] & Hmp & _).
  constructor.
  - by apply WeakInv_request.
  - by rewrite Hl2, Hl3.
  - rewrite Hl1. intros Hn. destruct Hmp as [->| ->]; auto.
  - rewrite Hl1, <-Hcp.
    rewrite (count_filter_hostRequest isPackFsToBundle) by by intros [].
    rewrite Hl4, count_snoc, Hpk.
    rewrite <-(count_filter_hostRequest isPackFsToBundle) by by intros [].
    lia.
  - rewrite Hl2, <-Hce.
    rewrite (count_filter_hostRequest isRequestExit) by by intros [].
    rewrite Hl4, count_snoc, Hex.
    rewrite <-(count_filter_hostRequest isRequestExit) by by intros [].
    lia.
Qed.

Lemma Inv_drain n w : Inv w → Inv (drain n w).
Proof.
  revert w. induction n as [|n IH]; intros w Hinv; [done|]. simpl.
  destruct (microtasks w) eqn:Hq; [done|]. apply IH.
  apply (Inv_frame w); [|apply ledger_runMicrotask| |done].
  - apply WeakInv_runMicrotask, Hinv.
  - left. apply module_persist_runMicrotask.
Qed.

(** *** Waiting for the exit *)

Lemma runMicrotasks_Armed q d w : Armed q d w → runMicrotasks w = w.
Proof.
  intros [_ _ _ _ Hr Hq]. unfold runMicrotasks. rewrite Hr, Hq. simpl.
  by rewrite Hq.
Qed.

Lemma invoke_Armed q d c w :
  c ≠ CallExit → Armed q d w → Armed q d (invoke c w).
Proof.
  intros Hc [Hp He Hq Hd Hr Hm].
  destruct c as [a|a|a|a|a|a|]; simpl; unfold startupErrFn;
    try (by constructor).
  - by destruct (module_err w); constructor.
  - by destruct (module_err w); constructor.
  - rewrite Hp. by constructor.
Qed.

Lemma invoke_Armed_exit q d w :
  q ≠ d → Armed q d w → Confirmed q d (invoke CallExit w).
Proof.
  intros Hne [Hp He Hq Hd Hr Hm]. simpl. rewrite He. unfold settle.
  simpl. rewrite Hq, Hr, Hm. constructor; simpl.
  - exists VUndefined. apply list_lookup_insert_eq.
    by eapply lookup_lt_Some.
  - by rewrite list_lookup_insert_ne.
  - rewrite filter_cons, decide_False; [done|]. simpl. by intros [].
  - rewrite filter_cons, decide_True; done.
Qed.

Lemma runMicrotasks_Confirmed q d w :
  Confirmed q d w →
  runMicrotasks w = runMicrotask w
  ∧ promises (runMicrotasks w) !! d = Some (Fulfilled VUndefined).
Proof.
  intros [[v Hq] Hd Hr Hm].
  assert (runMicrotasks w = runMicrotask w) as ->.
  { unfold runMicrotasks. rewrite Hr, Hm. simpl. by rewrite Hm. }
  split; [done|]. unfold runMicrotask. rewrite Hm. unfold runJob, fireExit. simpl.
  rewrite Hq. by apply settle_pending.
Qed.

Lemma awaitSettled_settled p tasks w v :
  promises (runMicrotasks w) !! p = Some (Fulfilled v) →
  awaitSettled p tasks w = runMicrotasks w.
Proof. intros Hp. destruct tasks; simpl; by rewrite Hp. Qed.

(** While the exit is armed, the wait consumes the module's tasks up to
    the first confirmation, and ends with the promise fulfilled. *)
Lemma awaitSettled_Armed q d tasks w :
  q ≠ d → Armed q d w → CallExit ∈ tasks →
  ∃ consumed,
    consumed `prefix_of` tasks
    ∧ awaitSettled d tasks w
      = runMicrotask (foldl (fun acc c => invoke c acc) w consumed)
    ∧ promises (awaitSettled d tasks w) !! d = Some (Fulfilled VUndefined).
Proof.
  intros Hne. revert w. induction tasks as [|c tasks IH];
    intros w Harmed Hin; [by apply elem_of_nil in Hin|].
  simpl. rewrite (runMicrotasks_Armed q d w Harmed).
  rewrite (armed_derived q d w Harmed).
  assert (c = CallExit ∨ c ≠ CallExit) as [->|Hc]
    by (destruct c; (by left) || (by right)).
  - pose proof (invoke_Armed_exit q d w Hne Harmed) as Hconf.
    destruct (runMicrotasks_Confirmed q d _ Hconf) as [Hrun Hd].
    rewrite (awaitSettled_settled d tasks _ _ Hd).
    exists [CallExit]. split_and!; [|by rewrite Hrun|done].
    by apply prefix_cons, prefix_nil.
  - destruct (IH (invoke c w)) as (consumed & Hpre & Heq & Hd).
    + by apply invoke_Armed.
    + apply elem_of_cons in Hin as [Heq|]; [by destruct Hc|done].
    + exists (c :: consumed). split_and!; [by apply prefix_cons|done..].
Qed.
Lemma ledger_drain n w : ledger (drain n w) = ledger w.
Proof.
  revert w. induction n as [|n IH]; intros w; [done|]. simpl.
  destruct (microtasks w) eqn:Hq; [done|].
  by rewrite IH, ledger_runMicrotask.
Qed.

Lemma CallExit_dec cs : CallExit ∈ cs ∨ CallExit ∉ cs.
Proof.
  induction cs as [|c cs [IH|IH]].
  - right. by intros ?%elem_of_nil.
  - left. by right.
  - assert (c = CallExit ∨ c ≠ CallExit) as [->|Hc]
      by (destruct c; (by left) || (by right)).
    + left. by left.
    + right. intros [Heq|Hin]%elem_of_cons; [by destruct Hc|done].
Qed.

Lemma requested_elem_of w :
  Inv w → is_Some (exitPromise w) → RequestExit ∈ trace w.
Proof.
  intros Hinv [d Hd]. pose proof (inv_exits w Hinv) as Hc.
  rewrite Hd in Hc.
  destruct (count_pos_elem_of isRequestExit (trace w)) as (o & Hin & Ho);
    [lia|]. by destruct o.
Qed.

(** The store when [DosDirect] reads the log: the invariants hold, nothing
    was asked of the lifecycle yet, and the log is the text of the early
    diagnostics. *)
Lemma handshake_before_check env :
  let w3 := request RunRuntime (runRuntime env)
              (request CallMain (callMain env)
                 (construct (constructedAt env)
                    (foldl (fun acc c => invoke c acc) boot
                       (callbacks (instantiate env))))) in
  Inv w3 ∧ LogInv w3
  ∧ persistPromise w3 = None ∧ exitPromise w3 = None
  ∧ diagnostics (trace w3) = earlyDiagnostics env.
Proof.
  set (w1 := foldl _ boot _).
  set (w1' := construct (constructedAt env) w1).
  set (w2 := request CallMain (callMain env) w1').
  intros w3.
  assert (LogInv boot) as Hlog0 by done.
  destruct (invokes_journal (callbacks (instantiate env)) boot Hlog0)
    as [Hlog1 Hd1]. fold w1 in Hlog1, Hd1.
  pose proof (ledger_invokes (callbacks (instantiate env)) boot)
    as [= Hp1 He1 _ _]. fold w1 in Hp1, He1.
  assert (Inv w1') as Hinv1
    by by apply Inv_construct, Inv_invokes, Inv_boot.
  assert (LogInv w1') as Hlog1' by by apply (LogInv_journal w1).
  destruct (request_journal CallMain (callMain env) w1' eq_refl Hlog1')
    as [Hlog2 Hd2]. fold w2 in Hlog2, Hd2.
  destruct (request_journal RunRuntime (runRuntime env) w2 eq_refl Hlog2)
    as [Hlog3 Hd3]. fold w3 in Hlog3, Hd3.
  destruct (request_frame CallMain (callMain env) w1' eq_refl)
    as ([= Hp2 He2 _ _] & _). fold w2 in Hp2, He2.
  destruct (request_frame RunRuntime (runRuntime env) w2 eq_refl)
    as ([= Hp3 He3 _ _] & _). fold w3 in Hp3, He3.
  split_and!.
  - by do 2 (apply Inv_request; [done..|]).
  - done.
  - by rewrite Hp3, Hp2.
  - by rewrite He3, He2.
  - rewrite Hd3, Hd2.
    change (diagnostics (trace w1')) with (diagnostics (trace w1)).
    rewrite Hd1. unfold earlyDiagnostics. rewrite !omap_app.
    change (diagnostics (trace boot)) with (@nil (list string)).
    by rewrite app_nil_l, <-app_assoc.
Qed.
End handshake.

(** C2, as stated, fails: the module prints a diagnostic while it boots and
    its [_requestExit] throws; [DosDirect] then rejects with what
    [_requestExit] threw, and the log is lost.  It fails as well when
    [callMain] throws after the diagnostic: the interface is never made, no
    exit is requested, and [DosDirect] rejects with what [callMain] threw. *)
Lemma handshake_rejection_may_lose_the_log :
  ¬ handshake_claim (H := joinArgs) failedBootBrokenExit
  ∧ ¬ handshake_claim (H := joinArgs) failedBootThrowingMain.
Proof.
  split; intros [Hclaim _]; destruct Hclaim as (w & Hw & _); try done;
    vm_compute in Hw; discriminate Hw.
Qed.

(** The two ways a handshake is meant to end. *)
Example handshake_failed_boot :
  match DosDirect (H := joinArgs) failedBoot with
  | Threw (StartupError message) w =>
      message = logText (H := joinArgs) [["no disk"]; ["bad"; "config"]]
      ∧ diagnostics (trace w) = [["no disk"]; ["bad"; "config"]]
      ∧ count isRequestExit (trace w) = 1%nat
  | _ => False
  end.
Proof. by vm_compute. Qed.

Example handshake_clean_boot :
  match DosDirect (H := joinArgs) cleanBoot with
  | Returned w =>
      module_err w = ErrFn ∧ startupErrorLog w = ""
      ∧ count isRequestExit (trace w) = 0%nat
  | _ => False
  end.
Proof. by vm_compute. Qed.

(** C2 (amended). Provided the module is instantiated and [callMain]
    returns: if diagnostic output reached the Startup Error Log before the
    readiness check and the module confirms the exit that is then requested,
    [DosDirect] requests exit on the new interface and rejects with an error
    whose message is the serialised fragments, in emission order, of every
    diagnostic emitted until then, and returns no interface; if none did,
    the error sink is swapped for the forwarding one and the interface is
    returned, after which a diagnostic is forwarded and no longer logged. *)
Theorem handshake_outcome `{Serializer} (env : StartupEnv) :
  thrown (instantiate env) = None → thrown (callMain env) = None →
  (earlyDiagnostics env ≠ [] → exitConfirmed env →
     ∃ w consumed,
       consumed `prefix_of` afterwards env
       ∧ DosDirect env
         = Threw (StartupError (logText (diagnostics (trace w)))) w
       ∧ diagnostics (trace w)
         = earlyDiagnostics env
           ++ omap errArgs (callbacks (requestExit env) ++ consumed)
       ∧ RequestExit ∈ trace w)
  ∧ (earlyDiagnostics env = [] →
     ∃ w, DosDirect env = Returned w
          ∧ module_err w = ErrFn ∧ startupErrorLog w = ""
          ∧ ∀ args,
              startupErrorLog (invoke (CallPrintErr args) w) = ""
              ∧ trace (invoke (CallPrintErr args) w)
                = trace w ++ [FireMessage ErrorLevel args]).
Proof.
  intros Hinst Hmain.
  destruct (handshake_before_check env) as (Hinv & Hlog & Hpp & Hep & Hdiag).
  unfold DosDirect. rewrite Hinst, Hmain.
  set (w3 := request RunRuntime _ _) in *.
  pose proof Hlog as Hlog3.
  destruct Hlog as [Hsink Hlog]. rewrite Hdiag in Hlog.
  split.
  - intros Hne Hconf.
    rewrite bool_decide_eq_true_2
      by (rewrite Hlog; by apply logText_nonempty).
    set (r := requestExit env) in *.
    set (q := length (promises w3)).
    destruct (exit_first r w3 Hinv Hep)
      as (Hd & Hme & Hpd & Hnin & Hin & Harm & Hcon).
    fold q in Hd, Hme, Hpd, Hnin, Hin, Harm, Hcon.
    rewrite Hd. set (d := S q) in *. set (w4 := (exit r w3).2) in *.
    assert (q ≠ d) as Hqd by (subst d; lia).
    assert (Inv w4) as Hinv4 by by apply Inv_exit.
    destruct (exit_journal r w3 Hep) as [Hlog4 Hdiag4]; [done|].
    fold w4 in Hlog4, Hdiag4. rewrite Hdiag in Hdiag4.
    assert (exitPromise w4 = Some d) as Hep4
      by (rewrite <-Hd; apply exit_kept).
    assert (module_persist w4 = None) as Hmp4.
    { apply (inv_persist_slot w4 Hinv4). subst w4.
      by rewrite exit_persistPromise. }
    assert (∀ w5 consumed,
              consumed `prefix_of` afterwards env →
              awaitSettled d (afterwards env) w4 = w5 →
              promises w5 !! d = Some (Fulfilled VUndefined) →
              Inv w5 → ledger w5 = ledger w4 →
              LogInv w5 →
              diagnostics (trace w5)
              = diagnostics (trace w4) ++ omap errArgs consumed →
              ∃ w consumed,
                consumed `prefix_of` afterwards env
                ∧ match promises (awaitSettled d (afterwards env) w4) !! d with
                  | Some (Fulfilled _) =>
                      Threw (StartupError
                               (startupErrorLog
                                  (awaitSettled d (afterwards env) w4)))
                        (awaitSettled d (afterwards env) w4)
                  | Some (Rejected e) =>
                      Threw e (awaitSettled d (afterwards env) w4)
                  | _ => Waiting (awaitSettled d (afterwards env) w4)
                  end
                  = Threw (StartupError (logText (diagnostics (trace w)))) w
                ∧ diagnostics (trace w)
                  = earlyDiagnostics env
                    ++ omap errArgs (callbacks r ++ consumed)
                ∧ RequestExit ∈ trace w) as Hfinish.
    { intros w5 consumed Hpre -> Hd5 Hinv5 [= _ Hl5 _ _] [_ Hlog5] Hdiag5.
      eexists _, consumed. rewrite Hd5, Hlog5.
      split_and!; [done|done| |].
      - by rewrite Hdiag5, Hdiag4, omap_app, app_assoc.
      - apply requested_elem_of; [done|]. rewrite Hl5, Hep4. by eexists. }
    destruct (CallExit_dec (callbacks r)) as [Hcs|Hcs].
    + destruct (Hin Hcs) as [v Hv].
      destruct Hcon as [Hr4 Hq4]; [by rewrite Hv|].
      assert (Confirmed q d w4) as Hconf4 by (constructor; eauto).
      destruct (runMicrotasks_Confirmed q d w4 Hconf4) as [Hrun Hd5].
      apply (Hfinish (runMicrotasks w4) []).
      * apply prefix_nil.
      * by eapply awaitSettled_settled.
      * done.
      * by apply Inv_drain.
      * apply ledger_drain.
      * eapply LogInv_journal; [apply journal_drain|done].
      * rewrite app_nil_r. apply diagnostics_journal, journal_drain.
    + destruct Hconf as [Hcs'|[Hthrown Hafter]]; [by destruct Hcs|].
      fold r in Hthrown. specialize (Hnin Hcs). rewrite Hthrown in Hnin.
      destruct (Harm Hnin) as [Hr4 Hq4].
      assert (Armed q d w4) as Harmed by by constructor.
      destruct (awaitSettled_Armed q d (afterwards env) w4 Hqd Harmed Hafter)
        as (consumed & Hpre & Heq & Hd5).
      destruct (invokes_journal consumed w4 Hlog4) as [Hlog5 Hdiag5].
      apply (Hfinish _ consumed Hpre Heq); [by rewrite <-Heq|..].
      * exact (Inv_step Microtask _ (Inv_invokes consumed w4 Hinv4)).
      * by rewrite ledger_runMicrotask, ledger_invokes.
      * eapply LogInv_journal; [apply journal_runMicrotask|done].
      * by rewrite (diagnostics_journal _ _ (journal_runMicrotask _)).
  - intros Hnil. rewrite Hnil in Hlog. simpl in Hlog.
    rewrite bool_decide_eq_false_2 by (rewrite Hlog; simpl; lia).
    eexists. split_and!; [done|done|done|].
    intros args. by simpl.
Qed.

Lemma handshake_outcome_witness :
  ∃ w consumed,
    consumed `prefix_of` afterwards failedBoot
    ∧ DosDirect (H := joinArgs) failedBoot
      = Threw (StartupError
                 (logText (H := joinArgs) (diagnostics (trace w)))) w
    ∧ diagnostics (trace w)
      = earlyDiagnostics failedBoot
        ++ omap errArgs (callbacks (requestExit failedBoot) ++ consumed)
    ∧ RequestExit ∈ trace w.
Proof.
  apply (proj1 (handshake_outcome (H := joinArgs) failedBoot
                  eq_refl eq_refl)).
  - vm_compute. discriminate.
  - right. split; [reflexivity|].
    apply elem_of_cons. right. apply elem_of_cons. by left.
Defined.

(** * Further properties of the code *)

(** ** Key transitions *)

Section key_transitions.
Context `{Serializer}.
Implicit Types (w : World) (o : obs) (code k : Z) (l : list bool).

Lemma alternates_snoc prev l b :
  alternates prev (l ++ [b])
  = alternates prev l && bool_decide (b = negb (default prev (last l))).
Proof.
  revert prev. induction l as [|x l IH]; intros prev.
  - simpl. by rewrite andb_true_r.
  - cbn [app alternates]. rewrite IH, andb_assoc. do 2 f_equal.
    destruct l as [|y l]; [done|]. rewrite last_cons_cons.
    destruct (last (y :: l)) eqn:Hl; [done|]. by apply last_None in Hl.
Qed.

Lemma transitions_filter code tr :
  transitions code (List.filter isInputEvent tr) = transitions code tr.
Proof.
  unfold transitions. induction tr as [|o tr IH]; [done|].
  cbn [List.filter]. destruct (isInputEvent o) eqn:Ho.
  - change (omap (keyEvent code) ([o] ++ List.filter isInputEvent tr)
            = omap (keyEvent code) ([o] ++ tr)).
    by rewrite !omap_app, IH.
  - change (omap (keyEvent code) (List.filter isInputEvent tr)
            = omap (keyEvent code) ([o] ++ tr)).
    rewrite omap_app, IH. by destruct o.
Qed.

(** [KeyInv] looks at the desk only. *)
Lemma KeyInv_desk w w' : desk w' = desk w → KeyInv w → KeyInv w'.
Proof.
  intros [= _ Hm Htr] Hinv code. destruct (Hinv code) as [Halt Hlast].
  unfold isPressed in *.
  rewrite <-(transitions_filter code (trace w')), Htr, transitions_filter.
  by rewrite Hm.
Qed.

Lemma KeyInv_addKey k p t w : KeyInv w → KeyInv (addKey k p t w).
Proof.
  intros Hinv. unfold addKey. case_bool_decide as Hp; [done|].
  intros code. destruct (Hinv code) as [Halt Hlast].
  rewrite <-(addKey_forwarded w k p t Hp), addKey_isPressed.
  rewrite addKey_forwarded by done. unfold transitions, recordState.
  simpl. rewrite omap_app. simpl.
  fold (transitions code (trace w)).
  destruct (decide (k = code)) as [->|Hne].
  - rewrite !(bool_decide_eq_true_2 (code = code)) by done. simpl.
    rewrite alternates_snoc, Halt, last_snoc, <-Hlast. simpl.
    split; [|done]. apply bool_decide_eq_true_2.
    destruct (isPressed w code), p; done.
  - rewrite (bool_decide_eq_false_2 (k = code)) by done.
    rewrite (bool_decide_eq_false_2 (code = k)) by done.
    by rewrite app_nil_r.
Qed.

Lemma KeyInv_forEach_addKey ks p t w :
  KeyInv w → KeyInv (forEach_addKey ks p t w).
Proof.
  revert w. induction ks as [|k ks IH]; intros w Hinv; [done|].
  apply IH. by apply KeyInv_addKey.
Qed.

Lemma KeyInv_emit o w :
  (∀ code, keyEvent code o = None) → KeyInv w → KeyInv (emit o w).
Proof.
  intros Ho Hinv code. destruct (Hinv code) as [Halt Hlast].
  unfold transitions, isPressed in *. simpl. rewrite omap_app. simpl.
  by rewrite Ho, app_nil_r.
Qed.

Lemma KeyInv_issue cmd w : KeyInv w → KeyInv (issue cmd w).
Proof.
  intros Hinv. destruct cmd as [[k p|ks|x y|b p] now]; unfold issue; simpl.
  - by apply KeyInv_addKey.
  - by do 2 apply KeyInv_forEach_addKey.
  - by apply KeyInv_emit.
  - by apply KeyInv_emit.
Qed.

(** *** The lifecycle leaves the desk alone *)

Lemma desk_emit o w : isInputEvent o = false → desk (emit o w) = desk w.
Proof.
  intros Ho. unfold desk. simpl. rewrite List.filter_app. simpl.
  by rewrite Ho, app_nil_r.
Qed.

Lemma desk_settle p s w : desk (settle p s w) = desk w.
Proof.
  unfold settle. destruct (promises w !! p) as [[]|]; try done.
  unfold desk. simpl. rewrite List.filter_app. simpl. by rewrite app_nil_r.
Qed.

Lemma desk_invoke c w : desk (invoke c w) = desk w.
Proof.
  destruct c as [a|a|a|a|a|a|]; simpl;
    unfold logFn, warnFn, errFn, startupErrFn, fireMessage;
    try (by apply desk_emit).
  - destruct (module_err w); [|by apply desk_emit].
    unfold desk. simpl. rewrite !List.filter_app. simpl.
    by rewrite !app_nil_r.
  - destruct (module_err w); [|by apply desk_emit].
    unfold desk. simpl. rewrite !List.filter_app. simpl.
    by rewrite !app_nil_r.
  - destruct (module_persist w); [|done].
    transitivity (desk (settle n (Fulfilled (VArchive a))
                          (emit (PersistCallback a) w))); [done|].
    by rewrite desk_settle, desk_emit.
  - destruct (module_exit w); [|done].
    by rewrite desk_settle, desk_emit.
Qed.

Lemma desk_request o r w :
  isInputEvent o = false → desk (request o r w) = desk w.
Proof.
  intros Ho. unfold request. rewrite <-(desk_emit o w Ho).
  generalize (emit o w). induction (callbacks r) as [|c cs IH]; intros w';
    [done|]. simpl. by rewrite IH, desk_invoke.
Qed.

Lemma desk_runMicrotask w : desk (runMicrotask w) = desk w.
Proof.
  unfold runMicrotask. destruct (microtasks w) as [|j rest]; [done|].
  unfold runJob, fireExit. simpl.
  destruct (promises w !! j.1) as [[]|]; try done.
  - by rewrite desk_settle, desk_emit.
  - by rewrite desk_settle.
Qed.

Lemma desk_persist r w : desk (persist r w).2 = desk w.
Proof.
  unfold persist. destruct (persistPromise w); [done|]. cbn [snd].
  set (w1 := set_module_persist _ _).
  assert (desk (request PackFsToBundle r w1) = desk w) as Hreq
    by by rewrite desk_request.
  destruct (thrown r); [|done].
  transitivity (desk (settle (length (promises w)) (Rejected e)
                        (request PackFsToBundle r w1))); [done|].
  by rewrite desk_settle.
Qed.

Lemma desk_exit r w : desk (exit r w).2 = desk w.
Proof.
  unfold exit. destruct (exitPromise w); [done|]. cbn [snd].
  set (w1 := set_module_exit _ _).
  set (w3 := match thrown r with Some e => _ | None => _ end).
  assert (desk w3 = desk w) as <-.
  { assert (desk (request RequestExit r w1) = desk w) as Hreq
      by by rewrite desk_request.
    subst w3. destruct (thrown r); [|done]. by rewrite desk_settle. }
  unfold then_fireExit.
  by destruct (promises (newPromise w3) !! length (promises w)) as [[]|].
Qed.

Lemma desk_step a w : isInputAction a = false → desk (step a w) = desk w.
Proof.
  destruct a as [c now|r|r|c|]; simpl; intros Ha; [done|..].
  - apply desk_persist.
  - apply desk_exit.
  - apply desk_invoke.
  - apply desk_runMicrotask.
Qed.

Lemma KeyInv_step a w : KeyInv w → KeyInv (step a w).
Proof.
  intros Hinv. destruct (isInputAction a) eqn:Ha.
  - destruct a; try done. simpl. by apply KeyInv_issue.
  - eapply KeyInv_desk; [by apply desk_step|done].
Qed.

Lemma KeyInv_newInstance start : KeyInv (newInstance start).
Proof. by intros code. Qed.
End key_transitions.

(** X1. On every run of an interface, whatever the host and the module do:
    the states forwarded to the module for any one key code alternate,
    pressed, released, pressed, ..., beginning with pressed; and the Key
    Matrix reads the code as pressed exactly when the last state forwarded
    for it is pressed. *)
Theorem key_transitions_alternate `{Serializer} (start : Z)
  (acts : list action) (code : Z) :
  let w := run acts (newInstance start) in
  alternates false (transitions code (trace w)) = true
  ∧ isPressed w code = default false (last (transitions code (trace w))).
Proof.
  intros w. subst w.
  assert (∀ w, KeyInv w → KeyInv (run acts w)) as Hrun.
  { induction acts as [|a acts IH]; intros w Hinv; [done|].
    simpl. by apply IH, KeyInv_step. }
  apply Hrun, KeyInv_newInstance.
Qed.

(** X2. The lifecycle never touches the input state: [persist()], [exit()],
    callbacks of the module and jobs of the event loop leave the start time
    and the Key Matrix as they are and forward no key or mouse event. *)
Theorem lifecycle_leaves_input_state `{Serializer} (acts : list action)
  (w : World) :
  forallb (fun a => negb (isInputAction a)) acts = true →
  startedAt (run acts w) = startedAt w
  ∧ keyMatrix (run acts w) = keyMatrix w
  ∧ List.filter isInputEvent (trace (run acts w))
    = List.filter isInputEvent (trace w).
Proof.
  revert w. induction acts as [|a acts IH]; intros w Hacts; [done|].
  simpl in Hacts. apply andb_true_iff in Hacts as [Ha Hacts].
  apply negb_true_iff in Ha.
  destruct (IH (step a w) Hacts) as (Hs & Hm & Htr).
  pose proof (desk_step a w Ha) as [= Hs' Hm' Htr'].
  simpl. by rewrite Hs, Hm, Htr.
Qed.

Lemma lifecycle_leaves_input_state_witness :
  let w := sendKeyEvent 65 true 1005 (newInstance 1000) in
  let acts := [Persist justThrow; Exit confirmThenThrow; Microtask;
               ModuleCalls (CallPersist [Byte.x01])] in
  startedAt (run (H := joinArgs) acts w) = startedAt w
  ∧ keyMatrix (run (H := joinArgs) acts w) = keyMatrix w
  ∧ List.filter isInputEvent (trace (run (H := joinArgs) acts w))
    = List.filter isInputEvent (trace w).
Proof.
  apply (lifecycle_leaves_input_state (H := joinArgs)). reflexivity.
Defined.

(** ** Taps on an arbitrary Key Matrix *)

Section taps_general.
Implicit Types (w : World) (ks : list Z) (p : bool) (t : Z).

Lemma filter_agree (P1 P2 : Z → Prop) `{!∀ x, Decision (P1 x)}
  `{!∀ x, Decision (P2 x)} ks :
  (∀ k, k ∈ ks → P1 k ↔ P2 k) → filter P1 ks = filter P2 ks.
Proof.
  induction ks as [|k ks IH]; intros Hiff; [done|].
  assert (filter P1 ks = filter P2 ks) as Hrest.
  { apply IH. intros k' Hin. apply Hiff. by right. }
  pose proof (Hiff k (list_elem_of_here _ _)) as Hk.
  destruct (decide (P1 k)).
  - rewrite !filter_cons_True by tauto. by rewrite Hrest.
  - rewrite !filter_cons_False by tauto. done.
Qed.

Lemma filter_all (P : Z → Prop) `{!∀ x, Decision (P x)} ks :
  (∀ k, k ∈ ks → P k) → filter P ks = ks.
Proof.
  induction ks as [|k ks IH]; intros Hall; [done|].
  rewrite filter_cons_True by (apply Hall; by left).
  f_equal. apply IH. intros k' Hin. apply Hall. by right.
Qed.

Lemma forEach_addKey_isPressed ks p t w c :
  isPressed (forEach_addKey ks p t w) c
  = if bool_decide (c ∈ ks) then p else isPressed w c.
Proof.
  revert w. induction ks as [|k ks IH]; intros w.
  - by rewrite bool_decide_eq_false_2 by by intros ?%elem_of_nil.
  - unfold forEach_addKey in *. simpl. rewrite IH, addKey_isPressed.
    unfold recordState.
    destruct (decide (c ∈ ks)) as [Hin|Hnin].
    + rewrite !bool_decide_eq_true_2; [done|by right|done].
    + rewrite (bool_decide_eq_false_2 (c ∈ ks)) by done.
      destruct (decide (c = k)) as [->|Hne].
      * rewrite !bool_decide_eq_true_2; [done|by left|done].
      * rewrite !bool_decide_eq_false_2; [done| |done].
        by intros [?|?]%elem_of_cons.
Qed.

(** One pass over distinct codes forwards exactly the codes that are not
    yet in the state asked for. *)
Lemma forEach_addKey_changed ks p t w :
  NoDup ks →
  trace (forEach_addKey ks p t w)
  = trace w
    ++ map (fun k => AddKey k p t)
         (filter (fun k => isPressed w k ≠ p) ks).
Proof.
  revert w. induction ks as [|k ks IH]; intros w Hnd.
  - by rewrite app_nil_r.
  - apply NoDup_cons in Hnd as [Hk Hnd].
    unfold forEach_addKey in *. simpl. rewrite (IH _ Hnd), addKey_trace.
    rewrite <-app_assoc. f_equal. rewrite filter_cons.
    assert (filter (fun k' => isPressed (addKey k p t w) k' ≠ p) ks
            = filter (fun k' => isPressed w k' ≠ p) ks) as ->.
    { apply filter_agree.
      intros k' Hin. rewrite addKey_isPressed. unfold recordState.
      rewrite bool_decide_eq_false_2; [done|]. by intros ->. }
    destruct (decide (isPressed w k ≠ p)) as [Hne|Heq].
    + by rewrite bool_decide_eq_false_2.
    + apply dec_stable in Heq. by rewrite bool_decide_eq_true_2.
Qed.
End taps_general.

(** X3. A tap leaves no tapped key held: after [simulateKeyPress], whatever
    the Key Matrix recorded before and whatever codes are given (repeated or
    not), every tapped code is recorded as released and every other code is
    recorded as before. *)
Theorem tap_leaves_keys_released (keyCodes : list Z) (now : Z) (w : World)
  (code : Z) :
  isPressed (simulateKeyPress keyCodes now w) code
  = if bool_decide (code ∈ keyCodes) then false else isPressed w code.
Proof.
  unfold simulateKeyPress. rewrite !forEach_addKey_isPressed.
  by case_bool_decide.
Qed.

(** X4. What a tap of distinct codes forwards on any Key Matrix: a press,
    at the relative time of the call, for every code not recorded as
    pressed, in the order given; then a release, 16 units later, for every
    code, in the order given. *)
Theorem tap_forwards_missing_presses_and_all_releases (keyCodes : list Z)
  (now : Z) (w : World) :
  NoDup keyCodes →
  trace (simulateKeyPress keyCodes now w)
  = trace w
    ++ map (fun k => AddKey k true (now - startedAt w))
         (filter (fun k => isPressed w k ≠ true) keyCodes)
    ++ map (fun k => AddKey k false (now - startedAt w + 16)) keyCodes.
Proof.
  intros Hnd. unfold simulateKeyPress.
  rewrite !forEach_addKey_changed by done. rewrite <-app_assoc.
  do 3 f_equal. apply filter_all.
  intros k Hk. rewrite forEach_addKey_isPressed.
  by rewrite bool_decide_eq_true_2.
Qed.

Lemma tap_forwards_missing_presses_and_all_releases_witness :
  let w := sendKeyEvent 65 true 1000 (newInstance 1000) in
  trace (simulateKeyPress [65; 66] 1007 w)
  = trace w
    ++ map (fun k => AddKey k true (1007 - startedAt w))
         (filter (fun k => isPressed w k ≠ true) [65; 66])
    ++ map (fun k => AddKey k false (1007 - startedAt w + 16)) [65; 66].
Proof.
  apply (tap_forwards_missing_presses_and_all_releases [65; 66] 1007).
  apply NoDup_cons. split; [|apply NoDup_singleton].
  intros Hin%list_elem_of_singleton. discriminate Hin.
Defined.

(** ** Mouse commands, and what input commands leave alone *)

Section input_frame.
Implicit Types (w : World) (cmds : list (command * Z)).

Lemma addKey_backstage k p t w :
  backstage (addKey k p t w) = backstage w
  ∧ startedAt (addKey k p t w) = startedAt w
  ∧ ∃ evs, trace (addKey k p t w) = trace w ++ evs
           ∧ Forall (fun o => isInputEvent o = true) evs.
Proof.
  unfold addKey. case_bool_decide.
  - split_and!; [done..|]. exists []. by rewrite app_nil_r.
  - split_and!; [done..|]. eexists [_]. split; [done|]. by repeat constructor.
Qed.

Lemma forEach_addKey_backstage ks p t w :
  backstage (forEach_addKey ks p t w) = backstage w
  ∧ startedAt (forEach_addKey ks p t w) = startedAt w
  ∧ ∃ evs, trace (forEach_addKey ks p t w) = trace w ++ evs
           ∧ Forall (fun o => isInputEvent o = true) evs.
Proof.
  revert w. induction ks as [|k ks IH]; intros w.
  - split_and!; [done..|]. exists []. by rewrite app_nil_r.
  - destruct (addKey_backstage k p t w) as (Hb & Hs & e1 & Ht & Hall).
    destruct (IH (addKey k p t w)) as (Hb' & Hs' & e2 & Ht' & Hall').
    unfold forEach_addKey in *. simpl. rewrite Hb', Hb, Hs', Hs, Ht', Ht.
    split_and!; [done..|]. exists (e1 ++ e2).
    split; [by rewrite app_assoc|by apply Forall_app].
Qed.

Lemma issue_backstage c w :
  backstage (issue c w) = backstage w
  ∧ startedAt (issue c w) = startedAt w
  ∧ ∃ evs, trace (issue c w) = trace w ++ evs
           ∧ Forall (fun o => isInputEvent o = true) evs.
Proof.
  destruct c as [[k p|ks|x y|b p] now]; unfold issue; simpl.
  - apply addKey_backstage.
  - unfold simulateKeyPress.
    destruct (forEach_addKey_backstage ks true (now - startedAt w) w)
      as (Hb & Hs & e1 & Ht & Hall).
    destruct (forEach_addKey_backstage ks false (now - startedAt w + 16)
                (forEach_addKey ks true (now - startedAt w) w))
      as (Hb' & Hs' & e2 & Ht' & Hall').
    rewrite Hb', Hb, Hs', Hs, Ht', Ht.
    split_and!; [done..|]. exists (e1 ++ e2).
    split; [by rewrite app_assoc|by apply Forall_app].
  - split_and!; [done..|]. eexists [_]. split; [done|]. by repeat constructor.
  - split_and!; [done..|]. eexists [_]. split; [done|]. by repeat constructor.
Qed.
End input_frame.

(** X5. Mouse commands are never absorbed: a sequence of [sendMouseMotion]
    and [sendMouseButton] calls forwards one event per call, in order, each
    stamped with the relative time of its call, identical samples included,
    and leaves the Key Matrix as it is. *)
Theorem mouse_commands_always_forward (cmds : list (command * Z))
  (w : World) :
  forallb isMouseCommand cmds = true →
  trace (issueAll cmds w) = trace w ++ omap (mouseEvent (startedAt w)) cmds
  ∧ length (omap (mouseEvent (startedAt w)) cmds) = length cmds
  ∧ keyMatrix (issueAll cmds w) = keyMatrix w.
Proof.
  revert w. induction cmds as [|c cmds IH]; intros w Hall.
  - split_and!; [|done..]. by rewrite app_nil_r.
  - simpl in Hall. apply andb_true_iff in Hall as [Hc Hall].
    destruct (IH (issue c w) Hall) as (Htr & Hlen & Hm).
    assert (∃ o, mouseEvent (startedAt w) c = Some o
                 ∧ issue c w = emit o w) as (o & Ho & Hissue).
    { destruct c as [[k p|ks|x y|b p] now]; try done; by eexists. }
    rewrite Hissue in Htr, Hlen, Hm. simpl in Htr, Hlen, Hm.
    change (issueAll (c :: cmds) w) with (issueAll cmds (issue c w)).
    rewrite Hissue. cbn [omap list_omap]. rewrite Ho.
    split_and!; [by rewrite Htr, <-app_assoc|simpl; by rewrite Hlen|done].
Qed.

Lemma mouse_commands_always_forward_witness :
  let cmds := [(SendMouseButton 0 true, 1001); (SendMouseButton 0 true, 1002);
               (SendMouseMotion (1 # 2) (1 # 4), 1002)] in
  let w := newInstance 1000 in
  trace (issueAll cmds w) = trace w ++ omap (mouseEvent (startedAt w)) cmds
  ∧ length (omap (mouseEvent (startedAt w)) cmds) = length cmds
  ∧ keyMatrix (issueAll cmds w) = keyMatrix w.
Proof.
  apply (mouse_commands_always_forward
           [(SendMouseButton 0 true, 1001); (SendMouseButton 0 true, 1002);
            (SendMouseMotion (1 # 2) (1 # 4), 1002)] (newInstance 1000)).
  reflexivity.
Defined.

(** X6. Key and mouse commands stay on their side: whatever commands are
    issued, they only append key and mouse events to what the module
    received; they send no lifecycle request, fire nothing on the Event Bus,
    settle or create no promise, queue no job, and leave the callback slots,
    the error sink, the Startup Error Log and the start time as they are. *)
Theorem input_commands_only_forward_input (cmds : list (command * Z))
  (w : World) :
  backstage (issueAll cmds w) = backstage w
  ∧ startedAt (issueAll cmds w) = startedAt w
  ∧ ∃ evs, trace (issueAll cmds w) = trace w ++ evs
           ∧ Forall (fun o => isInputEvent o = true) evs.
Proof.
  revert w. induction cmds as [|c cmds IH]; intros w.
  - split_and!; [done..|]. exists []. by rewrite app_nil_r.
  - destruct (issue_backstage c w) as (Hb & Hs & e1 & Ht & Hall).
    destruct (IH (issue c w)) as (Hb' & Hs' & e2 & Ht' & Hall').
    change (issueAll (c :: cmds) w) with (issueAll cmds (issue c w)).
    rewrite Hb', Hb, Hs', Hs, Ht', Ht.
    split_and!; [done..|]. exists (e1 ++ e2).
    split; [by rewrite app_assoc|by apply Forall_app].
Qed.

(** ** More on the screenshot *)

Section screenshot_more.
Implicit Types (m : Wasm) (rgba : Uint8ClampedArray) (img : ImageData).
Implicit Types (heap : list Byte.byte).
Local Open Scope nat_scope.

(** A second run of the loop finds every alpha byte set already. *)
Lemma forceAlpha_absorb rgba next heap :
  forceAlpha rgba next (forceAlpha rgba next heap)
  = forceAlpha rgba next heap.
Proof.
  funelim (forceAlpha rgba next heap); [|by simp forceAlpha; rewrite Heq].
  set (forced := forceAlpha rgba (next + 4)
                 (view_set rgba next Byte.xff heap)) in *.
  rewrite forceAlpha_equation_1. destruct (decide (next < byteLength rgba));
    [|done]. simpl.
  assert (view_set rgba next Byte.xff forced = forced) as ->; [|done].
  unfold view_set at 1. rewrite decide_True by done.
  destruct (decide (byteOffset rgba + next < length forced)) as [Hlt|Hge].
  - apply list_insert_id. subst forced. rewrite forceAlpha_other.
    + unfold view_set. rewrite decide_True by done.
      apply list_lookup_insert_eq.
      rewrite forceAlpha_length in Hlt. unfold view_set in Hlt.
      rewrite decide_True in Hlt by done. by rewrite length_insert in Hlt.
    + intros q _. lia.
  - apply list_insert_ge. lia.
Qed.
Lemma pixels_window img m :
  pixels img m
  = take (byteLength (data img)) (drop (byteOffset (data img)) (HEAPU8 m)).
Proof. done. Qed.
End screenshot_more.

(** X7. When [screenshot()] yields an image: exactly when the frame has
    positive width and height and lies inside the module's memory.  A frame
    that does not lie inside the memory makes the typed-array constructor
    throw before anything is written; a frame of no area yields no image and
    no write either. *)
Theorem screenshot_returns_image_iff (m : Wasm) :
  (is_Some (screenshot m).1
   ↔ 0 < width m ∧ 0 < height m ∧ 0 ≤ _getFrameRgba m
     ∧ _getFrameRgba m + width m * height m * 4
       ≤ Z.of_nat (length (HEAPU8 m)))
  ∧ (¬ (0 ≤ _getFrameRgba m ∧ 0 ≤ width m * height m * 4
        ∧ _getFrameRgba m + width m * height m * 4
          ≤ Z.of_nat (length (HEAPU8 m))) →
     screenshot m = (None, m))
  ∧ (width m * height m = 0 →
     (screenshot m).1 = None ∧ HEAPU8 (screenshot m).2 = HEAPU8 m).
Proof.
  unfold screenshot, newUint8ClampedArray, newImageData.
  split_and!.
  - case_decide as Hfit;
      [|split; [by intros []|intros (? & ? & ? & ?); destruct Hfit; nia]].
    cbn [fst].
    case_decide as Hdim; cbn [byteLength] in Hdim.
    + split; [intros _; lia|by eexists].
    + split; [by intros []|]. intros (Hw & Hh & Hp & Hin).
      destruct Hdim. split_and!; [done..|]. nia.
  - intros Hout. by rewrite decide_False.
  - intros Harea. case_decide as Hfit; [|done]. cbn [fst snd].
    split.
    + rewrite decide_False; [done|]. nia.
    + cbn [HEAPU8 set_HEAPU8]. rewrite Harea. simpl.
      rewrite forceAlpha_equation_1. simpl. done.
Qed.

(** X8. Taking a screenshot twice in a row is the same as taking it once:
    the second call returns the same image and leaves the module's memory as
    the first call left it. *)
Theorem screenshot_twice (m : Wasm) :
  screenshot (screenshot m).2 = screenshot m.
Proof.
  unfold screenshot at 2 3. unfold newUint8ClampedArray.
  case_decide as Hfit; [|cbn [snd]; unfold screenshot, newUint8ClampedArray;
                         by rewrite decide_False].
  cbn [snd]. unfold screenshot, newUint8ClampedArray.
  cbn [HEAPU8 set_HEAPU8 width height _getFrameWidth _getFrameHeight
       _getFrameRgba].
  rewrite forceAlpha_length, decide_True by done.
  by rewrite forceAlpha_absorb.
Qed.

(** X9. The screenshot and the frame event read the same buffer.  When
    [screenshot()] yields an image, its colour bytes are those [onFrame]
    would have copied just before the call, its alpha bytes are 255, and an
    [onFrame] that the module raises after the call, without having redrawn,
    copies exactly what the image shows, forced alpha included. *)
Theorem screenshot_agrees_with_onFrame (m m' : Wasm) (img : ImageData) :
  screenshot m = (Some img, m') →
  let n := Z.to_nat (width m * height m) in
  length (onFrame (_getFrameRgba m) m) = (4 * n)%nat
  ∧ onFrame (_getFrameRgba m) m' = pixels img m'
  ∧ (∀ p, (p < n)%nat → pixels img m' !! (4 * p + 3)%nat = Some Byte.xff)
  ∧ (∀ i, (∀ p, i ≠ (4 * p + 3)%nat) →
          pixels img m' !! i = onFrame (_getFrameRgba m) m !! i).
Proof.
  intros Hs n.
  apply screenshot_Some in Hs as ((Hptr & Hw & Hh) & Hfit & -> & ->).
  cbn [byteOffset byteLength] in Hfit.
  assert (Z.to_nat (width m * height m * 4) = (4 * n)%nat) as Hlen
    by (subst n; lia).
  rewrite Hlen in *.
  set (off := Z.to_nat (_getFrameRgba m)) in *.
  set (rgba := mkView off (4 * n)).
  assert (onFrame (_getFrameRgba m) m
          = take (4 * n) (drop off (HEAPU8 m))) as Hbefore.
  { rewrite onFrame_copies by lia. by rewrite Hlen. }
  split_and!.
  - rewrite Hbefore, length_take, length_drop. lia.
  - rewrite pixels_window. cbn [data byteOffset byteLength].
    change (onFrame (_getFrameRgba m)
              (set_HEAPU8 (forceAlpha rgba 3 (HEAPU8 m)) m))
      with (slice (forceAlpha rgba 3 (HEAPU8 m)) (_getFrameRgba m)
              (_getFrameRgba m + width m * height m * 4)).
    unfold slice. rewrite !decide_False by lia. f_equal.
    cbn [byteLength rgba]. nia.
  - intros p Hp. rewrite pixels_lookup. unfold view_get.
    cbn [data byteLength byteOffset HEAPU8 set_HEAPU8].
    rewrite decide_True by (cbn [byteLength rgba]; lia).
    replace (byteOffset rgba + (4 * p + 3))%nat
      with (byteOffset rgba + 3 + 4 * p)%nat by lia.
    apply (forceAlpha_visited rgba); cbn [byteOffset byteLength rgba]; lia.
  - intros i Hi. rewrite Hbefore, pixels_window.
    cbn [data byteOffset byteLength HEAPU8 set_HEAPU8 rgba].
    destruct (decide (i < 4 * n)%nat) as [Hlt|Hge].
    + rewrite !lookup_take_lt, !lookup_drop by done.
      apply forceAlpha_other. cbn [byteOffset byteLength].
      intros q _ Heq. apply (Hi q). cbn [byteOffset rgba] in Heq. lia.
    + by rewrite !lookup_take_ge by lia.
Qed.

Lemma screenshot_agrees_with_onFrame_witness :
  let m' := mkWasm [Byte.x00; Byte.x00; Byte.x00; Byte.xff] 1 1 0 in
  let img := mkImageData (mkView 0 4) 1 1 in
  let n := Z.to_nat (width onePixel * height onePixel) in
  length (onFrame (_getFrameRgba onePixel) onePixel) = (4 * n)%nat
  ∧ onFrame (_getFrameRgba onePixel) m' = pixels img m'
  ∧ (∀ p, (p < n)%nat → pixels img m' !! (4 * p + 3)%nat = Some Byte.xff)
  ∧ (∀ i, (∀ p, i ≠ (4 * p + 3)%nat) →
          pixels img m' !! i = onFrame (_getFrameRgba onePixel) onePixel !! i).
Proof.
  apply (screenshot_agrees_with_onFrame onePixel). by vm_compute.
Defined.

(** X10. [onFrame] never fails on a frame that runs past the end of the
    memory: [slice] clamps, so the payload is the part of the frame that
    lies inside the memory, byte for byte, and is shorter than the frame. *)
Theorem onFrame_clamps_to_memory (rgbaPtr : Z) (m : Wasm) :
  0 ≤ rgbaPtr → 0 ≤ width m * height m →
  length (onFrame rgbaPtr m)
  = Nat.min (Z.to_nat (width m * height m * 4))
      (length (HEAPU8 m) - Z.to_nat rgbaPtr)
  ∧ ∀ i, (i < length (onFrame rgbaPtr m))%nat →
      onFrame rgbaPtr m !! i = HEAPU8 m !! (Z.to_nat rgbaPtr + i)%nat.
Proof.
  intros Hp Ha. unfold onFrame, slice. rewrite !decide_False by lia.
  replace (Z.to_nat (rgbaPtr + width m * height m * 4) - Z.to_nat rgbaPtr)%nat
    with (Z.to_nat (width m * height m * 4)) by lia.
  rewrite length_take, length_drop. split; [done|].
  intros i Hi. rewrite lookup_take_lt, lookup_drop; [done|lia].
Qed.

Lemma onFrame_clamps_to_memory_witness :
  length (onFrame 2 onePixel)
  = Nat.min (Z.to_nat (width onePixel * height onePixel * 4))
      (length (HEAPU8 onePixel) - Z.to_nat 2)
  ∧ ∀ i, (i < length (onFrame 2 onePixel))%nat →
      onFrame 2 onePixel !! i = HEAPU8 onePixel !! (Z.to_nat 2 + i)%nat.
Proof. apply (onFrame_clamps_to_memory 2 onePixel); vm_compute; congruence. Defined.


(** X25. What a [screenshot()] that yields an image does to the module
    memory: it writes 255 into the alpha byte of every pixel of the frame
    and changes no other byte, no dimension and not the frame's address;
    the image is the window of [4 * width * height] bytes at the frame's
    address. *)
Theorem screenshot_forces_alpha_in_place (m m' : Wasm) (img : ImageData) :
  screenshot m = (Some img, m') →
  let off := Z.to_nat (_getFrameRgba m) in
  let n := Z.to_nat (width m * height m) in
  (width m' = width m ∧ height m' = height m
   ∧ _getFrameRgba m' = _getFrameRgba m
   ∧ length (HEAPU8 m') = length (HEAPU8 m))
  ∧ (∀ p, (p < n)%nat → HEAPU8 m' !! (off + (4 * p + 3))%nat = Some Byte.xff)
  ∧ (∀ j, (∀ p, (p < n)%nat → j ≠ (off + (4 * p + 3))%nat) →
          HEAPU8 m' !! j = HEAPU8 m !! j)
  ∧ data img = mkView off (4 * n).
Proof.
  intros Hs off n.
  apply screenshot_Some in Hs as ((Hptr & Hw & Hh) & Hfit & -> & ->).
  simpl in Hfit.
  assert (Z.to_nat (width m * height m * 4) = (4 * n)%nat) as Hlen
    by (subst n; lia).
  rewrite Hlen in *. fold off in Hfit |- *.
  split; [|split_and!].
  - split_and!; [done..|]. apply forceAlpha_length.
  - intros p Hp. cbn [HEAPU8 set_HEAPU8].
    replace (off + (4 * p + 3))%nat with (off + 3 + 4 * p)%nat by lia.
    apply (forceAlpha_visited (mkView off (4 * n)));
      cbn [byteOffset byteLength]; lia.
  - intros j Hj. apply forceAlpha_other. cbn [byteOffset byteLength].
    intros q Hq. specialize (Hj q). lia.
  - done.
Qed.

Lemma screenshot_forces_alpha_in_place_witness :
  let m' := mkWasm [Byte.x00; Byte.x00; Byte.x00; Byte.xff] 1 1 0 in
  let img := mkImageData (mkView 0 4) 1 1 in
  let off := Z.to_nat (_getFrameRgba onePixel) in
  let n := Z.to_nat (width onePixel * height onePixel) in
  (width m' = width onePixel ∧ height m' = height onePixel
   ∧ _getFrameRgba m' = _getFrameRgba onePixel
   ∧ length (HEAPU8 m') = length (HEAPU8 onePixel))
  ∧ (∀ p, (p < n)%nat → HEAPU8 m' !! (off + (4 * p + 3))%nat = Some Byte.xff)
  ∧ (∀ j, (∀ p, (p < n)%nat → j ≠ (off + (4 * p + 3))%nat) →
          HEAPU8 m' !! j = HEAPU8 onePixel !! j)
  ∧ data img = mkView off (4 * n).
Proof.
  apply (screenshot_forces_alpha_in_place onePixel). by vm_compute.
Defined.

(** * Calls that are re-entered *)

Section machine.
Context `{Serializer}.
Implicit Types (m : Machine) (w : World) (l : label) (ls : list label).
Implicit Types (st : list frame).
Local Open Scope nat_scope.

Lemma mrun_app ls1 ls2 m m' :
  mrun (ls1 ++ ls2) m = Some m'
  ↔ ∃ mi, mrun ls1 m = Some mi ∧ mrun ls2 mi = Some m'.
Proof.
  revert m. induction ls1 as [|l ls1 IH]; intros m; simpl.
  - split; [by eauto|]. by intros (mi & [= ->] & ?).
  - destruct (mstep l m) as [m1|]; [apply IH|].
    split; [done|]. by intros (mi & ? & _).
Qed.

Lemma mrun_callbacks cs w st :
  mrun (map Callback cs) (mkMachine w st)
  = Some (mkMachine (foldl (fun acc c => invoke c acc) w cs) st).
Proof.
  revert w. induction cs as [|c cs IH]; intros w; [done|].
  simpl. apply IH.
Qed.

(** *** Calls that are not re-entered *)

Lemma persist_unreentered r w st :
  persistPromise w = None →
  mrun (HostPersist :: map Callback (callbacks r) ++ [Returns (thrown r)])
    (mkMachine w st)
  = Some (mkMachine (persist r w).2 st).
Proof.
  intros Hpp. cbn [mrun mstep]. unfold enterPersist. cbn [store stack].
  rewrite Hpp. apply mrun_app. eexists. split; [apply mrun_callbacks|].
  unfold persist. rewrite Hpp. done.
Qed.

Lemma exit_unreentered r w st :
  exitPromise w = None →
  mrun (HostExit :: map Callback (callbacks r) ++ [Returns (thrown r)])
    (mkMachine w st)
  = Some (mkMachine (exit r w).2 st).
Proof.
  intros Hd. cbn [mrun mstep]. unfold enterExit. cbn [store stack].
  rewrite Hd. apply mrun_app. eexists. split; [apply mrun_callbacks|].
  unfold exit. rewrite Hd. done.
Qed.

Lemma step_is_machine_run a w :
  mrun (labels a w) (mkMachine w []) = Some (mkMachine (step a w) []).
Proof.
  destruct a as [c now|r|r|c|]; cbn [labels step]; try done.
  - destruct (persistPromise w) as [p|] eqn:Hpp.
    + cbn [mrun mstep]. unfold enterPersist. cbn [store].
      by rewrite Hpp, (persist_memo w p r Hpp).
    + by apply persist_unreentered.
  - destruct (exitPromise w) as [d|] eqn:Hd.
    + cbn [mrun mstep]. unfold enterExit. cbn [store].
      by rewrite Hd, (exit_memo w d r Hd).
    + by apply exit_unreentered.
Qed.

(** Every run of [run] is a run of the machine. *)
Lemma run_is_machine_run acts w :
  mrun (unfolding acts w) (mkMachine w []) = Some (mkMachine (run acts w) []).
Proof.
  revert w. induction acts as [|a acts IH]; intros w; [done|].
  cbn [unfolding]. apply mrun_app. eexists.
  split; [apply step_is_machine_run|]. apply IH.
Qed.
End machine.

(** C3. The code at the failing input.  The host calls [persist()]; while
    [_packFsToBundle()] runs the module logs a line, and a handler of that
    message calls [persist()]: no promise is kept yet, so a second promise
    is made, a second closure replaces the first and [_packFsToBundle()] is
    called again.  The inner call returns promise 1, the outer call promise
    0, and an archive handed over afterwards fulfils promise 1 only: the
    promise of the first call stays pending, and every later call returns
    it.  [exit()] re-entered in the same way sends [_requestExit()] twice
    and returns two promises; a confirmation fires the Exit event for the
    inner call only, whose promise is not the kept one. *)
Theorem reentered_call_is_not_memoized :
  (∃ m1 m2 m3,
     mrun (H := joinArgs) (take 4 persistReentered) (fresh 0) = Some m1
     ∧ mrun (H := joinArgs) persistReentered (fresh 0) = Some m2
     ∧ mrun (H := joinArgs)
         (persistReentered ++ [Callback (CallPersist [Byte.x01]); HostPersist])
         (fresh 0) = Some m3
     ∧ persistPromise (store m1) = Some 1%nat
     ∧ persistPromise (store m2) = Some 0%nat
     ∧ count isPackFsToBundle (trace (store m2)) = 2%nat
     ∧ persistPromise (store m3) = Some 0%nat
     ∧ promises (store m3)
       = [Pending; Fulfilled (VArchive [Byte.x01])]
     ∧ module_persist (store m3) = None ∧ stack m3 = [])
  ∧ (∃ m1 m2 m3,
       mrun (H := joinArgs) (take 4 exitReentered) (fresh 0) = Some m1
       ∧ mrun (H := joinArgs) exitReentered (fresh 0) = Some m2
       ∧ mrun (H := joinArgs)
           (exitReentered ++ [Callback CallExit; Job; Job; HostExit])
           (fresh 0) = Some m3
       ∧ exitPromise (store m1) = Some 2%nat
       ∧ exitPromise (store m2) = Some 3%nat
       ∧ count isRequestExit (trace (store m2)) = 2%nat
       ∧ exitPromise (store m3) = Some 3%nat
       ∧ promises (store m3)
         = [Pending; Fulfilled VUndefined; Fulfilled VUndefined; Pending]
       ∧ FireExit ∈ trace (store m3) ∧ microtasks (store m3) = []).
Proof.
  split.
  - eexists _, _, _. split_and!; [by vm_compute..| | | | | | |];
      by vm_compute.
  - eexists _, _, _. split_and!; [by vm_compute..| | | | | |];
      try (by vm_compute).
    apply list_elem_of_In. vm_compute. tauto.
Qed.

(** ** What every run keeps, re-entered or not *)

Section budgets.
Context `{Serializer}.
Implicit Types (m : Machine) (w : World) (l : label) (ls : list label).
Local Open Scope nat_scope.

Lemma count_emit f o w :
  count f (trace (emit o w)) = count f (trace w) + if f o then 1 else 0.
Proof. apply count_snoc. Qed.

Lemma count_settle f p s w :
  f (Settled p s) = false → count f (trace (settle p s w)) = count f (trace w).
Proof.
  intros Hf. unfold settle. destruct (promises w !! p) as [[]|]; try done.
  rewrite count_emit, Hf. cbn [trace set_microtasks set_reactions
    set_promises]. lia.
Qed.

Lemma trace_then q w : trace (then_fireExit q w) = trace w.
Proof.
  unfold then_fireExit. by destruct (promises (newPromise w) !! q) as [[]|].
Qed.

Lemma count_elem_of (f : obs → bool) (tr : list obs) o :
  o ∈ tr → f o = true → 0 < count f tr.
Proof.
  intros Hin Hf. apply list_elem_of_split in Hin as (l1 & l2 & ->).
  rewrite count_app. unfold count. simpl. rewrite Hf. simpl. lia.
Qed.

(** *** Exit events *)

Lemma exitBudget_emit o w :
  isFireExit o = false → exitBudget (emit o w) = exitBudget w.
Proof.
  intros Ho. unfold exitBudget. cbn [emit reactions microtasks trace].
  rewrite count_snoc, Ho. lia.
Qed.

Lemma filter_split_length {A} (P : A → Prop) `{!∀ x, Decision (P x)}
  (xs : list A) :
  length (filter P xs) + length (filter (λ x, ¬ P x) xs) = length xs.
Proof.
  induction xs as [|x xs IH]; [done|].
  rewrite !filter_cons. destruct (decide (P x)).
  - rewrite decide_False by tauto. simpl. lia.
  - rewrite decide_True by done. simpl. lia.
Qed.

Lemma exitBudget_settle p s w : exitBudget (settle p s w) = exitBudget w.
Proof.
  unfold settle. destruct (promises w !! p) as [[]|]; try done.
  rewrite exitBudget_emit by done. unfold exitBudget.
  cbn [reactions microtasks trace set_microtasks set_reactions
       set_promises].
  rewrite length_app.
  pose proof (filter_split_length (λ r : nat * nat, r.1 = p) (reactions w)).
  lia.
Qed.

Lemma exitBudget_invoke c w : exitBudget (invoke c w) = exitBudget w.
Proof.
  destruct c as [a|a|a|a|a|a|]; simpl;
    unfold logFn, warnFn, errFn, startupErrFn, fireMessage;
    try (by apply exitBudget_emit).
  - destruct (module_err w); [|by apply exitBudget_emit].
    transitivity (exitBudget (emit (FireMessage ErrorLevel a)
                                (emit (ConsoleError a) w))); [done|].
    by rewrite !exitBudget_emit.
  - destruct (module_err w); [|by apply exitBudget_emit].
    transitivity (exitBudget (emit (FireMessage ErrorLevel a)
                                (emit (ConsoleError a) w))); [done|].
    by rewrite !exitBudget_emit.
  - destruct (module_persist w); [|done].
    transitivity (exitBudget (settle n (Fulfilled (VArchive a))
                                (emit (PersistCallback a) w))); [done|].
    by rewrite exitBudget_settle, exitBudget_emit.
  - destruct (module_exit w); [|done].
    by rewrite exitBudget_settle, exitBudget_emit.
Qed.

Lemma exitBudget_issue cmd w : exitBudget (issue cmd w) = exitBudget w.
Proof.
  destruct (issue_backstage cmd w) as (Hb & _ & evs & Ht & Hall).
  injection Hb as _ _ _ Hr Hm _ _ _ _.
  unfold exitBudget. rewrite Hr, Hm, Ht, count_app.
  assert (count isFireExit evs = 0) as ->; [|lia].
  clear Ht. unfold count. induction Hall as [|o evs Ho _ IH]; [done|].
  simpl. by destruct o.
Qed.

Lemma exitBudget_runMicrotask w :
  exitBudget (runMicrotask w) ≤ exitBudget w.
Proof.
  unfold runMicrotask. destruct (microtasks w) as [|j rest] eqn:Hq; [done|].
  assert (exitBudget (set_microtasks rest w) + 1 = exitBudget w) as <-.
  { unfold exitBudget. cbn [reactions microtasks trace set_microtasks].
    rewrite Hq. simpl. lia. }
  unfold runJob, fireExit.
  change (promises (set_microtasks rest w)) with (promises w).
  destruct (promises w !! j.1) as [[]|]; try lia.
  - rewrite exitBudget_settle. unfold exitBudget.
    cbn [emit reactions microtasks trace set_microtasks].
    rewrite count_snoc. simpl. lia.
  - rewrite exitBudget_settle. lia.
Qed.

Lemma exitBudget_then q w :
  exitBudget (then_fireExit q w) = S (exitBudget w).
Proof.
  unfold then_fireExit, exitBudget.
  destruct (promises (newPromise w) !! q) as [[]|];
    cbn [reactions microtasks trace set_reactions set_microtasks
         newPromise set_promises];
    rewrite length_app; simpl; lia.
Qed.

Lemma ExitPaid_step l m m' : ExitPaid m → mstep l m = Some m' → ExitPaid m'.
Proof.
  unfold ExitPaid. intros Hm Hstep.
  destruct l as [c now| | |t|c|]; cbn [mstep] in Hstep.
  - injection Hstep as <-. cbn [store stack].
    rewrite exitBudget_issue.
    by rewrite (count_ledger isRequestExit _ _ (λ o, ltac:(by destruct o))
                  (ledger_issue (c, now) (store m))).
  - injection Hstep as <-. unfold enterPersist.
    destruct (persistPromise (store m)); [done|].
    cbn [store stack exitFrames omap list_omap].
    rewrite exitBudget_emit, count_emit by done.
    change (omap _ (stack m)) with (exitFrames (stack m)).
    transitivity (exitBudget (store m) + length (exitFrames (stack m)));
      [|simpl; lia].
    apply Nat.eq_le_incl. by f_equal.
  - injection Hstep as <-. unfold enterExit.
    destruct (exitPromise (store m)); [done|].
    cbn [store stack exitFrames omap list_omap].
    rewrite exitBudget_emit, count_emit by done.
    change (omap _ (stack m)) with (exitFrames (stack m)).
    assert (exitBudget (set_module_exit (Some (length (promises (store m))))
                          (newPromise (store m)))
            = exitBudget (store m)) as -> by done.
    cbn [trace set_module_exit newPromise set_promises isRequestExit length].
    lia.
  - destruct (stack m) as [|[p|q] rest] eqn:Hst; [done|..];
      injection Hstep as <-; cbn [store stack];
      cbn [exitFrames omap list_omap length] in Hm.
    + unfold leavePersist.
      assert (∀ w', exitBudget (set_persistPromise (Some p) w')
                    = exitBudget w') as -> by done.
      cbn [trace set_persistPromise].
      destruct t as [e|]; [|done].
      by rewrite exitBudget_settle, count_settle.
    + unfold leaveExit.
      set (w3 := match t with Some e => _ | None => _ end).
      assert (exitBudget w3 = exitBudget (store m)
              ∧ count isRequestExit (trace w3)
                = count isRequestExit (trace (store m))) as [Hb Hc].
      { subst w3. destruct t as [e|]; [|done].
        by rewrite exitBudget_settle, count_settle. }
      transitivity (exitBudget (then_fireExit q w3)
                    + length (exitFrames rest)); [done|].
      cbn [trace set_exitPromise]. rewrite exitBudget_then, trace_then.
      change (omap _ rest) with (exitFrames rest) in Hm. lia.
  - injection Hstep as <-. cbn [store stack].
    rewrite exitBudget_invoke.
    by rewrite (count_ledger isRequestExit _ _ (λ o, ltac:(by destruct o))
                  (ledger_invoke c (store m))).
  - destruct (stack m) eqn:Hst; [|done]. injection Hstep as <-.
    cbn [store stack]. pose proof (exitBudget_runMicrotask (store m)).
    rewrite (count_ledger isRequestExit _ _ (λ o, ltac:(by destruct o))
               (ledger_runMicrotask (store m))).
    simpl in *. lia.
Qed.

Lemma ExitPaid_run ls m m' : ExitPaid m → mrun ls m = Some m' → ExitPaid m'.
Proof.
  revert m. induction ls as [|l ls IH]; intros m Hm; simpl.
  - by intros [= <-].
  - destruct (mstep l m) as [m1|] eqn:Hstep; [|done].
    apply IH. by eapply ExitPaid_step.
Qed.

Lemma ExitPaid_fresh start : ExitPaid (fresh start).
Proof. unfold ExitPaid, exitBudget, count. simpl. lia. Qed.

(** *** Archives *)

Lemma archives_emit o w :
  archive o = None → archives (trace (emit o w)) = archives (trace w).
Proof.
  intros Ho. unfold archives. cbn [emit trace]. rewrite omap_app. simpl.
  by rewrite Ho, app_nil_r.
Qed.

Lemma archives_settle p s w :
  archives (trace (settle p s w)) = archives (trace w).
Proof.
  unfold settle. destruct (promises w !! p) as [[]|]; try done.
  by rewrite archives_emit.
Qed.

Lemma archives_inputs evs :
  Forall (fun o => isInputEvent o = true) evs → archives evs = [].
Proof.
  induction 1 as [|o evs Ho _ IH]; [done|]. by destruct o.
Qed.

Lemma archives_issue cmd w :
  archives (trace (issue cmd w)) = archives (trace w).
Proof.
  destruct (issue_backstage cmd w) as (_ & _ & evs & Ht & Hall).
  rewrite Ht. unfold archives. rewrite omap_app.
  change (omap archive evs) with (archives evs).
  rewrite (archives_inputs evs Hall). apply app_nil_r.
Qed.

Lemma archives_runMicrotask w :
  archives (trace (runMicrotask w)) = archives (trace w).
Proof.
  unfold runMicrotask. destruct (microtasks w) as [|j rest]; [done|].
  unfold runJob, fireExit.
  change (promises (set_microtasks rest w)) with (promises w).
  destruct (promises w !! j.1) as [[]|]; try done.
  - by rewrite archives_settle, archives_emit.
  - by rewrite archives_settle.
Qed.

Lemma archives_invoke_ne c w :
  (∀ a, c ≠ CallPersist a) →
  archives (trace (invoke c w)) = archives (trace w).
Proof.
  intros Hc. destruct c as [a|a|a|a|a|a|]; simpl;
    unfold logFn, warnFn, errFn, startupErrFn, fireMessage;
    try (by apply archives_emit).
  - destruct (module_err w); [|by apply archives_emit].
    transitivity (archives (trace (emit (FireMessage ErrorLevel a)
                                     (emit (ConsoleError a) w)))); [done|].
    by rewrite !archives_emit.
  - destruct (module_err w); [|by apply archives_emit].
    transitivity (archives (trace (emit (FireMessage ErrorLevel a)
                                     (emit (ConsoleError a) w)))); [done|].
    by rewrite !archives_emit.
  - by destruct (Hc a).
  - destruct (module_exit w); [|done].
    by rewrite archives_settle, archives_emit.
Qed.

Lemma ArchivePaid_step l m m' :
  ArchivePaid m → mstep l m = Some m' → ArchivePaid m'.
Proof.
  unfold ArchivePaid. intros Hm Hstep.
  destruct l as [c now| | |t|c|]; cbn [mstep] in Hstep.
  - injection Hstep as <-. cbn [store].
    rewrite archives_issue, module_persist_issue.
    by rewrite (count_ledger isPackFsToBundle _ _
                  (λ o, ltac:(by destruct o))
                  (ledger_issue (c, now) (store m))).
  - injection Hstep as <-. unfold enterPersist.
    destruct (persistPromise (store m)); [done|]. cbn [store].
    rewrite archives_emit, count_emit by done.
    cbn [module_persist emit set_module_persist trace newPromise
         set_promises isPackFsToBundle].
    destruct (module_persist (store m)); lia.
  - injection Hstep as <-. unfold enterExit.
    destruct (exitPromise (store m)); [done|]. cbn [store].
    rewrite archives_emit, count_emit by done.
    cbn [module_persist emit set_module_exit trace newPromise
         set_promises isRequestExit isPackFsToBundle].
    lia.
  - assert (∀ p w, archives (trace match t with
                                   | Some e => settle p (Rejected e) w
                                   | None => w
                                   end) = archives (trace w)
                   ∧ module_persist match t with
                                    | Some e => settle p (Rejected e) w
                                    | None => w
                                    end = module_persist w
                   ∧ count isPackFsToBundle
                       (trace match t with
                              | Some e => settle p (Rejected e) w
                              | None => w
                              end) = count isPackFsToBundle (trace w))
      as Hsettle.
    { intros p w. destruct t as [e|]; [|done].
      by rewrite archives_settle, module_persist_settle, count_settle. }
    destruct (stack m) as [|[p|q] rest] eqn:Hst; [done|..];
      injection Hstep as <-; cbn [store].
    + unfold leavePersist. cbn [trace module_persist set_persistPromise].
      destruct (Hsettle p (store m)) as (-> & -> & ->). done.
    + unfold leaveExit. cbn [trace module_persist set_exitPromise].
      rewrite trace_then.
      assert (∀ w, module_persist (then_fireExit q w) = module_persist w)
        as ->.
      { intros w. unfold then_fireExit.
        by destruct (promises (newPromise w) !! q) as [[]|]. }
      destruct (Hsettle q (store m)) as (-> & -> & ->). done.
  - injection Hstep as <-. cbn [store].
    rewrite (count_ledger isPackFsToBundle _ _
               (λ o, ltac:(by destruct o)) (ledger_invoke c (store m))).
    assert ((∃ a, c = CallPersist a) ∨ ∀ a, c ≠ CallPersist a) as [[a ->]|Hc]
      by (destruct c; (by left; eexists) || (by right)).
    + cbn [invoke].
      destruct (module_persist (store m)) as [p|] eqn:Hslot;
        [|by rewrite Hslot].
      cbn [module_persist set_module_persist trace].
      rewrite archives_settle. unfold archives in *. cbn [emit trace].
      rewrite omap_app, length_app. simpl. lia.
    + by rewrite archives_invoke_ne, module_persist_invoke_ne.
  - destruct (stack m) eqn:Hst; [|done]. injection Hstep as <-.
    cbn [store]. rewrite archives_runMicrotask, module_persist_runMicrotask.
    by rewrite (count_ledger isPackFsToBundle _ _
                  (λ o, ltac:(by destruct o))
                  (ledger_runMicrotask (store m))).
Qed.

Lemma ArchivePaid_run ls m m' :
  ArchivePaid m → mrun ls m = Some m' → ArchivePaid m'.
Proof.
  revert m. induction ls as [|l ls IH]; intros m Hm; simpl.
  - by intros [= <-].
  - destruct (mstep l m) as [m1|] eqn:Hstep; [|done].
    apply IH. by eapply ArchivePaid_step.
Qed.
End budgets.

(** X11. Every Exit event goes back to a [_requestExit()] of its own: on
    every run of an interface, calls re-entered from handlers included, the
    Exit events fired, the reactions that may still fire one and the
    [exit()] calls in progress together never outnumber the requests sent to
    the module.  An interface that sent one request fires the Exit event at
    most once, and once it has, no reaction is left. *)
Theorem exit_events_never_outnumber_requests `{Serializer} (start : Z)
  (ls : list label) (m : Machine) :
  mrun ls (fresh start) = Some m →
  (count isFireExit (trace (store m)) + length (reactions (store m))
   + length (microtasks (store m)) + length (exitFrames (stack m))
   ≤ count isRequestExit (trace (store m)))%nat
  ∧ (count isRequestExit (trace (store m)) = 1%nat →
     FireExit ∈ trace (store m) →
     count isFireExit (trace (store m)) = 1%nat
     ∧ reactions (store m) = [] ∧ microtasks (store m) = []).
Proof.
  intros Hrun.
  pose proof (ExitPaid_run ls _ m (ExitPaid_fresh start) Hrun) as Hpaid.
  unfold ExitPaid, exitBudget in Hpaid. split; [lia|].
  intros Hone Hfired.
  pose proof (count_elem_of isFireExit _ _ Hfired eq_refl) as Hpos.
  split_and!; [lia|apply length_zero_iff_nil; lia..].
Qed.

Lemma exit_events_never_outnumber_requests_witness :
  ∃ m, mrun (H := joinArgs)
         (exitReentered ++ [Callback CallExit; Job]) (fresh 0) = Some m
       ∧ (count isFireExit (trace (store m)) + length (reactions (store m))
          + length (microtasks (store m)) + length (exitFrames (stack m))
          ≤ count isRequestExit (trace (store m)))%nat.
Proof.
  eexists. split; [by vm_compute|].
  apply (exit_events_never_outnumber_requests (H := joinArgs) 0
           (exitReentered ++ [Callback CallExit; Job])).
  by vm_compute.
Defined.

(** X12. Every run of the closure that [persist()] installs goes back to a
    [_packFsToBundle()] of its own, because the closure deletes itself and
    only [persist()] installs it: on every run of an interface, calls
    re-entered from handlers included, the archives taken, plus one while a
    closure is on the module, never outnumber the requests sent. *)
Theorem archives_never_outnumber_requests `{Serializer} (start : Z)
  (ls : list label) (m : Machine) :
  mrun ls (fresh start) = Some m →
  (length (archives (trace (store m)))
   + match module_persist (store m) with Some _ => 1 | None => 0 end
   ≤ count isPackFsToBundle (trace (store m)))%nat.
Proof.
  intros Hrun. apply (ArchivePaid_run ls (fresh start)); [|done].
  unfold ArchivePaid, count. simpl. lia.
Qed.

Lemma archives_never_outnumber_requests_witness :
  ∃ m, mrun (H := joinArgs)
         (persistReentered
            ++ [Callback (CallPersist [Byte.x01]);
                Callback (CallPersist [Byte.x02])]) (fresh 0) = Some m
       ∧ archives (trace (store m)) = [[Byte.x01]]
       ∧ (length (archives (trace (store m)))
          + match module_persist (store m) with Some _ => 1 | None => 0 end
          ≤ count isPackFsToBundle (trace (store m)))%nat.
Proof.
  eexists. split_and!; [by vm_compute|by vm_compute|].
  apply (archives_never_outnumber_requests (H := joinArgs) 0
           (persistReentered
              ++ [Callback (CallPersist [Byte.x01]);
                  Callback (CallPersist [Byte.x02])])).
  by vm_compute.
Defined.

(** ** One step of the machine *)

Section steps.
Context `{Serializer}.
Implicit Types (m : Machine) (w : World) (l : label) (ls : list label).
Implicit Types (f : frame) (p q d : nat) (s : pstate).
Local Open Scope nat_scope.

Ltac invert_step Hstep :=
  match type of Hstep with
  | mstep ?l ?m = Some ?m' =>
      destruct l as [?c ?now| | |?t|?c|]; cbn [mstep] in Hstep;
      [ injection Hstep as <-
      | injection Hstep as <-; unfold enterPersist;
        destruct (persistPromise (store m)) as [?kept|] eqn:?Hkept
      | injection Hstep as <-; unfold enterExit;
        destruct (exitPromise (store m)) as [?kept|] eqn:?Hkept
      | destruct (stack m) as [|[?p|?q] ?rest] eqn:?Hstack;
        [discriminate Hstep|injection Hstep as <-..]
      | injection Hstep as <-
      | destruct (stack m) as [|? ?] eqn:?Hstack;
        [injection Hstep as <-|discriminate Hstep] ]
  end.

(** *** The store, piece by piece *)

Lemma promises_then q w :
  promises (then_fireExit q w) = promises w ++ [Pending].
Proof.
  unfold then_fireExit. by destruct (promises (newPromise w) !! q) as [[]|].
Qed.

Lemma invoke_length c w :
  length (promises (invoke c w)) = length (promises w).
Proof.
  destruct c as [a|a|a|a|a|a|]; simpl; unfold startupErrFn; try done.
  - by destruct (module_err w).
  - by destruct (module_err w).
  - destruct (module_persist w); [|done]. simpl. by rewrite settle_length.
  - destruct (module_exit w); [|done]. by rewrite settle_length.
Qed.

Lemma runMicrotask_length w :
  length (promises (runMicrotask w)) = length (promises w).
Proof.
  unfold runMicrotask. destruct (microtasks w) as [|j rest]; [done|].
  unfold runJob, fireExit.
  change (promises (set_microtasks rest w)) with (promises w).
  destruct (promises w !! j.1) as [[]|]; try done;
    by rewrite settle_length.
Qed.

Lemma leave_length t p w :
  length (promises match t with
                   | Some e => settle p (Rejected e) w
                   | None => w
                   end) = length (promises w).
Proof. destruct t; [apply settle_length|done]. Qed.

Lemma length_step l m m' :
  mstep l m = Some m' →
  length (promises (store m)) ≤ length (promises (store m')).
Proof.
  intros Hstep. invert_step Hstep; cbn [store].
  - by rewrite issue_promises.
  - done.
  - simpl. rewrite length_app. simpl. lia.
  - done.
  - simpl. rewrite length_app. simpl. lia.
  - unfold leavePersist. cbn [promises set_persistPromise].
    by rewrite leave_length.
  - unfold leaveExit. cbn [promises set_exitPromise].
    rewrite promises_then, length_app, leave_length. simpl. lia.
  - by rewrite invoke_length.
  - by rewrite runMicrotask_length.
Qed.

Lemma length_run ls m m' :
  mrun ls m = Some m' →
  length (promises (store m)) ≤ length (promises (store m')).
Proof.
  revert m. induction ls as [|l ls IH]; intros m; simpl.
  - by intros [= <-].
  - destruct (mstep l m) as [m1|] eqn:Hstep; [|done]. intros Hrun.
    etrans; [by eapply length_step|by apply IH].
Qed.

(** *** Jobs *)

Lemma jobs_settle p s w j :
  j ∈ reactions (settle p s w) ++ microtasks (settle p s w)
  ↔ j ∈ reactions w ++ microtasks w.
Proof.
  unfold settle. destruct (promises w !! p) as [[]|]; try done.
  cbn [emit reactions microtasks set_microtasks set_reactions].
  rewrite !elem_of_app, !list_elem_of_filter.
  destruct (decide (j.1 = p)); naive_solver.
Qed.

Lemma jobs_invoke c w j :
  j ∈ reactions (invoke c w) ++ microtasks (invoke c w)
  ↔ j ∈ reactions w ++ microtasks w.
Proof.
  destruct c as [a|a|a|a|a|a|]; simpl; unfold startupErrFn; try done.
  - by destruct (module_err w).
  - by destruct (module_err w).
  - destruct (module_persist w); [|done].
    exact (jobs_settle _ _ (emit (PersistCallback a) w) j).
  - destruct (module_exit w); [|done].
    exact (jobs_settle _ _ (emit ExitCallback w) j).
Qed.

Lemma jobs_runMicrotask w j :
  j ∈ reactions (runMicrotask w) ++ microtasks (runMicrotask w) →
  j ∈ reactions w ++ microtasks w.
Proof.
  unfold runMicrotask. destruct (microtasks w) as [|j0 rest] eqn:Hq;
    [by rewrite Hq|].
  assert (j ∈ reactions (set_microtasks rest w)
              ++ microtasks (set_microtasks rest w) →
          j ∈ reactions w ++ j0 :: rest) as Hpop.
  { simpl. rewrite !elem_of_app, elem_of_cons. tauto. }
  unfold runJob, fireExit.
  change (promises (set_microtasks rest w)) with (promises w).
  destruct (promises w !! j0.1) as [[]|]; try done.
  - rewrite jobs_settle. exact Hpop.
  - rewrite jobs_settle. exact Hpop.
Qed.

Lemma jobs_then q w j :
  j ∈ reactions (then_fireExit q w) ++ microtasks (then_fireExit q w)
  ↔ j ∈ reactions w ++ microtasks w ∨ j = (q, length (promises w)).
Proof.
  unfold then_fireExit.
  destruct (promises (newPromise w) !! q) as [[]|];
    cbn [reactions microtasks set_reactions set_microtasks newPromise
         set_promises];
    rewrite !elem_of_app, ?list_elem_of_singleton; tauto.
Qed.

Lemma jobs_issue cmd w :
  reactions (issue cmd w) = reactions w
  ∧ microtasks (issue cmd w) = microtasks w.
Proof.
  destruct (issue_backstage cmd w) as (Hb & _).
  by injection Hb as _ _ _ -> -> _ _ _ _.
Qed.

Lemma slots_leave t p w :
  module_persist match t with
                 | Some e => settle p (Rejected e) w
                 | None => w
                 end = module_persist w
  ∧ module_exit match t with
                | Some e => settle p (Rejected e) w
                | None => w
                end = module_exit w.
Proof.
  destruct t; [|done]. rewrite module_persist_settle.
  by pose proof (ledger_settle p (Rejected e) w) as [= _ _ -> _].
Qed.

Lemma slots_then q w :
  module_persist (then_fireExit q w) = module_persist w
  ∧ module_exit (then_fireExit q w) = module_exit w.
Proof.
  unfold then_fireExit. by destruct (promises (newPromise w) !! q) as [[]|].
Qed.

Lemma jobs_leave t p w j :
  j ∈ reactions match t with
                | Some e => settle p (Rejected e) w
                | None => w
                end
      ++ microtasks match t with
                    | Some e => settle p (Rejected e) w
                    | None => w
                    end
  ↔ j ∈ reactions w ++ microtasks w.
Proof. destruct t; [apply jobs_settle|done]. Qed.

(** *** Who is named after a step *)

Lemma stack_step l m m' f :
  mstep l m = Some m' → f ∈ stack m' →
  f ∈ stack m
  ∨ (length (promises (store m)) < length (promises (store m'))
     ∧ (f = InPersist (length (promises (store m)))
        ∨ f = InExit (length (promises (store m))))).
Proof.
  intros Hstep. invert_step Hstep; cbn [stack store]; try (by left).
  - rewrite elem_of_cons. intros [->|?]; [right|by left].
    simpl. rewrite length_app. simpl. split; [lia|by left].
  - rewrite elem_of_cons. intros [->|?]; [right|by left].
    simpl. rewrite length_app. simpl. split; [lia|by right].
  - intros Hin. left. by right.
  - intros Hin. left. by right.
Qed.

Lemma persistNamed_step l m m' p :
  mstep l m = Some m' → persistNamed m' p →
  persistNamed m p
  ∨ (p = length (promises (store m))
     ∧ length (promises (store m)) < length (promises (store m'))).
Proof.
  intros Hstep [Hslot|Hin].
  - revert Hslot. invert_step Hstep; cbn [store]; try (by left; left).
    + rewrite module_persist_issue. by left; left.
    + simpl. intros [= <-]. right. rewrite length_app. simpl. lia.
    + unfold leavePersist. cbn [module_persist set_persistPromise].
      rewrite (proj1 (slots_leave _ _ _)). by left; left.
    + unfold leaveExit. cbn [module_persist set_exitPromise].
      rewrite (proj1 (slots_then _ _)), (proj1 (slots_leave _ _ _)).
      by left; left.
    + destruct (module_persist_invoke c (store m)) as [->| ->];
        [by left; left|done].
    + rewrite module_persist_runMicrotask. by left; left.
  - destruct (stack_step l m m' _ Hstep Hin) as [?|[? [[= ->]|?]]];
      [by left; right|by right|done].
Qed.

Lemma exitNamed_step l m m' p :
  mstep l m = Some m' → exitNamed m' p →
  exitNamed m p
  ∨ (p = length (promises (store m))
     ∧ length (promises (store m)) < length (promises (store m'))).
Proof.
  intros Hstep [Hslot|[Hin|(j & Hj & Hp)]].
  - revert Hslot. invert_step Hstep; cbn [store]; try (by left; left).
    + pose proof (ledger_issue (c, now) (store m)) as [= _ _ -> _].
      by left; left.
    + simpl. intros [= <-]. right. rewrite length_app. simpl. lia.
    + unfold leavePersist. cbn [module_exit set_persistPromise].
      rewrite (proj2 (slots_leave _ _ _)). by left; left.
    + unfold leaveExit. cbn [module_exit set_exitPromise].
      rewrite (proj2 (slots_then _ _)), (proj2 (slots_leave _ _ _)).
      by left; left.
    + rewrite module_exit_invoke. by left; left.
    + pose proof (ledger_runMicrotask (store m)) as [= _ _ -> _].
      by left; left.
  - destruct (stack_step l m m' _ Hstep Hin) as [?|[? [?|[= ->]]]];
      [by left; right; left|done|by right].
  - revert Hj. invert_step Hstep; cbn [store];
      try (by intros Hj; left; right; right; exists j).
    + destruct (jobs_issue (c, now) (store m)) as [-> ->].
      intros Hj. left; right; right. by exists j.
    + unfold leavePersist.
      cbn [reactions microtasks set_persistPromise].
      rewrite jobs_leave. intros Hj. left; right; right. by exists j.
    + unfold leaveExit.
      cbn [reactions microtasks promises set_exitPromise].
      rewrite jobs_then, jobs_leave, promises_then, length_app,
        !leave_length.
      intros [Hj| ->]; [left; right; right; by exists j|].
      simpl in Hp. destruct Hp as [<-| <-]; [|right; simpl; lia].
      left; right; left. rewrite Hstack. by left.
    + rewrite jobs_invoke. intros Hj. left; right; right. by exists j.
    + intros Hj%jobs_runMicrotask. left; right; right. by exists j.
Qed.

Lemma Allocated_step l m m' :
  Allocated m → mstep l m = Some m' → Allocated m'.
Proof.
  intros Hm Hstep p Hp. pose proof (length_step l m m' Hstep) as Hle.
  destruct Hp as [Hp|Hp].
  - destruct (persistNamed_step l m m' p Hstep Hp) as [Hn|[-> ?]];
      [|done]. specialize (Hm p (or_introl Hn)). lia.
  - destruct (exitNamed_step l m m' p Hstep Hp) as [Hn|[-> ?]];
      [|done]. specialize (Hm p (or_intror Hn)). lia.
Qed.

Lemma Allocated_run ls m m' :
  Allocated m → mrun ls m = Some m' → Allocated m'.
Proof.
  revert m. induction ls as [|l ls IH]; intros m Hm; simpl.
  - by intros [= <-].
  - destruct (mstep l m) as [m1|] eqn:Hstep; [|done].
    apply IH. by eapply Allocated_step.
Qed.

Lemma Allocated_fresh start : Allocated (fresh start).
Proof.
  intros p [[Hp|Hp]|[Hp|[Hp|(j & Hj & _)]]]; simpl in *;
    try done; by apply elem_of_nil in Hp || apply elem_of_nil in Hj.
Qed.
(** *** Promises *)

(** A settled promise stays as it is. *)
Lemma mstep_stays l m m' p s :
  promises (store m) !! p = Some s → s ≠ Pending → mstep l m = Some m' →
  promises (store m') !! p = Some s.
Proof.
  intros Hp Hs Hstep. invert_step Hstep; cbn [store]; try done.
  - by rewrite issue_promises.
  - simpl. by apply lookup_app_l_Some.
  - simpl. by apply lookup_app_l_Some.
  - unfold leavePersist. cbn [promises set_persistPromise].
    destruct t; [by apply settle_stays|done].
  - unfold leaveExit. cbn [promises set_exitPromise].
    rewrite promises_then. apply lookup_app_l_Some.
    destruct t; [by apply settle_stays|done].
  - by apply invoke_stays.
  - by apply runMicrotask_stays.
Qed.

Lemma mrun_stays ls m m' p s :
  promises (store m) !! p = Some s → s ≠ Pending → mrun ls m = Some m' →
  promises (store m') !! p = Some s.
Proof.
  revert m. induction ls as [|l ls IH]; intros m Hp Hs; simpl.
  - by intros [= <-].
  - destruct (mstep l m) as [m1|] eqn:Hstep; [|done].
    apply IH; [by eapply mstep_stays|done].
Qed.

(** A promise changes only when the closure, [module.exit], the return
    of the call in progress or the job at the head of the queue settles
    it. *)
Lemma lookup_step l m m' p :
  mstep l m = Some m' → p < length (promises (store m)) →
  (∀ a, l = Callback (CallPersist a) → module_persist (store m) ≠ Some p) →
  (l = Callback CallExit → module_exit (store m) ≠ Some p) →
  (∀ e f rest, l = Returns (Some e) → stack m = f :: rest →
               f ≠ InPersist p ∧ f ≠ InExit p) →
  (∀ j rest, l = Job → microtasks (store m) = j :: rest → j.2 ≠ p) →
  promises (store m') !! p = promises (store m) !! p.
Proof.
  intros Hstep Hlt Hcp Hce Hret Hjob.
  invert_step Hstep; cbn [store]; try done.
  - by rewrite issue_promises.
  - simpl. by apply lookup_app_l.
  - simpl. by apply lookup_app_l.
  - unfold leavePersist. cbn [promises set_persistPromise].
    destruct t as [e|]; [|done]. apply settle_lookup_ne.
    intros ->. by destruct (Hret e _ _ eq_refl eq_refl) as [? _].
  - unfold leaveExit. cbn [promises set_exitPromise].
    rewrite promises_then, lookup_app_l by by rewrite leave_length.
    destruct t as [e|]; [|done]. apply settle_lookup_ne.
    intros ->. by destruct (Hret e _ _ eq_refl eq_refl) as [_ ?].
  - apply invoke_lookup_other.
    + intros ->. by apply Hce.
    + intros a ->. by apply (Hcp a).
  - unfold runMicrotask.
    destruct (microtasks (store m)) as [|j rest'] eqn:Hq; [done|].
    specialize (Hjob j rest' eq_refl eq_refl).
    unfold runJob, fireExit.
    change (promises (set_microtasks rest' (store m)))
      with (promises (store m)).
    destruct (promises (store m) !! j.1) as [[]|]; try done;
      by rewrite settle_lookup_ne.
Qed.

(** *** The two sides of a step *)

Lemma persist_side l m m' :
  mstep l m = Some m' →
  (persistPromise (store m') = persistPromise (store m)
   ∧ count isPackFsToBundle (trace (store m'))
     = count isPackFsToBundle (trace (store m))
   ∧ persistFrames (stack m') = persistFrames (stack m)
   ∧ (l = HostPersist → is_Some (persistPromise (store m)))
   ∧ (module_persist (store m') = module_persist (store m)
      ∨ ∃ a, l = Callback (CallPersist a)))
  ∨ (l = HostPersist ∧ persistPromise (store m) = None
     ∧ m' = enterPersist m
     ∧ stack m' = InPersist (length (promises (store m))) :: stack m
     ∧ persistPromise (store m') = None
     ∧ module_persist (store m') = Some (length (promises (store m)))
     ∧ count isPackFsToBundle (trace (store m'))
       = S (count isPackFsToBundle (trace (store m))))
  ∨ (∃ t p rest, l = Returns t ∧ stack m = InPersist p :: rest
     ∧ m' = mkMachine (leavePersist p t (store m)) rest).
Proof.
  intros Hstep. invert_step Hstep; cbn [store stack].
  - left. pose proof (ledger_issue (c, now) (store m)) as Hl.
    rewrite (count_ledger isPackFsToBundle _ _
               (λ o, ltac:(by destruct o)) Hl).
    injection Hl as -> _ _ _. rewrite module_persist_issue.
    split_and!; [done..|by left].
  - left. split_and!; [done..|by eexists|by left].
  - right; left. cbn [store stack]. rewrite count_emit.
    split_and!; [done..|]. simpl. lia.
  - left. split_and!; [done..|by left].
  - left. rewrite count_emit. simpl.
    split_and!; [done|lia|done|done|by left].
  - right; right. by eexists _, _, _.
  - left. unfold leaveExit. cbn [persistPromise trace module_persist
      set_exitPromise]. rewrite trace_then, (proj1 (slots_then _ _)),
      (proj1 (slots_leave _ _ _)).
    assert (∀ w, persistPromise (then_fireExit q w) = persistPromise w)
      as ->.
    { intros w. unfold then_fireExit.
      by destruct (promises (newPromise w) !! q) as [[]|]. }
    assert (persistPromise match t with
                           | Some e => settle q (Rejected e) (store m)
                           | None => store m
                           end = persistPromise (store m)) as ->.
    { destruct t as [e|]; [|done].
      by pose proof (ledger_settle q (Rejected e) (store m))
        as [= -> _ _ _]. }
    split_and!; [done| |done|done|by left].
    destruct t; [by apply count_settle|done].
  - left. pose proof (ledger_invoke c (store m)) as Hl.
    rewrite (count_ledger isPackFsToBundle _ _
               (λ o, ltac:(by destruct o)) Hl).
    injection Hl as -> _ _ _. split_and!; [done..|].
    assert ((∃ a, c = CallPersist a) ∨ ∀ a, c ≠ CallPersist a) as [[a ->]|Hc]
      by (destruct c; (by left; eexists) || (by right)).
    + right. by eexists.
    + left. by apply module_persist_invoke_ne.
  - left. pose proof (ledger_runMicrotask (store m)) as Hl.
    rewrite (count_ledger isPackFsToBundle _ _
               (λ o, ltac:(by destruct o)) Hl).
    injection Hl as -> _ _ _. rewrite module_persist_runMicrotask.
    split_and!; [done..|by left].
Qed.

Lemma exit_side l m m' :
  mstep l m = Some m' →
  (exitPromise (store m') = exitPromise (store m)
   ∧ module_exit (store m') = module_exit (store m)
   ∧ count isRequestExit (trace (store m'))
     = count isRequestExit (trace (store m))
   ∧ exitFrames (stack m') = exitFrames (stack m)
   ∧ (l = HostExit → is_Some (exitPromise (store m))))
  ∨ (l = HostExit ∧ exitPromise (store m) = None
     ∧ m' = enterExit m
     ∧ stack m' = InExit (length (promises (store m))) :: stack m
     ∧ exitPromise (store m') = None
     ∧ module_exit (store m') = Some (length (promises (store m)))
     ∧ count isRequestExit (trace (store m'))
       = S (count isRequestExit (trace (store m))))
  ∨ (∃ t q rest, l = Returns t ∧ stack m = InExit q :: rest
     ∧ m' = mkMachine (leaveExit q t (store m)) rest).
Proof.
  intros Hstep. invert_step Hstep; cbn [store stack].
  - left. pose proof (ledger_issue (c, now) (store m)) as Hl.
    rewrite (count_ledger isRequestExit _ _
               (λ o, ltac:(by destruct o)) Hl).
    by injection Hl as _ -> -> _.
  - left. done.
  - left. rewrite count_emit. simpl. split_and!; [done|done|lia|done|done].
  - left. split_and!; [done..|by eexists].
  - right; left. cbn [store stack]. rewrite count_emit.
    split_and!; [done..|]. simpl. lia.
  - left. unfold leavePersist.
    cbn [exitPromise module_exit trace set_persistPromise].
    rewrite (proj2 (slots_leave _ _ _)).
    split_and!; [|done| |done|done].
    + destruct t; [|done].
      by pose proof (ledger_settle p (Rejected e) (store m))
        as [= _ -> _ _].
    + destruct t; [by apply count_settle|done].
  - right; right. by eexists _, _, _.
  - left. pose proof (ledger_invoke c (store m)) as Hl.
    rewrite (count_ledger isRequestExit _ _
               (λ o, ltac:(by destruct o)) Hl).
    by injection Hl as _ -> -> _.
  - left. pose proof (ledger_runMicrotask (store m)) as Hl.
    rewrite (count_ledger isRequestExit _ _
               (λ o, ltac:(by destruct o)) Hl).
    by injection Hl as _ -> -> _.
Qed.

(** *** Requests and calls in progress *)

Lemma leaveExit_world q t w :
  exitPromise (leaveExit q t w) = Some (length (promises w))
  ∧ module_exit (leaveExit q t w) = module_exit w
  ∧ count isRequestExit (trace (leaveExit q t w))
    = count isRequestExit (trace w)
  ∧ promises (leaveExit q t w)
    = promises match t with
               | Some e => settle q (Rejected e) w
               | None => w
               end ++ [Pending].
Proof.
  unfold leaveExit. cbn [exitPromise module_exit trace promises
    set_exitPromise].
  rewrite leave_length, trace_then, promises_then,
    (proj2 (slots_then _ _)), (proj2 (slots_leave _ _ _)).
  split_and!; [done..| |done].
  destruct t; [by apply count_settle|done].
Qed.

Lemma leavePersist_world p t w :
  persistPromise (leavePersist p t w) = Some p
  ∧ module_persist (leavePersist p t w) = module_persist w
  ∧ count isPackFsToBundle (trace (leavePersist p t w))
    = count isPackFsToBundle (trace w)
  ∧ promises (leavePersist p t w)
    = promises match t with
               | Some e => settle p (Rejected e) w
               | None => w
               end.
Proof.
  unfold leavePersist. cbn [persistPromise module_persist trace promises
    set_persistPromise].
  rewrite (proj1 (slots_leave _ _ _)).
  split_and!; [done..| |done].
  destruct t; [by apply count_settle|done].
Qed.

Lemma Counted_step l m m' : Counted m → mstep l m = Some m' → Counted m'.
Proof.
  intros [He Hp] Hstep. split.
  - destruct (exit_side l m m' Hstep)
      as [(-> & _ & -> & -> & _)
         |[(_ & Hnone & _ & Hst & -> & _ & ->)
          |(t & q & rest & _ & _ & ->)]].
    + done.
    + intros _. rewrite Hst, (He Hnone). done.
    + cbn [store]. by rewrite (proj1 (leaveExit_world _ _ _)).
  - destruct (persist_side l m m' Hstep)
      as [(-> & -> & -> & _)
         |[(_ & Hnone & _ & Hst & -> & _ & ->)
          |(t & p & rest & _ & _ & ->)]].
    + done.
    + intros _. rewrite Hst, (Hp Hnone). done.
    + cbn [store]. by rewrite (proj1 (leavePersist_world _ _ _)).
Qed.

Lemma Counted_run ls m m' : Counted m → mrun ls m = Some m' → Counted m'.
Proof.
  revert m. induction ls as [|l ls IH]; intros m Hm; simpl.
  - by intros [= <-].
  - destruct (mstep l m) as [m1|] eqn:Hstep; [|done].
    apply IH. by eapply Counted_step.
Qed.

Lemma Counted_fresh start : Counted (fresh start).
Proof. by split. Qed.

(** A call that is no longer in progress never is again. *)
Lemma frame_gone_step l m m' f :
  mstep l m = Some m' →
  match f with InPersist p | InExit p => p end
    < length (promises (store m)) →
  f ∉ stack m → f ∉ stack m'.
Proof.
  intros Hstep Hlt Hout Hin.
  destruct (stack_step l m m' f Hstep Hin) as [?|[_ [-> | ->]]];
    [done|simpl in Hlt; lia..].
Qed.

Lemma frame_gone_run ls m m' f :
  mrun ls m = Some m' →
  match f with InPersist p | InExit p => p end
    < length (promises (store m)) →
  f ∉ stack m → f ∉ stack m'.
Proof.
  revert m. induction ls as [|l ls IH]; intros m; simpl.
  - by intros [= <-].
  - destruct (mstep l m) as [m1|] eqn:Hstep; [|done].
    intros Hrun Hlt Hout. apply (IH m1 Hrun).
    + pose proof (length_step l m m1 Hstep). lia.
    + by eapply frame_gone_step.
Qed.
(** *** What is reachable *)

Lemma Sound_step l m m' : Sound m → mstep l m = Some m' → Sound m'.
Proof.
  intros [Hall Hnd] Hstep. split; [by eapply Allocated_step|].
  assert (∀ f, f ∈ stack m →
            match f with InPersist p | InExit p => p end
            < length (promises (store m))) as Hlt.
  { intros [p|q] Hin; apply Hall.
    - left. by right.
    - right. right. by left. }
  invert_step Hstep; cbn [stack]; try done.
  - apply NoDup_cons. split; [|done]. intros Hin.
    specialize (Hlt _ Hin). simpl in Hlt. lia.
  - apply NoDup_cons. split; [|done]. intros Hin.
    specialize (Hlt _ Hin). simpl in Hlt. lia.
  - by apply NoDup_cons in Hnd as [_ ?].
  - by apply NoDup_cons in Hnd as [_ ?].
Qed.

Lemma Sound_run ls m m' : Sound m → mrun ls m = Some m' → Sound m'.
Proof.
  revert m. induction ls as [|l ls IH]; intros m Hm; simpl.
  - by intros [= <-].
  - destruct (mstep l m) as [m1|] eqn:Hstep; [|done].
    apply IH. by eapply Sound_step.
Qed.

Lemma Sound_fresh start : Sound (fresh start).
Proof. split; [apply Allocated_fresh|apply NoDup_nil_2]. Qed.

(** *** A [persist()] that reached the module *)

Lemma Awaited_enter m :
  Allocated m → persistPromise (store m) = None →
  Awaited (length (promises (store m))) (enterPersist m).
Proof.
  intros Hall Hkept. unfold enterPersist. rewrite Hkept.
  constructor; cbn [store stack].
  - done.
  - simpl. rewrite lookup_app_r by done. by rewrite Nat.sub_diag.
  - intros Hn.
    assert (exitNamed m (length (promises (store m)))) as Hn'.
    { destruct Hn as [Hn|[Hn|Hn]]; cbn [store stack] in Hn.
      - by left.
      - right; left. apply elem_of_cons in Hn as [|]; done.
      - by right; right. }
    specialize (Hall _ (or_intror Hn')). lia.
Qed.

Lemma Awaited_step p l m m' :
  Awaited p m → mstep l m = Some m' →
  (∀ a, l ≠ Callback (CallPersist a)) →
  (l = HostPersist → is_Some (persistPromise (store m))) →
  (∀ e rest, l = Returns (Some e) → stack m ≠ InPersist p :: rest) →
  Awaited p m'.
Proof.
  intros [Hslot Hpend Hfree] Hstep Hcp Hmemo Hret.
  assert (p < length (promises (store m))) as Hlt
    by by eapply lookup_lt_Some.
  constructor.
  - destruct (persist_side l m m' Hstep)
      as [(_ & _ & _ & _ & [->|[a ->]])
         |[(-> & Hnone & _)|(t & p' & rest & _ & _ & ->)]].
    + done.
    + by destruct (Hcp a).
    + destruct (Hmemo eq_refl) as [? ?]. congruence.
    + cbn [store].
      by rewrite (proj1 (proj2 (leavePersist_world _ _ _))).
  - rewrite (lookup_step l m m' p Hstep Hlt); [done|..].
    + intros a ->. by destruct (Hcp a).
    + intros _ He. apply Hfree. by left.
    + intros e f rest -> Hst. split.
      * intros ->. by apply (Hret e rest).
      * intros ->. apply Hfree. right; left. rewrite Hst. by left.
    + intros j rest _ Hq <-. apply Hfree. right; right. exists j.
      split; [|by right]. rewrite Hq. apply elem_of_app. right. by left.
  - intros Hn. destruct (exitNamed_step l m m' p Hstep Hn) as [?|[-> _]];
      [done|lia].
Qed.

(** While the request runs and nobody touches the closure. *)
Lemma Awaited_body body p m m1 :
  Sound m → Awaited p m → mrun body m = Some m1 →
  HostPersist ∉ body → (∀ a, Callback (CallPersist a) ∉ body) →
  InPersist p ∈ stack m1 → Awaited p m1.
Proof.
  revert m. induction body as [|l body IH];
    intros m Hsound Haw Hrun Hhp Hcp Hin; simpl in Hrun.
  - by injection Hrun as <-.
  - destruct (mstep l m) as [m'|] eqn:Hstep; [|done].
    assert (p < length (promises (store m))) as Hlt
      by (eapply lookup_lt_Some, Haw).
    apply (IH m'); [by eapply Sound_step| |done| | |done].
    + apply (Awaited_step p l m m' Haw Hstep).
      * intros a ->. apply (Hcp a). by left.
      * intros ->. destruct Hhp. by left.
      * intros e rest -> Hst. cbn [mstep] in Hstep.
        rewrite Hst in Hstep. injection Hstep as <-.
        destruct Hsound as [_ Hnd]. rewrite Hst in Hnd.
        apply NoDup_cons in Hnd as [Hout _].
        apply (frame_gone_run body _ m1 (InPersist p) Hrun); [|done..].
        cbn [store]. unfold leavePersist.
        cbn [promises set_persistPromise]. by rewrite settle_length.
    + intros Hin'. apply Hhp. by right.
    + intros a Hin'. apply (Hcp a). by right.
Qed.

Lemma kept_persist_stays l m m' :
  is_Some (persistPromise (store m)) → mstep l m = Some m' →
  is_Some (persistPromise (store m')).
Proof.
  intros Hkept Hstep.
  destruct (persist_side l m m' Hstep)
    as [(-> & _)|[(_ & _ & _ & _ & _ & _)|(t & p' & rest & _ & _ & ->)]].
  - done.
  - destruct (persist_side l m m' Hstep)
      as [(-> & _)|[(_ & Hnone & _)|(t & p' & rest & _ & _ & ->)]];
      [done|destruct Hkept; congruence|].
    cbn [store]. rewrite (proj1 (leavePersist_world _ _ _)). by eexists.
  - cbn [store]. rewrite (proj1 (leavePersist_world _ _ _)). by eexists.
Qed.

(** After the call has returned, until the module hands over an
    archive. *)
Lemma Awaited_after mid p m m2 :
  Awaited p m → is_Some (persistPromise (store m)) →
  InPersist p ∉ stack m → mrun mid m = Some m2 →
  (∀ a, Callback (CallPersist a) ∉ mid) →
  Awaited p m2.
Proof.
  revert m. induction mid as [|l mid IH];
    intros m Haw Hkept Hout Hrun Hcp; simpl in Hrun.
  - by injection Hrun as <-.
  - destruct (mstep l m) as [m'|] eqn:Hstep; [|done].
    assert (p < length (promises (store m))) as Hlt
      by (eapply lookup_lt_Some, Haw).
    apply (IH m'); [|by eapply kept_persist_stays| |done|].
    + apply (Awaited_step p l m m' Haw Hstep).
      * intros a ->. apply (Hcp a). by left.
      * done.
      * intros e rest _ Hst. apply Hout. rewrite Hst. by left.
    + by apply (frame_gone_step l m m' (InPersist p) Hstep).
    + intros a Hin'. apply (Hcp a). by right.
Qed.

Lemma Awaited_deliver p a ls m m' :
  Awaited p m → mrun (Callback (CallPersist a) :: ls) m = Some m' →
  promises (store m') !! p = Some (Fulfilled (VArchive a))
  ∧ module_persist (invoke (CallPersist a) (store m)) = None.
Proof.
  intros [Hslot Hpend _] Hrun. cbn [mrun mstep] in Hrun.
  assert (promises (invoke (CallPersist a) (store m)) !! p
          = Some (Fulfilled (VArchive a))
          ∧ module_persist (invoke (CallPersist a) (store m)) = None)
    as [Hp Hm].
  { simpl. rewrite Hslot. simpl. split; [|done]. by apply settle_pending. }
  split; [|done].
  by apply (mrun_stays ls (mkMachine (invoke (CallPersist a) (store m))
                             (stack m)) m' p _ Hp).
Qed.
End steps.

(** X13. If the module hands over an archive while the request of a
    [persist()] runs, and no handler has called [persist()] in between,
    the promise of that call holds the archive from then on, whatever
    follows: a second archive, a throw of [_packFsToBundle()], or calls
    from handlers.  The first [resolve] wins. *)
Theorem persist_first_archive_wins `{Serializer} (start : Z)
  (ls0 pre post : list label) (m0 m1 m2 : Machine) (a : list Byte.byte) :
  mrun ls0 (fresh start) = Some m0 →
  persistPromise (store m0) = None →
  let p := length (promises (store m0)) in
  mrun pre (enterPersist m0) = Some m1 →
  HostPersist ∉ pre → (∀ a', Callback (CallPersist a') ∉ pre) →
  InPersist p ∈ stack m1 →
  mrun (Callback (CallPersist a) :: post) m1 = Some m2 →
  promises (store m2) !! p = Some (Fulfilled (VArchive a)).
Proof.
  intros Hreach Hkept p Hpre Hhp Hcp Hin Hpost.
  assert (Sound m0) as Hsound by exact (Sound_run _ _ _ (Sound_fresh _) Hreach).
  assert (Sound (enterPersist m0)) as Hsound'
    by exact (Sound_step HostPersist m0 _ Hsound eq_refl).
  pose proof (Awaited_enter m0 (proj1 Hsound) Hkept) as Haw.
  pose proof (Awaited_body pre p _ m1 Hsound' Haw Hpre Hhp Hcp Hin) as Haw1.
  by destruct (Awaited_deliver p a post m1 m2 Haw1 Hpost).
Qed.

Lemma persist_first_archive_wins_witness :
  ∃ m2,
    mrun (H := joinArgs)
      (Callback (CallPersist [Byte.x01])
         :: [Callback (CallPersist [Byte.x02]);
             Returns (Some (ModuleError 3)); HostPersist; Job])
      (mkMachine
         (invoke (H := joinArgs) (CallLog ["packing"])
            (store (enterPersist (fresh 0))))
         (stack (enterPersist (fresh 0)))) = Some m2
    ∧ promises (store m2) !! 0%nat
      = Some (Fulfilled (VArchive [Byte.x01])).
Proof.
  eexists. split; [by vm_compute|].
  eapply (persist_first_archive_wins (H := joinArgs) 0 []
           [Callback (CallLog ["packing"])]
           [Callback (CallPersist [Byte.x02]);
            Returns (Some (ModuleError 3)); HostPersist; Job]
           (fresh 0) _ _ [Byte.x01]).
  - reflexivity.
  - reflexivity.
  - reflexivity.
  - intros Hin. apply list_elem_of_In in Hin. simpl in Hin.
    destruct Hin as [Hin|[]]. discriminate Hin.
  - intros a' Hin. apply list_elem_of_In in Hin. simpl in Hin.
    destruct Hin as [Hin|[]]. discriminate Hin.
  - vm_compute. by left.
  - by vm_compute.
Defined.

(** X14. If the request of a [persist()] returns without the module having
    handed over an archive and without a handler having called [persist()]
    meanwhile, the promise of that call is pending and its closure waits on
    the module for as long as the module hands over none, whatever else
    happens; the first archive the module then hands over fulfils the
    promise for good and removes the closure. *)
Theorem persist_archive_arrives_later `{Serializer} (start : Z)
  (ls0 body mid post : list label) (m0 m1 m2 m3 : Machine)
  (rest : list frame) (a : list Byte.byte) :
  mrun ls0 (fresh start) = Some m0 →
  persistPromise (store m0) = None →
  let p := length (promises (store m0)) in
  mrun body (enterPersist m0) = Some m1 →
  HostPersist ∉ body → (∀ a', Callback (CallPersist a') ∉ body) →
  stack m1 = InPersist p :: rest →
  mrun (Returns None :: mid) m1 = Some m2 →
  (∀ a', Callback (CallPersist a') ∉ mid) →
  mrun (Callback (CallPersist a) :: post) m2 = Some m3 →
  promises (store m2) !! p = Some Pending
  ∧ module_persist (store m2) = Some p
  ∧ promises (store m3) !! p = Some (Fulfilled (VArchive a))
  ∧ module_persist (invoke (CallPersist a) (store m2)) = None.
Proof.
  intros Hreach Hkept p Hbody Hhp Hcp Hst Hmid Hcp' Hpost.
  assert (Sound m0) as Hsound by exact (Sound_run _ _ _ (Sound_fresh _) Hreach).
  assert (Sound (enterPersist m0)) as Hsound'
    by exact (Sound_step HostPersist m0 _ Hsound eq_refl).
  pose proof (Awaited_enter m0 (proj1 Hsound) Hkept) as Haw.
  assert (Awaited p m1) as Haw1.
  { apply (Awaited_body body p _ m1 Hsound' Haw Hbody Hhp Hcp).
    rewrite Hst. by left. }
  pose proof (Sound_run _ _ _ Hsound' Hbody) as [_ Hnd].
  rewrite Hst in Hnd. apply NoDup_cons in Hnd as [Hout _].
  cbn [mrun mstep] in Hmid. rewrite Hst in Hmid.
  set (m1' := mkMachine (leavePersist p None (store m1)) rest) in *.
  assert (Awaited p m1') as Haw1'.
  { apply (Awaited_step p (Returns None) m1 m1' Haw1).
    - cbn [mstep]. by rewrite Hst.
    - by intros a'.
    - by intros.
    - by intros e rest'. }
  assert (Awaited p m2) as Haw2.
  { apply (Awaited_after mid p m1' m2 Haw1'); [by eexists|done..]. }
  destruct (Awaited_deliver p a post m2 m3 Haw2 Hpost) as [Hp Hm].
  split_and!; [apply Haw2|apply Haw2|done..].
Qed.

Lemma persist_archive_arrives_later_witness :
  ∃ m2 m3,
    mrun (H := joinArgs)
      (Returns None :: [HostExit; Callback CallExit; Returns None; Job;
                        HostPersist])
      (mkMachine
         (invoke (H := joinArgs) (CallLog ["packing"])
            (store (enterPersist (fresh 0))))
         (stack (enterPersist (fresh 0)))) = Some m2
    ∧ mrun (H := joinArgs) (Callback (CallPersist [Byte.x02]) :: [Job]) m2
      = Some m3
    ∧ promises (store m2) !! 0%nat = Some Pending
    ∧ module_persist (store m2) = Some 0%nat
    ∧ promises (store m3) !! 0%nat = Some (Fulfilled (VArchive [Byte.x02]))
    ∧ module_persist
        (invoke (H := joinArgs) (CallPersist [Byte.x02]) (store m2)) = None.
Proof.
  eexists _, _. split; [by vm_compute|]. split; [by vm_compute|].
  eapply (persist_archive_arrives_later (H := joinArgs) 0 []
           [Callback (CallLog ["packing"])]
           [HostExit; Callback CallExit; Returns None; Job; HostPersist]
           [Job] (fresh 0) _ _ _ [] [Byte.x02]).
  - reflexivity.
  - reflexivity.
  - reflexivity.
  - intros Hin. apply list_elem_of_In in Hin. simpl in Hin.
    destruct Hin as [Hin|[]]. discriminate Hin.
  - intros a' Hin. apply list_elem_of_In in Hin. simpl in Hin.
    destruct Hin as [Hin|[]]. discriminate Hin.
  - reflexivity.
  - by vm_compute.
  - intros a' Hin. apply list_elem_of_In in Hin. simpl in Hin.
    repeat (destruct Hin as [Hin|Hin]; [discriminate Hin|]). done.
  - by vm_compute.
Defined.

(** ** The stages of an exit *)

Section exit_calls.
Context `{Serializer}.
Implicit Types (m : Machine) (w : World) (l : label) (ls : list label).
Implicit Types (P : pstate → Prop) (p q d : nat) (s : pstate).
Local Open Scope nat_scope.

Lemma fired_emit o w :
  o ≠ FireExit → FireExit ∈ trace (emit o w) ↔ FireExit ∈ trace w.
Proof. intros Ho. cbn [emit trace]. set_solver. Qed.

Lemma fired_settle p s w :
  FireExit ∈ trace (settle p s w) ↔ FireExit ∈ trace w.
Proof.
  unfold settle. destruct (promises w !! p) as [[]|]; try done.
  by rewrite fired_emit.
Qed.

Lemma ExitStage_frame P q d w w' :
  promises w' !! q = promises w !! q →
  promises w' !! d = promises w !! d →
  reactions w' = reactions w → microtasks w' = microtasks w →
  (FireExit ∈ trace w' ↔ FireExit ∈ trace w) →
  ExitStage P q d w → ExitStage P q d w'.
Proof.
  intros Hq Hd Hr Hm Hf
    [Hq0 Hd0 Hr0 Hm0 Hf0|s Hs Hq0 Hne Hd0 Hr0 Hm0 Hf0
     |s Hs Hq0 Hne Hd0 Hr0 Hm0 Hf0].
  - apply Requested; [congruence..|]. intros Hin. by apply Hf0, Hf.
  - apply (Queued P q d w' s); [done|congruence|done|congruence..|].
    intros Hin. by apply Hf0, Hf.
  - apply (Finished P q d w' s); [done|congruence|done|congruence..|].
    by rewrite Hf.
Qed.

Lemma ExitStage_emit P q d o w :
  o ≠ FireExit → ExitStage P q d w → ExitStage P q d (emit o w).
Proof.
  intros Ho. apply ExitStage_frame; [done..|]. by apply fired_emit.
Qed.

(** Settling a promise that is neither the inner nor the derived one. *)
Lemma ExitStage_settle_other P q d p s w :
  p ≠ q → p ≠ d → ExitStage P q d w → ExitStage P q d (settle p s w).
Proof.
  intros Hpq Hpd Hst.
  assert (reactions (settle p s w) = reactions w
          ∧ microtasks (settle p s w) = microtasks w) as [Hr Hm].
  { unfold settle. destruct (promises w !! p) as [[]|]; try done.
    cbn [emit reactions microtasks set_microtasks set_reactions].
    destruct Hst as [_ _ Hr _ _|s' _ _ _ _ Hr _ _|s' _ _ _ _ Hr _ _];
      rewrite Hr; [|by rewrite app_nil_r..].
    rewrite filter_cons_True by (simpl; congruence).
    rewrite filter_cons_False by (simpl; congruence).
    by rewrite app_nil_r. }
  apply (ExitStage_frame P q d w); [| |done..|apply fired_settle|done];
    by apply settle_lookup_ne.
Qed.

(** The inner promise settles. *)
Lemma ExitStage_settle_inner P q d s w :
  (promises w !! q = Some Pending → P s) → s ≠ Pending → q ≠ d →
  ExitStage P q d w → ExitStage P q d (settle q s w).
Proof.
  intros Hs Hne Hqd
    [Hq0 Hd0 Hr0 Hm0 Hf0|s' Hs' Hq0 Hne' Hd0 Hr0 Hm0 Hf0
     |s' Hs' Hq0 Hne' Hd0 Hr0 Hm0 Hf0].
  - apply (Queued P q d _ s); [by apply Hs| |done| | | |].
    + by apply settle_pending.
    + by rewrite settle_lookup_ne.
    + unfold settle. rewrite Hq0. cbn [emit reactions set_microtasks
        set_reactions]. rewrite Hr0.
      by rewrite filter_cons_False by (simpl; tauto).
    + unfold settle. rewrite Hq0. cbn [emit microtasks set_microtasks].
      rewrite Hr0, Hm0. by rewrite filter_cons_True by done.
    + by rewrite fired_settle.
  - assert (settle q s w = w) as ->; [|by apply (Queued P q d w s')].
    unfold settle. rewrite Hq0. by destruct s'.
  - assert (settle q s w = w) as ->; [|by apply (Finished P q d w s')].
    unfold settle. rewrite Hq0. by destruct s'.
Qed.

Lemma ExitStage_invoke P q d c w :
  (promises w !! q = Some Pending → P (Fulfilled VUndefined)) →
  q ≠ d → module_exit w = Some q →
  module_persist w ≠ Some q → module_persist w ≠ Some d →
  ExitStage P q d w → ExitStage P q d (invoke c w).
Proof.
  intros HP Hqd He Hpq Hpd Hst.
  destruct c as [a|a|a|a|a|a|]; simpl;
    unfold logFn, warnFn, errFn, startupErrFn, fireMessage;
    try (by apply ExitStage_emit).
  - destruct (module_err w); [|by apply ExitStage_emit].
    apply (ExitStage_frame P q d
             (emit (FireMessage ErrorLevel a) (emit (ConsoleError a) w)));
      [done..|].
    apply ExitStage_emit; [done|]. by apply ExitStage_emit.
  - destruct (module_err w); [|by apply ExitStage_emit].
    apply (ExitStage_frame P q d
             (emit (FireMessage ErrorLevel a) (emit (ConsoleError a) w)));
      [done..|].
    apply ExitStage_emit; [done|]. by apply ExitStage_emit.
  - destruct (module_persist w) as [p|] eqn:Hm; [|done].
    apply (ExitStage_frame P q d
             (settle p (Fulfilled (VArchive a))
                (emit (PersistCallback a) w))); [done..|].
    apply ExitStage_settle_other; [congruence..|].
    by apply ExitStage_emit.
  - rewrite He. apply ExitStage_settle_inner; [done|done|done|].
    by apply ExitStage_emit.
Qed.

Lemma ExitStage_runMicrotask P q d w :
  q ≠ d → ExitStage P q d w →
  ExitStage P q d (runMicrotask w)
  ∧ (promises w !! q ≠ Some Pending → microtasks (runMicrotask w) = []).
Proof.
  intros Hqd Hst. unfold runMicrotask.
  destruct Hst as [Hq0 Hd0 Hr0 Hm0 Hf0|s Hs Hq0 Hne Hd0 Hr0 Hm0 Hf0
                   |s Hs Hq0 Hne Hd0 Hr0 Hm0 Hf0].
  - rewrite Hm0. split; [by apply Requested|]. by rewrite Hq0.
  - rewrite Hm0. unfold runJob, fireExit.
    change (promises (set_microtasks [] w)) with (promises w).
    cbn [fst snd]. rewrite Hq0.
    assert (∀ s' w', promises w' = promises w → reactions w' = [] →
              microtasks w' = [] →
              promises (settle d s' w') !! q = Some s
              ∧ promises (settle d s' w') !! d = Some s'
              ∧ reactions (settle d s' w') = []
              ∧ microtasks (settle d s' w') = []) as Hsettle.
    { intros s' w' Hp Hr Hm. split_and!.
      - rewrite settle_lookup_ne by done. by rewrite Hp.
      - apply settle_pending. by rewrite Hp.
      - unfold settle. rewrite Hp, Hd0.
        cbn [emit reactions set_microtasks set_reactions]. by rewrite Hr.
      - unfold settle. rewrite Hp, Hd0.
        cbn [emit microtasks set_microtasks]. by rewrite Hr, Hm. }
    destruct s as [|v|e]; [done|..].
    + destruct (Hsettle (Fulfilled VUndefined)
                  (emit FireExit (set_microtasks [] w)))
        as (Hq1 & Hd1 & Hr1 & Hm1); [done..|].
      split; [|done].
      apply (Finished P q d _ (Fulfilled v)); [done..|].
      rewrite fired_settle. cbn [emit trace set_microtasks].
      split; [by eexists|]. intros _. set_solver.
    + destruct (Hsettle (Rejected e) (set_microtasks [] w))
        as (Hq1 & Hd1 & Hr1 & Hm1); [done..|].
      split; [|done].
      apply (Finished P q d _ (Rejected e)); [done..|].
      rewrite fired_settle. cbn [trace set_microtasks].
      split; [done|]. by intros [v ?].
  - rewrite Hm0. split; [by apply (Finished P q d w s)|done].
Qed.

Lemma ExitStage_issue P q d cmd w :
  ExitStage P q d w → ExitStage P q d (issue cmd w).
Proof.
  destruct (issue_backstage cmd w) as (Hb & _ & evs & Ht & Hall).
  injection Hb as _ _ Hp Hr Hm _ _ _ _.
  apply ExitStage_frame; [by rewrite Hp..|done|done|].
  rewrite Ht, elem_of_app. split; [|by left].
  intros [Hin|Hin]; [done|].
  by pose proof (proj1 (Forall_forall _ _) Hall _ Hin).
Qed.

Lemma ExitStage_allocated P q d w :
  ExitStage P q d w → q < length (promises w) ∧ d < length (promises w).
Proof.
  intros [Hq Hd _ _ _|s _ Hq _ Hd _ _ _|s _ Hq _ Hd _ _ _];
    split; by eapply lookup_lt_Some.
Qed.

(** *** While the request of [exit()] runs *)

Lemma exitFrames_elem_of q st : InExit q ∈ st ↔ q ∈ exitFrames st.
Proof.
  unfold exitFrames. rewrite list_elem_of_omap. split.
  - intros Hin. by exists (InExit q).
  - intros ([p|q'] & Hin & [=]). by subst.
Qed.

Lemma Running_enter m :
  Sound m → Counted m → exitPromise (store m) = None →
  exitFrames (stack m) = [] →
  Running (length (promises (store m))) (enterExit m).
Proof.
  intros [Hall _] [Hcount _] Hkept Hframes.
  unfold enterExit. rewrite Hkept. constructor; cbn [store stack].
  - done.
  - done.
  - unfold exitFrames in *. cbn [omap list_omap]. by rewrite Hframes.
  - rewrite count_emit. cbn [trace set_module_exit newPromise set_promises].
    by rewrite (Hcount Hkept), Hframes.
  - intros [Hn|Hn]; cbn [store stack] in Hn.
    + specialize (Hall _ (or_introl (or_introl Hn))). lia.
    + apply elem_of_cons in Hn as [|Hn]; [done|].
      specialize (Hall _ (or_introl (or_intror Hn))). lia.
  - left. simpl. rewrite lookup_app_r by done. by rewrite Nat.sub_diag.
Qed.

Lemma Running_step q l m m' :
  Running q m → mstep l m = Some m' → l ≠ HostExit →
  (Running q m'
   ∧ (l ≠ Callback CallExit →
      promises (store m') !! q = promises (store m) !! q)
   ∧ (l = Callback CallExit →
      promises (store m') !! q = Some (Fulfilled VUndefined)))
  ∨ (∃ t rest, l = Returns t ∧ stack m = InExit q :: rest
     ∧ exitFrames rest = []
     ∧ m' = mkMachine (leaveExit q t (store m)) rest).
Proof.
  intros [Hslot Hkept Hframes Hreq Hfree Hinner] Hstep Hne.
  assert (q < length (promises (store m))) as Hlt
    by (destruct Hinner; by eapply lookup_lt_Some).
  destruct (exit_side l m m' Hstep)
    as [(Hkept' & Hslot' & Hreq' & Hframes' & _)
       |[(-> & _)|(t & q' & rest & -> & Hst & ->)]]; [|done|].
  - left.
    assert (¬ persistNamed m' q) as Hfree'.
    { intros Hn. destruct (persistNamed_step l m m' q Hstep Hn)
        as [?|[-> _]]; [done|lia]. }
    assert (l = Callback CallExit ∨ l ≠ Callback CallExit) as [->|Hl].
    { destruct l as [| | | |[]|]; (by left) || (by right). }
    + cbn [mstep] in Hstep. injection Hstep as <-. cbn [store] in *.
      assert (promises (invoke CallExit (store m)) !! q
              = Some (Fulfilled VUndefined)) as Hq.
      { simpl. rewrite Hslot.
        destruct Hinner as [Hp|Hp];
          [by apply settle_pending|by apply settle_stays]. }
      split_and!; [|done|done].
      constructor; cbn [store stack]; [congruence..|done|by right].
    + assert (promises (store m') !! q = promises (store m) !! q) as Hq.
      { apply (lookup_step l m m' q Hstep Hlt).
        - intros a _ Hm. apply Hfree. by left.
        - by intros ->.
        - intros e f rest -> Hst. split.
          + intros ->. apply Hfree. right. rewrite Hst. by left.
          + intros ->. cbn [mstep] in Hstep. rewrite Hst in Hstep.
            injection Hstep as <-. cbn [stack] in Hframes'.
            rewrite Hst in Hframes'. unfold exitFrames in Hframes'.
            cbn [omap list_omap] in Hframes'.
            apply (f_equal length) in Hframes'. simpl in Hframes'. lia.
        - intros j rest -> _. cbn [mstep] in Hstep.
          destruct (stack m); [|done]. done. }
      split_and!; [|done|done].
      constructor; [congruence..|done|by rewrite Hq].
  - right. rewrite Hst in Hframes. unfold exitFrames in Hframes.
    cbn [omap list_omap] in Hframes. injection Hframes as -> Hrest.
    by eexists _, _.
Qed.

Lemma Running_body body q m m1 :
  Running q m → mrun body m = Some m1 → HostExit ∉ body →
  InExit q ∈ stack m1 →
  Running q m1
  ∧ (Callback CallExit ∉ body →
     promises (store m1) !! q = promises (store m) !! q)
  ∧ (Callback CallExit ∈ body →
     promises (store m1) !! q = Some (Fulfilled VUndefined)).
Proof.
  revert m. induction body as [|l body IH];
    intros m Hrunning Hrun Hhe Hin; simpl in Hrun.
  - injection Hrun as <-. split_and!; [done..|].
    by intros ?%elem_of_nil.
  - destruct (mstep l m) as [m'|] eqn:Hstep; [|done].
    assert (q < length (promises (store m))) as Hlt
      by (destruct (run_inner q m Hrunning); by eapply lookup_lt_Some).
    destruct (Running_step q l m m' Hrunning Hstep)
      as [(Hrunning' & Hsame & Hconf)|(t & rest & -> & Hst & Hrest & ->)].
    + intros ->. apply Hhe. by left.
    + destruct (IH m' Hrunning' Hrun) as (Hrunning1 & Hsame1 & Hconf1);
        [intros ?; apply Hhe; by right|done|].
      split_and!; [done| |].
      * intros Hout. rewrite Hsame1 by (intros ?; apply Hout; by right).
        apply Hsame. intros ->. apply Hout. by left.
      * intros [<-|Hin']%elem_of_cons; [|by apply Hconf1].
        apply (mrun_stays body m' m1 q _ (Hconf eq_refl)); done.
    + exfalso.
      apply (frame_gone_run body _ m1 (InExit q) Hrun); [| |done].
      * cbn [store]. rewrite (proj2 (proj2 (proj2
          (leaveExit_world _ _ _)))), length_app, leave_length. lia.
      * cbn [stack]. rewrite exitFrames_elem_of, Hrest.
        by intros ?%elem_of_nil.
Qed.

(** *** When the request of [exit()] has returned *)

Lemma Kept_leave P q t rest m :
  Running q m → Sound m → ExitPaid m → stack m = InExit q :: rest →
  (∀ s, promises match t with
                 | Some e => settle q (Rejected e) (store m)
                 | None => store m
                 end !! q = Some s → s ≠ Pending → P s) →
  Kept P q (length (promises (store m)))
    (mkMachine (leaveExit q t (store m)) rest).
Proof.
  intros [Hslot Hkept Hframes Hreq Hfree Hinner] [Hall _] Hpaid Hst HP.
  assert (q < length (promises (store m))) as Hlt
    by (destruct Hinner; by eapply lookup_lt_Some).
  unfold ExitPaid, exitBudget in Hpaid. rewrite Hframes, Hreq in Hpaid.
  simpl in Hpaid.
  assert (reactions (store m) = []) as Hr
    by (apply length_zero_iff_nil; lia).
  assert (microtasks (store m) = []) as Hm
    by (apply length_zero_iff_nil; lia).
  assert (FireExit ∉ trace (store m)) as Hf.
  { intros Hin. pose proof (count_elem_of isFireExit _ _ Hin eq_refl).
    lia. }
  set (w3 := match t with
             | Some e => settle q (Rejected e) (store m)
             | None => store m
             end) in *.
  assert (reactions w3 = [] ∧ microtasks w3 = []
          ∧ (FireExit ∉ trace w3)
          ∧ length (promises w3) = length (promises (store m)))
    as (Hr3 & Hm3 & Hf3 & Hlen3).
  { subst w3. destruct t as [e|]; [|done].
    split_and!; [| |by rewrite fired_settle|apply settle_length].
    - unfold settle. destruct (promises (store m) !! q) as [[]|];
        try done. cbn [emit reactions set_microtasks set_reactions].
      by rewrite Hr.
    - unfold settle. destruct (promises (store m) !! q) as [[]|];
        try done. cbn [emit microtasks set_microtasks]. by rewrite Hr, Hm. }
  destruct (leaveExit_world q t (store m)) as (Hkept' & Hslot' & Hreq' & Hp').
  fold w3 in Hp'.
  assert (is_Some (promises w3 !! q)) as [s Hs]
    by (apply lookup_lt_is_Some; lia).
  constructor; cbn [store stack].
  - by rewrite Hslot'.
  - done.
  - rewrite Hst in Hframes. unfold exitFrames in Hframes.
    cbn [omap list_omap] in Hframes. by injection Hframes.
  - by rewrite Hreq'.
  - lia.
  - intros [Hn|Hn]; cbn [store stack] in Hn; apply Hfree.
    + left. unfold leaveExit in Hn. cbn [module_persist set_exitPromise] in Hn.
      by rewrite (proj1 (slots_then _ _)), (proj1 (slots_leave _ _ _)) in Hn.
    + right. rewrite Hst. by right.
  - intros [Hn|Hn]; cbn [store stack] in Hn.
    + unfold leaveExit in Hn. cbn [module_persist set_exitPromise] in Hn.
      rewrite (proj1 (slots_then _ _)), (proj1 (slots_leave _ _ _)) in Hn.
      specialize (Hall _ (or_introl (or_introl Hn))). lia.
    + assert (InPersist (length (promises (store m))) ∈ stack m) as Hn'
        by (rewrite Hst; by right).
      specialize (Hall _ (or_introl (or_intror Hn'))). lia.
  - assert (promises (leaveExit q t (store m)) !! q = Some s) as Hq'
      by (rewrite Hp'; by apply lookup_app_l_Some).
    assert (promises (leaveExit q t (store m))
              !! length (promises (store m)) = Some Pending) as Hd'.
    { rewrite Hp', lookup_app_r by lia. by rewrite Hlen3, Nat.sub_diag. }
    assert (FireExit ∉ trace (leaveExit q t (store m))) as Hf'.
    { unfold leaveExit. cbn [trace set_exitPromise]. fold w3.
      by rewrite trace_then. }
    assert (promises (newPromise w3) !! q = Some s) as Hnew
      by by apply lookup_app_l_Some.
    assert (s = Pending ∨ s ≠ Pending) as [->|Hne]
      by (destruct s; (by left) || (by right)).
    + apply Requested; [done..| | |done].
      * unfold leaveExit. fold w3. cbn [reactions set_exitPromise].
        unfold then_fireExit. rewrite Hnew.
        cbn [reactions set_reactions newPromise set_promises].
        by rewrite Hr3, Hlen3.
      * unfold leaveExit. fold w3. cbn [microtasks set_exitPromise].
        unfold then_fireExit. rewrite Hnew. done.
    + apply (Queued P q _ _ s); [by apply HP|done..| | |done].
      * unfold leaveExit. fold w3. cbn [reactions set_exitPromise].
        unfold then_fireExit. rewrite Hnew. by destruct s.
      * unfold leaveExit. fold w3. cbn [microtasks set_exitPromise].
        unfold then_fireExit. rewrite Hnew.
        destruct s; [done|..];
          cbn [microtasks set_microtasks newPromise set_promises];
          by rewrite Hm3, Hlen3.
Qed.

Lemma Kept_step P q d l m m' :
  Kept P q d m → mstep l m = Some m' →
  (promises (store m) !! q = Some Pending → P (Fulfilled VUndefined)) →
  Kept P q d m'.
Proof.
  intros [Hslot Hkept Hframes Hreq Hqd Hfq Hfd Hst] Hstep HP.
  destruct (ExitStage_allocated P q d _ Hst) as [Hltq Hltd].
  assert (¬ persistNamed m' q ∧ ¬ persistNamed m' d) as [Hfq' Hfd'].
  { split; intros Hn;
      destruct (persistNamed_step l m m' _ Hstep Hn) as [?|[-> _]];
      done || lia. }
  destruct (exit_side l m m' Hstep)
    as [(Hkept' & Hslot' & Hreq' & Hframes' & _)
       |[(_ & Hnone & _)|(t & q' & rest & _ & Hstack & _)]].
  - constructor; [congruence..|done|done|done|].
    clear Hkept' Hslot' Hreq' Hframes' Hfq' Hfd'.
    destruct l as [c now| | |t|c|]; cbn [mstep] in Hstep.
    + injection Hstep as <-. by apply ExitStage_issue.
    + injection Hstep as <-. unfold enterPersist.
      destruct (persistPromise (store m)); [done|]. cbn [store].
      apply ExitStage_emit; [done|].
      apply (ExitStage_frame P q d (store m)); [| |done..];
        simpl; by apply lookup_app_l.
    + injection Hstep as <-. unfold enterExit. by rewrite Hkept.
    + destruct (stack m) as [|[p|q'] rest] eqn:Hstack; [done|..];
        injection Hstep as <-; cbn [store].
      * assert (p ≠ q ∧ p ≠ d) as [Hpq Hpd].
        { split; intros ->; [apply Hfq|apply Hfd]; right;
            rewrite Hstack; by left. }
        unfold leavePersist.
        apply (ExitStage_frame P q d
                 match t with
                 | Some e => settle p (Rejected e) (store m)
                 | None => store m
                 end); [done..|].
        destruct t; [by apply ExitStage_settle_other|done].
      * unfold exitFrames in Hframes. by cbn [omap list_omap] in Hframes.
    + injection Hstep as <-. cbn [store].
      apply ExitStage_invoke; try done.
      * intros Hm. apply Hfq. by left.
      * intros Hm. apply Hfd. by left.
    + destruct (stack m); [|done]. injection Hstep as <-. cbn [store].
      by apply ExitStage_runMicrotask.
  - congruence.
  - rewrite Hstack in Hframes. unfold exitFrames in Hframes.
    by cbn [omap list_omap] in Hframes.
Qed.

Lemma Kept_run P q d ls m m' :
  Kept P q d m → mrun ls m = Some m' →
  P (Fulfilled VUndefined)
  ∨ (∃ s, promises (store m) !! q = Some s ∧ s ≠ Pending) →
  Kept P q d m'.
Proof.
  revert m. induction ls as [|l ls IH]; intros m Hkept Hrun HP;
    simpl in Hrun.
  - by injection Hrun as <-.
  - destruct (mstep l m) as [m1|] eqn:Hstep; [|done].
    apply (IH m1); [|done|].
    + apply (Kept_step P q d l m m1 Hkept Hstep).
      intros Hq. destruct HP as [?|(s & Hs & Hne)]; [done|congruence].
    + destruct HP as [?|(s & Hs & Hne)]; [by left|right].
      exists s. split; [|done]. by eapply mstep_stays.
Qed.
End exit_calls.

(** ** An [exit()] that no handler calls into *)

Section exit_scenario.
Context `{Serializer}.
Implicit Types (m : Machine) (w : World) (l : label) (ls : list label).
Implicit Types (P : pstate → Prop) (p q d : nat) (s : pstate).
Local Open Scope nat_scope.

Lemma confirm_dec ls : Callback CallExit ∈ ls ∨ Callback CallExit ∉ ls.
Proof.
  induction ls as [|l ls [IH|IH]].
  - right. by intros ?%elem_of_nil.
  - left. by right.
  - assert (l = Callback CallExit ∨ l ≠ Callback CallExit) as [->|Hl].
    { destruct l as [| | | |[]|]; (by left) || (by right). }
    + left. by left.
    + right. by intros [?|?]%elem_of_cons.
Qed.

(** The first [exit()] of an interface, from the call to the return of
    its request, when no handler called [exit()] meanwhile. *)
Lemma exit_call_returns P start ls0 body t m0 m1 rest :
  let q := length (promises (store m0)) in
  let d := length (promises (store m1)) in
  mrun ls0 (fresh start) = Some m0 →
  exitPromise (store m0) = None → exitFrames (stack m0) = [] →
  mrun body (enterExit m0) = Some m1 → HostExit ∉ body →
  stack m1 = InExit q :: rest →
  (Callback CallExit ∈ body → P (Fulfilled VUndefined)) →
  (Callback CallExit ∉ body → ∀ e, t = Some e → P (Rejected e)) →
  Kept P q d (mkMachine (leaveExit q t (store m1)) rest)
  ∧ (Callback CallExit ∈ body →
     promises (leaveExit q t (store m1)) !! q
     = Some (Fulfilled VUndefined))
  ∧ (Callback CallExit ∉ body →
     promises (leaveExit q t (store m1)) !! q
     = Some match t with Some e => Rejected e | None => Pending end).
Proof.
  intros q d Hreach Hkept Hframes Hbody Hhe Hst Hin Hout.
  assert (Sound m0) as Hsound
    by exact (Sound_run _ _ _ (Sound_fresh _) Hreach).
  assert (Counted m0) as Hcounted
    by exact (Counted_run _ _ _ (Counted_fresh _) Hreach).
  assert (mrun (ls0 ++ HostExit :: body) (fresh start) = Some m1) as Hreach1.
  { apply mrun_app. exists m0. split; [done|]. by cbn [mrun mstep]. }
  assert (Sound m1) as Hsound1
    by exact (Sound_run _ _ _ (Sound_fresh _) Hreach1).
  assert (ExitPaid m1) as Hpaid1
    by exact (ExitPaid_run _ _ _ (ExitPaid_fresh _) Hreach1).
  pose proof (Running_enter m0 Hsound Hcounted Hkept Hframes) as Hrun0.
  fold q in Hrun0.
  assert (promises (store (enterExit m0)) !! q = Some Pending) as Hq0.
  { unfold enterExit. rewrite Hkept. simpl.
    rewrite lookup_app_r by done. by rewrite Nat.sub_diag. }
  destruct (Running_body body q _ m1 Hrun0 Hbody Hhe)
    as (Hrun1 & Hsame & Hconf); [rewrite Hst; by left|].
  rewrite Hq0 in Hsame.
  assert (q < length (promises (store m1))) as Hlt.
  { destruct (run_inner q m1 Hrun1); by eapply lookup_lt_Some. }
  set (w3 := match t with
             | Some e => settle q (Rejected e) (store m1)
             | None => store m1
             end).
  assert ((Callback CallExit ∈ body →
           promises w3 !! q = Some (Fulfilled VUndefined))
          ∧ (Callback CallExit ∉ body →
             promises w3 !! q
             = Some match t with Some e => Rejected e | None => Pending end))
    as [Hq3 Hq3'].
  { subst w3. split; intros Hc.
    - destruct t; [apply settle_stays|]; by auto.
    - destruct t; [apply settle_pending|]; by auto. }
  assert (length (promises w3) = length (promises (store m1))) as Hlen3.
  { subst w3. destruct t; [apply settle_length|done]. }
  destruct (leaveExit_world q t (store m1)) as (_ & _ & _ & Hp').
  fold w3 in Hp'.
  split_and!.
  - apply (Kept_leave P q t rest m1 Hrun1 Hsound1 Hpaid1 Hst).
    fold w3. intros s Hs Hne.
    destruct (confirm_dec body) as [Hc|Hc].
    + rewrite (Hq3 Hc) in Hs. injection Hs as <-. by apply Hin.
    + rewrite (Hq3' Hc) in Hs. injection Hs as <-.
      destruct t; [by eapply Hout|done].
  - intros Hc. rewrite Hp'. apply lookup_app_l_Some. by apply Hq3.
  - intros Hc. rewrite Hp'. apply lookup_app_l_Some. by apply Hq3'.
Qed.

(** Once the inner promise has settled, the first job settles the derived
    promise accordingly. *)
Lemma Kept_job P q d pre post m m' :
  Kept P q d m → mrun (pre ++ Job :: post) m = Some m' →
  (∃ s, promises (store m) !! q = Some s ∧ s ≠ Pending) →
  ∃ s, P s ∧ promises (store m') !! q = Some s ∧ s ≠ Pending
       ∧ promises (store m') !! d = Some (derived s).
Proof.
  intros Hkept Hrun (s & Hs & Hne).
  apply mrun_app in Hrun as (ma & Hpre & Hrun). cbn [mrun] in Hrun.
  destruct (mstep Job ma) as [mb|] eqn:Hjob; [|done].
  assert (Kept P q d ma) as Hka.
  { apply (Kept_run P q d pre m ma Hkept Hpre). right. by exists s. }
  pose proof (mrun_stays pre m ma q s Hs Hne Hpre) as Hsa.
  assert (Kept P q d mb) as Hkb.
  { apply (Kept_step P q d Job ma mb Hka Hjob). congruence. }
  pose proof (mstep_stays Job ma mb q s Hsa Hne Hjob) as Hsb.
  cbn [mstep] in Hjob. destruct (stack ma); [|done].
  injection Hjob as <-. cbn [store] in *.
  destruct (ExitStage_runMicrotask P q d (store ma)
              (kept_distinct P q d ma Hka) (kept_stage P q d ma Hka))
    as [Hst Hm]. specialize (Hm ltac:(congruence)).
  assert (∃ s', P s' ∧ promises (runMicrotask (store ma)) !! q = Some s'
                ∧ s' ≠ Pending
                ∧ promises (runMicrotask (store ma)) !! d
                  = Some (derived s')) as (s' & HP & Hq' & Hne' & Hd').
  { destruct Hst as [Hq _ _ _ _|s' _ _ _ _ _ Hm' _|s' HP Hq' Hne' Hd' _ _ _].
    - congruence.
    - congruence.
    - by exists s'. }
  exists s'. split_and!; [done| |done|].
  - by apply (mrun_stays post (mkMachine _ []) m' q s' Hq' Hne' Hrun).
  - apply (mrun_stays post (mkMachine _ []) m' d (derived s') Hd');
      [|done]. by destruct s'.
Qed.
End exit_scenario.

(** C10 (amended). If [_requestExit()] throws during the first [exit()],
    the module has not invoked the termination callback before the throw,
    and no handler has called [exit()] while the request ran, then however
    the interface is used afterwards: the promise the call returned is
    kept and every later [exit()] returns it without another request to
    the module, the request was sent exactly once, no Exit event is ever
    fired, the promise is never fulfilled, and it is rejected with the
    thrown error as soon as the event loop has run a job. *)
Theorem exit_sync_throw_rejects `{Serializer} (start : Z)
  (ls0 body ls2 : list label) (e : err) (m0 m1 m2 : Machine)
  (rest : list frame) :
  let q := length (promises (store m0)) in
  let d := length (promises (store m1)) in
  mrun ls0 (fresh start) = Some m0 →
  exitPromise (store m0) = None → exitFrames (stack m0) = [] →
  mrun body (enterExit m0) = Some m1 →
  HostExit ∉ body → Callback CallExit ∉ body →
  stack m1 = InExit q :: rest →
  mrun (Returns (Some e) :: ls2) m1 = Some m2 →
  exitPromise (store m2) = Some d
  ∧ mstep HostExit m2 = Some m2
  ∧ count isRequestExit (trace (store m2)) = 1%nat
  ∧ (FireExit ∉ trace (store m2))
  ∧ (promises (store m2) !! d = Some Pending
     ∨ promises (store m2) !! d = Some (Rejected e))
  ∧ (Job ∈ ls2 → promises (store m2) !! d = Some (Rejected e)).
Proof.
  intros q d Hreach Hkept Hframes Hbody Hhe Hce Hst Hrun.
  set (P := fun s : pstate => s = Rejected e).
  destruct (exit_call_returns P start ls0 body (Some e) m0 m1 rest
              Hreach Hkept Hframes Hbody Hhe Hst)
    as (Hk & _ & Hq); [done|by intros _ e' [= ->]|].
  fold q d in Hk, Hq. specialize (Hq Hce).
  cbn [mrun mstep] in Hrun. rewrite Hst in Hrun.
  set (m1' := mkMachine (leaveExit q (Some e) (store m1)) rest) in *.
  assert (Kept P q d m2) as Hk2.
  { apply (Kept_run P q d ls2 m1' m2 Hk Hrun). right. by eexists. }
  assert (promises (store m2) !! q = Some (Rejected e)) as Hq2
    by by apply (mrun_stays ls2 m1' m2 q _ Hq).
  split_and!.
  - apply Hk2.
  - cbn [mstep]. unfold enterExit. by rewrite (kept_promise P q d m2 Hk2).
  - apply Hk2.
  - destruct (kept_stage P q d m2 Hk2)
      as [_ _ _ _ Hf|s _ _ _ _ _ _ Hf|s -> _ _ _ _ _ Hf]; [done..|].
    rewrite Hf. by intros [v [=]].
  - destruct (kept_stage P q d m2 Hk2)
      as [_ Hd _ _ _|s _ _ _ Hd _ _ _|s -> _ _ Hd _ _ _];
      [by left|by left|by right].
  - intros (pre & post & ->)%list_elem_of_split.
    destruct (Kept_job P q d pre post m1' m2 Hk Hrun)
      as (s & -> & _ & _ & Hd); [by eexists|done].
Qed.

Lemma exit_sync_throw_rejects_witness :
  ∃ m2,
    mrun (H := joinArgs)
      (Returns (Some (ModuleError 3))
         :: [Callback CallExit; Job; HostExit; Job])
      (mkMachine
         (invoke (H := joinArgs) (CallPrintErr ["abort"])
            (store (enterExit (fresh 0))))
         (stack (enterExit (fresh 0)))) = Some m2
    ∧ exitPromise (store m2) = Some 1%nat
    ∧ mstep (H := joinArgs) HostExit m2 = Some m2
    ∧ count isRequestExit (trace (store m2)) = 1%nat
    ∧ (FireExit ∉ trace (store m2))
    ∧ (promises (store m2) !! 1%nat = Some Pending
       ∨ promises (store m2) !! 1%nat = Some (Rejected (ModuleError 3)))
    ∧ (Job ∈ [Callback CallExit; Job; HostExit; Job] →
       promises (store m2) !! 1%nat = Some (Rejected (ModuleError 3))).
Proof.
  eexists _. split; [by vm_compute|].
  eapply (exit_sync_throw_rejects (H := joinArgs) 0 []
            [Callback (CallPrintErr ["abort"])]
            [Callback CallExit; Job; HostExit; Job] (ModuleError 3)
            (fresh 0)
            (mkMachine
               (invoke (H := joinArgs) (CallPrintErr ["abort"])
                  (store (enterExit (fresh 0))))
               (stack (enterExit (fresh 0)))) _ []).
  - reflexivity.
  - reflexivity.
  - reflexivity.
  - reflexivity.
  - intros Hin. apply list_elem_of_In in Hin. simpl in Hin.
    destruct Hin as [Hin|[]]. discriminate Hin.
  - intros Hin. apply list_elem_of_In in Hin. simpl in Hin.
    destruct Hin as [Hin|[]]. discriminate Hin.
  - reflexivity.
  - by vm_compute.
Defined.

(** X15. When no handler calls [exit()] while the request of the first
    [exit()] runs, then at every later moment, however the request ended
    and whatever happened since: the Exit event has been fired exactly when
    the promise that call returned is fulfilled, the promise is only ever
    fulfilled with nothing, and once it has settled either way no reaction
    is left, waiting or queued. *)
Theorem exit_fired_iff_fulfilled `{Serializer} (start : Z)
  (ls0 body ls2 : list label) (t : option err) (m0 m1 m2 : Machine)
  (rest : list frame) :
  let q := length (promises (store m0)) in
  let d := length (promises (store m1)) in
  mrun ls0 (fresh start) = Some m0 →
  exitPromise (store m0) = None → exitFrames (stack m0) = [] →
  mrun body (enterExit m0) = Some m1 → HostExit ∉ body →
  stack m1 = InExit q :: rest →
  mrun (Returns t :: ls2) m1 = Some m2 →
  exitPromise (store m2) = Some d
  ∧ (FireExit ∈ trace (store m2)
     ↔ promises (store m2) !! d = Some (Fulfilled VUndefined))
  ∧ (∀ v, promises (store m2) !! d = Some (Fulfilled v) → v = VUndefined)
  ∧ (promises (store m2) !! d ≠ Some Pending →
     reactions (store m2) = [] ∧ microtasks (store m2) = []).
Proof.
  intros q d Hreach Hkept Hframes Hbody Hhe Hst Hrun.
  set (P := fun _ : pstate => True).
  destruct (exit_call_returns P start ls0 body t m0 m1 rest
              Hreach Hkept Hframes Hbody Hhe Hst) as (Hk & _); [done..|].
  fold q d in Hk. cbn [mrun mstep] in Hrun. rewrite Hst in Hrun.
  assert (Kept P q d m2) as Hk2.
  { apply (Kept_run P q d ls2 _ m2 Hk Hrun). by left. }
  split; [apply Hk2|].
  destruct (kept_stage P q d m2 Hk2)
    as [_ Hd _ _ Hf|s _ _ _ Hd _ _ Hf|s _ _ Hne Hd Hr Hm Hf]; rewrite Hd.
  - split_and!; [split; [done|by intros [=]]|by intros v [=]|done].
  - split_and!; [split; [done|by intros [=]]|by intros v [=]|done].
  - split_and!; [|by destruct s; intros v' [=]|done].
    rewrite Hf. destruct s as [|v|e]; simpl; split; try done.
    + by eexists.
    + by intros [v' [=]].
Qed.

Lemma exit_fired_iff_fulfilled_witness :
  ∃ m2,
    mrun (H := joinArgs)
      (Returns None
         :: [HostExit; Callback CallExit; HostPersist; Returns None; Job])
      (mkMachine
         (invoke (H := joinArgs) (CallLog ["bye"])
            (store (enterExit (fresh 0))))
         (stack (enterExit (fresh 0)))) = Some m2
    ∧ exitPromise (store m2) = Some 1%nat
    ∧ (FireExit ∈ trace (store m2)
       ↔ promises (store m2) !! 1%nat = Some (Fulfilled VUndefined))
    ∧ (∀ v, promises (store m2) !! 1%nat = Some (Fulfilled v) →
            v = VUndefined)
    ∧ (promises (store m2) !! 1%nat ≠ Some Pending →
       reactions (store m2) = [] ∧ microtasks (store m2) = []).
Proof.
  eexists _. split; [by vm_compute|].
  eapply (exit_fired_iff_fulfilled (H := joinArgs) 0 []
            [Callback (CallLog ["bye"])]
            [HostExit; Callback CallExit; HostPersist; Returns None; Job]
            None
            (fresh 0)
            (mkMachine
               (invoke (H := joinArgs) (CallLog ["bye"])
                  (store (enterExit (fresh 0))))
               (stack (enterExit (fresh 0)))) _ []).
  - reflexivity.
  - reflexivity.
  - reflexivity.
  - reflexivity.
  - intros Hin. apply list_elem_of_In in Hin. simpl in Hin.
    destruct Hin as [Hin|[]]. discriminate Hin.
  - reflexivity.
  - by vm_compute.
Defined.



(** ** Memoization of a call that no handler calls into *)

Section memoized.
Context `{Serializer}.
Implicit Types (m : Machine) (l : label) (ls : list label) (p : nat).
Local Open Scope nat_scope.



End memoized.





(** ** The order of confirmation, Exit event and fulfilment *)

Section chronology.
Context `{Serializer}.
Implicit Types (m : Machine) (w : World) (l : label) (ls : list label).
Implicit Types (ks : list kind) (p q d : nat) (s : pstate) (o : obs).
Local Open Scope nat_scope.

Lemma precedes_app (a b : obs → Prop) tr evs :
  precedes a b tr → Forall (fun o => ¬ b o) evs → precedes a b (tr ++ evs).
Proof.
  intros Hp Hall i x Hi Hb.
  apply lookup_app_Some in Hi as [Hi|[Hlen Hi]].
  - destruct (Hp i x Hi Hb) as (j & o' & Hj & Hlook & Ha).
    exists j, o'. split_and!; [done| |done]. by apply lookup_app_l_Some.
  - apply list_elem_of_lookup_2 in Hi.
    by destruct (proj1 (Forall_forall _ _) Hall x Hi).
Qed.

(** Events that are neither an Exit event nor a settlement. *)
Lemma Chron_append ks evs w w' :
  trace w' = trace w ++ evs → promises w' = promises w →
  Forall (fun o => o ≠ FireExit ∧ ∀ p s, o ≠ Settled p s) evs →
  Chron ks w → Chron ks w'.
Proof.
  intros Ht Hp Hall [H1 H2 H3 H4 H5].
  constructor; rewrite ?Ht, ?Hp.
  - apply precedes_app; [done|].
    eapply Forall_impl; [done|]. intros o [Ho _] <-. done.
  - intros d Hd. apply precedes_app; [by apply H2|].
    eapply Forall_impl; [done|]. intros o [_ Ho] [v ->]. by eapply Ho.
  - intros q v Hq Hv. apply elem_of_app. left. by eapply H3.
  - intros p o Hpo Hne. apply elem_of_app. left. by apply H4.
  - intros p o [Hin|Hin]%elem_of_app; [by eapply H5|].
    destruct (proj1 (Forall_forall _ _) Hall _ Hin) as [_ Ho].
    by destruct (Ho p o).
Qed.

Lemma Chron_frame ks w w' :
  trace w' = trace w → promises w' = promises w → Chron ks w → Chron ks w'.
Proof.
  intros Ht Hp. apply (Chron_append ks []); [by rewrite app_nil_r|done|done].
Qed.

Lemma Chron_emit ks o w :
  o ≠ FireExit → (∀ p s, o ≠ Settled p s) → Chron ks w → Chron ks (emit o w).
Proof.
  intros Ho Hs. apply (Chron_append ks [o]); [done|done|].
  by constructor.
Qed.

Lemma Chron_fire ks w :
  ExitCallback ∈ trace w → Chron ks w → Chron ks (emit FireExit w).
Proof.
  intros Hin [H1 H2 H3 H4 H5]. constructor; cbn [emit trace promises].
  - apply precedes_snoc; [done|]. intros _. by exists ExitCallback.
  - intros d Hd. apply precedes_snoc; [by apply H2|]. by intros [v [=]].
  - intros q v Hq Hv. apply elem_of_app. left. by eapply H3.
  - intros p o Hpo Hne. apply elem_of_app. left. by apply H4.
  - intros p o [Hin'|Hin']%elem_of_app; [by eapply H5|].
    by apply list_elem_of_singleton in Hin'.
Qed.

Lemma Chron_settle ks p s w :
  s ≠ Pending →
  (ks !! p = Some Derived → (∃ v, s = Fulfilled v) → FireExit ∈ trace w) →
  (ks !! p = Some Inner → (∃ v, s = Fulfilled v) →
   ExitCallback ∈ trace w) →
  Chron ks w → Chron ks (settle p s w).
Proof.
  intros Hne Hd Hi [H1 H2 H3 H4 H5]. unfold settle.
  destruct (promises w !! p) as [[]|] eqn:Hp; try done.
  pose proof (lookup_lt_Some _ _ _ Hp) as Hlt.
  constructor;
    cbn [emit trace promises set_microtasks set_reactions set_promises].
  - apply precedes_snoc; [done|]. by intros [=].
  - intros d Hkd. apply precedes_snoc; [by apply H2|].
    intros [v [= -> ->]]. exists FireExit. split; [|done].
    apply Hd; [done|by eexists].
  - intros q v Hq Hv. apply elem_of_app. left.
    destruct (decide (q = p)) as [->|Hqp].
    + rewrite list_lookup_insert_eq in Hv by done. injection Hv as ->.
      apply Hi; [done|by eexists].
    + rewrite list_lookup_insert_ne in Hv by done. by eapply H3.
  - intros p' o Hpo Hne'. apply elem_of_app.
    destruct (decide (p' = p)) as [->|Hqp].
    + rewrite list_lookup_insert_eq in Hpo by done. injection Hpo as ->.
      right. by apply list_elem_of_singleton.
    + rewrite list_lookup_insert_ne in Hpo by done. left. by apply H4.
  - intros p' o [Hin|Hin]%elem_of_app; rewrite length_insert.
    + by eapply H5.
    + apply list_elem_of_singleton in Hin. by injection Hin as -> _.
Qed.

Lemma Chron_leave ks t p w :
  Chron ks w →
  Chron ks match t with
           | Some e => settle p (Rejected e) w
           | None => w
           end.
Proof.
  intros Hc. destruct t as [e|]; [|done].
  apply Chron_settle; [done| | |done]; by intros _ [v [=]].
Qed.

Lemma Chron_newPromise ks k w :
  length ks = length (promises w) → Chron ks w →
  Chron (ks ++ [k]) (newPromise w).
Proof.
  intros Hlen [H1 H2 H3 H4 H5].
  constructor; cbn [newPromise trace promises set_promises].
  - done.
  - intros d Hd. apply lookup_app_Some in Hd as [Hd|[Hge Hd]];
      [by apply H2|].
    intros i o Hi [v ->]. apply list_elem_of_lookup_2, H5 in Hi. lia.
  - intros q v Hq Hv.
    apply lookup_app_Some in Hv as [Hv|[_ Hv]].
    + apply (H3 q v); [|done]. rewrite lookup_app_l in Hq; [done|].
      rewrite Hlen. by eapply lookup_lt_Some.
    + by apply list_lookup_singleton_Some in Hv as [_ [=]].
  - intros p o Hpo Hne.
    apply lookup_app_Some in Hpo as [Hpo|[_ Hpo]]; [by apply H4|].
    apply list_lookup_singleton_Some in Hpo as [_ <-]. done.
  - intros p o Hin. rewrite length_app. apply H5 in Hin. lia.
Qed.

Lemma Chron_then ks q w :
  length ks = length (promises w) → Chron ks w →
  Chron (ks ++ [Derived]) (then_fireExit q w).
Proof.
  intros Hlen Hc. apply (Chron_frame _ (newPromise w)).
  - exact (trace_then q w).
  - exact (promises_then q w).
  - by apply Chron_newPromise.
Qed.

Lemma Chron_issue ks cmd w : Chron ks w → Chron ks (issue cmd w).
Proof.
  destruct (issue_backstage cmd w) as (Hb & _ & evs & Ht & Hall).
  injection Hb as _ _ Hp _ _ _ _ _ _.
  apply (Chron_append ks evs); [done|done|].
  eapply Forall_impl; [done|]. intros o Ho. split.
  - by intros ->.
  - by intros p s ->.
Qed.

Lemma Chron_invoke ks c w :
  (∀ p, module_persist w = Some p → ks !! p = Some OfPersist) →
  (∀ q, module_exit w = Some q → ks !! q = Some Inner) →
  Chron ks w → Chron ks (invoke c w).
Proof.
  intros Hmp Hme Hc.
  destruct c as [a|a|a|a|a|a|]; simpl;
    unfold logFn, warnFn, errFn, startupErrFn, fireMessage;
    try (by apply Chron_emit).
  - destruct (module_err w); [|by apply Chron_emit].
    apply (Chron_frame ks
             (emit (FireMessage ErrorLevel a) (emit (ConsoleError a) w)));
      [done..|].
    apply Chron_emit; [done..|]. by apply Chron_emit.
  - destruct (module_err w); [|by apply Chron_emit].
    apply (Chron_frame ks
             (emit (FireMessage ErrorLevel a) (emit (ConsoleError a) w)));
      [done..|].
    apply Chron_emit; [done..|]. by apply Chron_emit.
  - destruct (module_persist w) as [p|] eqn:Hm; [|done].
    apply (Chron_frame ks
             (settle p (Fulfilled (VArchive a))
                (emit (PersistCallback a) w))); [done..|].
    apply Chron_settle; [done| | |by apply Chron_emit];
      intros Hk; by rewrite (Hmp p eq_refl) in Hk.
  - destruct (module_exit w) as [q|] eqn:Hm; [|done].
    apply Chron_settle; [done| | |by apply Chron_emit].
    + intros Hk. by rewrite (Hme q eq_refl) in Hk.
    + intros _ _. cbn [emit trace]. apply elem_of_app. right.
      by apply list_elem_of_singleton.
Qed.

Lemma Chron_runMicrotask ks w :
  (∀ j, j ∈ microtasks w →
        ks !! j.1 = Some Inner ∧ ks !! j.2 = Some Derived) →
  Chron ks w → Chron ks (runMicrotask w).
Proof.
  intros Hjobs Hc. unfold runMicrotask.
  destruct (microtasks w) as [|j rest] eqn:Hm; [done|].
  destruct (Hjobs j) as [Hk1 Hk2]; [by left|].
  assert (Chron ks (set_microtasks rest w)) as Hc'
    by by apply (Chron_frame ks w).
  unfold runJob, fireExit.
  change (promises (set_microtasks rest w)) with (promises w).
  destruct (promises w !! j.1) as [[|v|e]|] eqn:Hj; [done| | |done].
  - apply Chron_settle; [done| | |].
    + intros _ _. cbn [emit trace]. apply elem_of_app. right.
      by apply list_elem_of_singleton.
    + intros Hk. by rewrite Hk2 in Hk.
    + apply Chron_fire; [|done].
      change (trace (set_microtasks rest w)) with (trace w).
      by apply (ch_confirmed ks w Hc (j.1) v).
  - apply Chron_settle; [done| | |done]; by intros _ [v [=]].
Qed.

(** *** The kinds along a step *)

Lemma Typed_quiet ks m m' :
  length (promises (store m')) = length (promises (store m)) →
  (∀ p, persistNamed m' p → persistNamed m p) →
  (∀ q, innerNamed m' q → innerNamed m q) →
  (∀ d, derivedNamed m' d → derivedNamed m d) →
  Typed ks m → Typed ks m'.
Proof.
  intros Hlen Hp Hq Hd [H1 H2 H3 H4]. constructor.
  - by rewrite Hlen.
  - intros p Hn. by apply H2, Hp.
  - intros q Hn. by apply H3, Hq.
  - intros d Hn. by apply H4, Hd.
Qed.

Lemma Typed_grow ks k m m' :
  length (promises (store m')) = S (length (promises (store m))) →
  (∀ p, persistNamed m' p →
        persistNamed m p
        ∨ k = OfPersist ∧ p = length (promises (store m))) →
  (∀ q, innerNamed m' q →
        innerNamed m q ∨ k = Inner ∧ q = length (promises (store m))) →
  (∀ d, derivedNamed m' d →
        derivedNamed m d ∨ k = Derived ∧ d = length (promises (store m))) →
  Typed ks m → Typed (ks ++ [k]) m'.
Proof.
  intros Hlen Hp Hq Hd [H1 H2 H3 H4]. constructor.
  - rewrite length_app, Hlen, H1. simpl. lia.
  - intros p [Hn|[-> ->]]%Hp; [by apply lookup_app_l_Some, H2|].
    by apply list_lookup_middle.
  - intros q [Hn|[-> ->]]%Hq; [by apply lookup_app_l_Some, H3|].
    by apply list_lookup_middle.
  - intros d [Hn|[-> ->]]%Hd; [by apply lookup_app_l_Some, H4|].
    by apply list_lookup_middle.
Qed.

Ltac invert_step Hstep :=
  match type of Hstep with
  | mstep ?l ?m = Some ?m' =>
      destruct l as [?c ?now| | |?t|?c|]; cbn [mstep] in Hstep;
      [ injection Hstep as <-
      | injection Hstep as <-; unfold enterPersist;
        destruct (persistPromise (store m)) as [?kept|] eqn:?Hkept
      | injection Hstep as <-; unfold enterExit;
        destruct (exitPromise (store m)) as [?kept|] eqn:?Hkept
      | destruct (stack m) as [|[?p|?q] ?rest] eqn:?Hstack;
        [discriminate Hstep|injection Hstep as <-..]
      | injection Hstep as <-
      | destruct (stack m) as [|? ?] eqn:?Hstack;
        [injection Hstep as <-|discriminate Hstep] ]
  end.

Lemma Typed_step ks l m m' :
  Typed ks m → Chron ks (store m) → mstep l m = Some m' →
  ∃ ks', ks `prefix_of` ks' ∧ Typed ks' m' ∧ Chron ks' (store m').
Proof.
  intros Hty Hch Hstep. invert_step Hstep.
  - (* an input command *)
    exists ks. split; [done|]. split; [|by apply Chron_issue].
    destruct (issue_backstage (c, now) (store m)) as (Hb & _).
    injection Hb as _ He Hp Hr Hm Hmp Hme _ _.
    apply (Typed_quiet ks m); [by cbn [store]; rewrite Hp| | | |done];
      unfold persistNamed, innerNamed, derivedNamed; cbn [store stack];
      intros x; rewrite ?He, ?Hr, ?Hm, ?Hmp, ?Hme; done.
  - (* persist(), memoized *)
    by exists ks.
  - (* persist(), up to the request *)
    exists (ks ++ [OfPersist]). split; [by apply prefix_app_r|]. split.
    + apply (Typed_grow ks OfPersist m); [| | | |done];
        unfold persistNamed, innerNamed, derivedNamed; cbn.
      * rewrite length_app. simpl. lia.
      * intros p [[= <-]|[[= <-]|Hin]%elem_of_cons]; [by right..|].
        left. by right.
      * intros q [?|[[[=]|?]%elem_of_cons|?]]; left; tauto.
      * intros d ?. by left.
    + apply Chron_emit; [done..|].
      apply (Chron_frame _ (newPromise (store m))); [done..|].
      apply Chron_newPromise; [apply Hty|done].
  - (* exit(), memoized *)
    by exists ks.
  - (* exit(), up to the request *)
    exists (ks ++ [Inner]). split; [by apply prefix_app_r|]. split.
    + apply (Typed_grow ks Inner m); [| | | |done];
        unfold persistNamed, innerNamed, derivedNamed; cbn.
      * rewrite length_app. simpl. lia.
      * intros p [?|[[=]|?]%elem_of_cons]; left; tauto.
      * intros q [[= <-]|[[[= <-]|?]%elem_of_cons|?]]; [by right..| |];
          left; tauto.
      * intros d ?. by left.
    + apply Chron_emit; [done..|].
      apply (Chron_frame _ (newPromise (store m))); [done..|].
      apply Chron_newPromise; [apply Hty|done].
  - (* the request of persist() returns *)
    exists ks. split; [done|]. split.
    + apply (Typed_quiet ks m); [| | | |done];
        unfold persistNamed, innerNamed, derivedNamed, leavePersist;
        cbn [store stack set_persistPromise promises module_persist
             module_exit exitPromise reactions microtasks].
      * apply leave_length.
      * intros p'. rewrite (proj1 (slots_leave _ _ _)), Hstack.
        intros [?|?]; [by left|right; by right].
      * intros q'. rewrite (proj2 (slots_leave _ _ _)), Hstack.
        intros [?|[?|(j & Hj & ?)]]; [by left|right; left; by right|].
        right. right. exists j. split; [|done]. by apply jobs_leave in Hj.
      * intros d.
        assert (exitPromise match t with
                            | Some e => settle p (Rejected e) (store m)
                            | None => store m
                            end = exitPromise (store m)) as ->.
        { destruct t; [|done].
          by pose proof (ledger_settle p (Rejected e) (store m))
            as [= _ -> _ _]. }
        intros [?|(j & Hj & ?)]; [by left|].
        right. exists j. split; [|done]. by apply jobs_leave in Hj.
    + unfold leavePersist. cbn [store].
      apply (Chron_frame _ match t with
                           | Some e => settle p (Rejected e) (store m)
                           | None => store m
                           end); [done..|].
      by apply Chron_leave.
  - (* the request of exit() returns *)
    exists (ks ++ [Derived]). split; [by apply prefix_app_r|].
    set (w3 := match t with
               | Some e => settle q (Rejected e) (store m)
               | None => store m
               end).
    assert (length (promises w3) = length (promises (store m))) as Hlen3
      by apply leave_length.
    assert (exitPromise w3 = exitPromise (store m)) as Hkept3.
    { subst w3. destruct t; [|done].
      by pose proof (ledger_settle q (Rejected e) (store m))
        as [= _ -> _ _]. }
    split.
    + apply (Typed_grow ks Derived m); [| | | |done];
        unfold persistNamed, innerNamed, derivedNamed, leaveExit;
        fold w3;
        cbn [store stack set_exitPromise promises module_persist
             module_exit exitPromise reactions microtasks].
      * by rewrite promises_then, length_app, Hlen3, Nat.add_1_r.
      * intros p'. rewrite (proj1 (slots_then _ _)).
        unfold w3. rewrite (proj1 (slots_leave _ _ _)), Hstack.
        intros [?|?]; left; [by left|right; by right].
      * intros q'. rewrite (proj2 (slots_then _ _)).
        unfold w3 at 1. rewrite (proj2 (slots_leave _ _ _)), Hstack.
        intros [?|[?|(j & Hj & Hq)]]; left;
          [by left|right; left; by right|].
        apply jobs_then in Hj as [Hj | ->].
        -- right. right. exists j. split; [|done].
           by apply jobs_leave in Hj.
        -- right. left. simpl in Hq. subst q'. by left.
      * intros d [[= <-]|(j & Hj & Hd)]; [right; by rewrite Hlen3|].
        apply jobs_then in Hj as [Hj | ->].
        -- left. right. exists j. split; [|done].
           by apply jobs_leave in Hj.
        -- right. simpl in Hd. by rewrite <-Hd, Hlen3.
    + unfold leaveExit. fold w3. cbn [store].
      apply (Chron_frame _ (then_fireExit q w3)); [done..|].
      apply Chron_then; [by rewrite Hlen3; apply Hty|].
      by apply Chron_leave.
  - (* the module calls back *)
    exists ks. split; [done|]. split.
    + pose proof (ledger_invoke c (store m)) as [= _ He _ _].
      apply (Typed_quiet ks m); [apply invoke_length| | | |done];
        unfold persistNamed, innerNamed, derivedNamed; cbn [store stack].
      * intros p [Hn|?]; [|by right].
        destruct (module_persist_invoke c (store m)) as [Heq|Heq];
          rewrite Heq in Hn; [by left|done].
      * intros q. rewrite module_exit_invoke.
        intros [?|[?|(j & Hj & ?)]]; [by left|right; by left|].
        right. right. exists j. split; [|done]. by apply jobs_invoke in Hj.
      * intros d. rewrite He.
        intros [?|(j & Hj & ?)]; [by left|].
        right. exists j. split; [|done]. by apply jobs_invoke in Hj.
    + cbn [store]. apply Chron_invoke; [| |done].
      * intros p Hp. apply (ty_persist ks m Hty). by left.
      * intros q Hq. apply (ty_inner ks m Hty). by left.
  - (* the event loop runs a job *)
    exists ks. split; [done|]. split.
    + pose proof (ledger_runMicrotask (store m)) as [= _ He Hme _].
      apply (Typed_quiet ks m); [apply runMicrotask_length| | | |done];
        unfold persistNamed, innerNamed, derivedNamed; cbn [store stack].
      * intros p. rewrite module_persist_runMicrotask, Hstack.
        intros [?|?]; [by left|by right].
      * intros q. rewrite Hme, Hstack.
        intros [?|[?|(j & Hj & ?)]]; [by left|right; by left|].
        right. right. exists j. split; [|done].
        by apply jobs_runMicrotask in Hj.
      * intros d. rewrite He.
        intros [?|(j & Hj & ?)]; [by left|].
        right. exists j. split; [|done].
        by apply jobs_runMicrotask in Hj.
    + cbn [store]. apply Chron_runMicrotask; [|done].
      intros j Hj. split.
      * apply (ty_inner ks m Hty). right. right. exists j.
        split; [|done]. apply elem_of_app. by right.
      * apply (ty_derived ks m Hty). right. exists j.
        split; [|done]. apply elem_of_app. by right.
Qed.

Lemma Typed_run ks ls m m' :
  Typed ks m → Chron ks (store m) → mrun ls m = Some m' →
  ∃ ks', ks `prefix_of` ks' ∧ Typed ks' m' ∧ Chron ks' (store m').
Proof.
  revert ks m. induction ls as [|l ls IH]; intros ks m Hty Hch Hrun;
    simpl in Hrun.
  - injection Hrun as <-. by exists ks.
  - destruct (mstep l m) as [m1|] eqn:Hstep; [|done].
    destruct (Typed_step ks l m m1 Hty Hch Hstep) as (ks1 & Hpre & Hty1 & Hch1).
    destruct (IH ks1 m1 Hty1 Hch1 Hrun) as (ks2 & Hpre' & Hty2 & Hch2).
    exists ks2. split; [by etrans|done].
Qed.

Lemma Typed_fresh start :
  Typed [] (fresh start) ∧ Chron [] (newInstance start).
Proof.
  split.
  - constructor; [done|..]; unfold persistNamed, innerNamed, derivedNamed;
      cbn.
    + intros p [[=]|?%elem_of_nil]. done.
    + intros q [[=]|[?%elem_of_nil|(j & ?%elem_of_nil & _)]]; done.
    + intros d [[=]|(j & ?%elem_of_nil & _)]. done.
  - constructor; cbn.
    + by intros i o ?.
    + by intros d ?.
    + by intros q v ?.
    + by intros p o ?.
    + by intros p o ?%elem_of_nil.
Qed.
End chronology.

(** X26. The order in which an exit happens, on every run of an interface,
    calls re-entered from handlers included, and for every promise [exit()]
    has kept at some moment (each promise [exit()] returns is kept when it
    is returned): at every later moment an Exit event on the Event Bus has
    the module's termination callback before it, the fulfilment of that
    promise has an Exit event before it, and when the promise is fulfilled
    the callback has fired and the Exit event has been fired. *)
Theorem exit_order_on_every_run `{Serializer} (start : Z)
  (ls1 ls2 : list label) (m1 m : Machine) (d : nat) :
  mrun ls1 (fresh start) = Some m1 → exitPromise (store m1) = Some d →
  mrun (ls1 ++ ls2) (fresh start) = Some m →
  precedes (eq ExitCallback) (eq FireExit) (trace (store m))
  ∧ precedes (eq FireExit) (fun o => ∃ v, o = Settled d (Fulfilled v))
      (trace (store m))
  ∧ ∀ v, promises (store m) !! d = Some (Fulfilled v) →
      Settled d (Fulfilled v) ∈ trace (store m)
      ∧ FireExit ∈ trace (store m) ∧ ExitCallback ∈ trace (store m).
Proof.
  intros Hrun1 Hd Hrun.
  apply mrun_app in Hrun as (m1' & Hrun1' & Hrun2).
  assert (m1' = m1) as -> by congruence.
  destruct (Typed_fresh start) as [Hty0 Hch0].
  destruct (Typed_run [] ls1 _ m1 Hty0 Hch0 Hrun1) as (ks1 & _ & Hty1 & Hch1).
  destruct (Typed_run ks1 ls2 m1 m Hty1 Hch1 Hrun2) as (ks & Hpre & Hty & Hch).
  assert (ks !! d = Some Derived) as Hkind.
  { eapply prefix_lookup_Some; [|done]. apply (ty_derived ks1 m1 Hty1).
    by left. }
  split_and!; [apply Hch|by apply Hch|].
  intros v Hv.
  assert (Settled d (Fulfilled v) ∈ trace (store m)) as Hs
    by by apply (ch_recorded ks _ Hch).
  destruct (precedes_elem_of _ _ _ _ (ch_order2 ks _ Hch d Hkind) Hs)
    as (o & Hfire & <-); [by eexists|].
  destruct (precedes_elem_of _ _ _ _ (ch_order1 ks _ Hch) Hfire eq_refl)
    as (o & Hcb & <-).
  done.
Qed.

Lemma exit_order_on_every_run_witness :
  ∃ m,
    mrun (H := joinArgs)
      ([HostExit; Callback (CallLog ["bye"]); HostExit; Returns None]
         ++ [Returns None; Callback CallExit; Job]) (fresh 0) = Some m
    ∧ precedes (eq ExitCallback) (eq FireExit) (trace (store m))
    ∧ precedes (eq FireExit) (fun o => ∃ v, o = Settled 2%nat (Fulfilled v))
        (trace (store m))
    ∧ ∀ v, promises (store m) !! 2%nat = Some (Fulfilled v) →
        Settled 2%nat (Fulfilled v) ∈ trace (store m)
        ∧ FireExit ∈ trace (store m) ∧ ExitCallback ∈ trace (store m).
Proof.
  eexists. split; [by vm_compute|].
  eapply (exit_order_on_every_run (H := joinArgs) 0
            [HostExit; Callback (CallLog ["bye"]); HostExit; Returns None]
            [Returns None; Callback CallExit; Job] _ _ 2).
  - by vm_compute.
  - reflexivity.
  - by vm_compute.
Defined.

(** X27. If [_packFsToBundle()] throws during a [persist()] that found no
    promise kept, before the module has handed over an archive and without
    a handler having called [persist()] meanwhile, then the closure is
    still on the module when the request throws, and the promise of that
    call is rejected with what was thrown at every later moment, whatever
    the host, its handlers and the module do: a late archive changes
    nothing. *)
Theorem persist_throw_rejects_on_every_run `{Serializer} (start : Z)
  (ls0 body ls2 : list label) (e : err) (m0 m1 m2 : Machine)
  (rest : list frame) :
  let p := length (promises (store m0)) in
  mrun ls0 (fresh start) = Some m0 → persistPromise (store m0) = None →
  mrun body (enterPersist m0) = Some m1 →
  HostPersist ∉ body → (∀ a, Callback (CallPersist a) ∉ body) →
  stack m1 = InPersist p :: rest →
  mrun (Returns (Some e) :: ls2) m1 = Some m2 →
  module_persist (store m1) = Some p
  ∧ module_persist (leavePersist p (Some e) (store m1)) = Some p
  ∧ promises (store m2) !! p = Some (Rejected e).
Proof.
  intros p Hreach Hkept Hbody Hhp Hcp Hst Hrun.
  assert (Sound m0) as Hsound by exact (Sound_run _ _ _ (Sound_fresh _) Hreach).
  assert (Sound (enterPersist m0)) as Hsound'
    by exact (Sound_step HostPersist m0 _ Hsound eq_refl).
  pose proof (Awaited_enter m0 (proj1 Hsound) Hkept) as Haw.
  assert (Awaited p m1) as [Hslot Hpend _].
  { apply (Awaited_body body p _ m1 Hsound' Haw Hbody Hhp Hcp).
    rewrite Hst. by left. }
  cbn [mrun mstep] in Hrun. rewrite Hst in Hrun.
  destruct (leavePersist_world p (Some e) (store m1)) as (_ & Hslot' & _ & Hp).
  split_and!; [done|congruence|].
  apply (mrun_stays ls2 (mkMachine (leavePersist p (Some e) (store m1)) rest)
           m2 p (Rejected e)); [|done|done].
  cbn [store]. rewrite Hp. by apply settle_pending.
Qed.

Lemma persist_throw_rejects_on_every_run_witness :
  ∃ m2,
    mrun (H := joinArgs)
      (Returns (Some (ModuleError 3))
         :: [Callback (CallPersist [Byte.x01]); HostPersist; Job])
      (mkMachine
         (invoke (H := joinArgs) (CallPrintErr ["abort"])
            (store (enterPersist (fresh 0))))
         (stack (enterPersist (fresh 0)))) = Some m2
    ∧ module_persist
        (invoke (H := joinArgs) (CallPrintErr ["abort"])
           (store (enterPersist (fresh 0)))) = Some 0%nat
    ∧ module_persist
        (leavePersist 0 (Some (ModuleError 3))
           (invoke (H := joinArgs) (CallPrintErr ["abort"])
              (store (enterPersist (fresh 0))))) = Some 0%nat
    ∧ promises (store m2) !! 0%nat = Some (Rejected (ModuleError 3)).
Proof.
  eexists _. split; [by vm_compute|].
  eapply (persist_throw_rejects_on_every_run (H := joinArgs) 0 []
            [Callback (CallPrintErr ["abort"])]
            [Callback (CallPersist [Byte.x01]); HostPersist; Job]
            (ModuleError 3) (fresh 0)
            (mkMachine
               (invoke (H := joinArgs) (CallPrintErr ["abort"])
                  (store (enterPersist (fresh 0))))
               (stack (enterPersist (fresh 0)))) _ []).
  - reflexivity.
  - reflexivity.
  - reflexivity.
  - intros Hin. apply list_elem_of_In in Hin. simpl in Hin.
    destruct Hin as [Hin|[]]. discriminate Hin.
  - intros a' Hin. apply list_elem_of_In in Hin. simpl in Hin.
    destruct Hin as [Hin|[]]. discriminate Hin.
  - reflexivity.
  - by vm_compute.
Defined.

(** ** The input state on every run *)

Section input_machine.
Context `{Serializer}.
Implicit Types (m : Machine) (w : World) (l : label) (ls : list label).

Lemma desk_then q w : desk (then_fireExit q w) = desk w.
Proof.
  unfold then_fireExit. by destruct (promises (newPromise w) !! q) as [[]|].
Qed.

Lemma desk_leave t p w :
  desk match t with
       | Some e => settle p (Rejected e) w
       | None => w
       end = desk w.
Proof. destruct t; [apply desk_settle|done]. Qed.

Lemma desk_mstep l m m' :
  mstep l m = Some m' → (∀ c now, l ≠ HostInput c now) →
  desk (store m') = desk (store m).
Proof.
  intros Hstep Hl.
  destruct l as [c now| | |t|c|]; cbn [mstep] in Hstep.
  - by destruct (Hl c now).
  - injection Hstep as <-. unfold enterPersist.
    destruct (persistPromise (store m)); [done|]. cbn [store].
    by rewrite desk_emit.
  - injection Hstep as <-. unfold enterExit.
    destruct (exitPromise (store m)); [done|]. cbn [store].
    by rewrite desk_emit.
  - destruct (stack m) as [|[p|q] rest]; [done|..];
      injection Hstep as <-; cbn [store].
    + transitivity (desk match t with
                         | Some e => settle p (Rejected e) (store m)
                         | None => store m
                         end); [done|apply desk_leave].
    + transitivity (desk (then_fireExit q
                            match t with
                            | Some e => settle q (Rejected e) (store m)
                            | None => store m
                            end)); [done|].
      by rewrite desk_then, desk_leave.
  - injection Hstep as <-. apply desk_invoke.
  - destruct (stack m); [|done]. injection Hstep as <-.
    apply desk_runMicrotask.
Qed.

Lemma KeyInv_mstep l m m' :
  mstep l m = Some m' → KeyInv (store m) → KeyInv (store m').
Proof.
  intros Hstep Hinv.
  assert ((∃ c now, l = HostInput c now) ∨ ∀ c now, l ≠ HostInput c now)
    as [(c & now & ->)|Hl].
  { destruct l; [left; by eexists _, _|by right..]. }
  - injection Hstep as <-. by apply KeyInv_issue.
  - eapply KeyInv_desk; [by eapply desk_mstep|done].
Qed.
End input_machine.

(** X28. On every run of an interface, calls re-entered from handlers
    included: the states forwarded to the module for any one key code
    alternate, pressed, released, pressed, ..., beginning with pressed, and
    the Key Matrix reads the code as pressed exactly when the last state
    forwarded for it is pressed. *)
Theorem key_transitions_alternate_on_every_run `{Serializer} (start : Z)
  (ls : list label) (m : Machine) (code : Z) :
  mrun ls (fresh start) = Some m →
  alternates false (transitions code (trace (store m))) = true
  ∧ isPressed (store m) code
    = default false (last (transitions code (trace (store m)))).
Proof.
  intros Hrun.
  assert (∀ m0, KeyInv (store m0) → mrun ls m0 = Some m → KeyInv (store m))
    as Hinv.
  { clear Hrun. induction ls as [|l ls IH]; intros m0 Hinv Hrun;
      simpl in Hrun.
    - by injection Hrun as <-.
    - destruct (mstep l m0) as [m1|] eqn:Hstep; [|done].
      apply (IH m1); [|done]. by eapply KeyInv_mstep. }
  apply (Hinv (fresh start)); [|done]. apply KeyInv_newInstance.
Qed.

Lemma key_transitions_alternate_on_every_run_witness :
  ∃ m,
    mrun (H := joinArgs)
      [HostInput (SendKeyEvent 65 true) 1005; HostExit;
       Callback (CallLog ["bye"]); HostInput (SimulateKeyPress [65; 66]) 1010;
       HostExit; Returns None; Returns None] (fresh 1000) = Some m
    ∧ alternates false (transitions 65 (trace (store m))) = true
    ∧ isPressed (store m) 65
      = default false (last (transitions 65 (trace (store m)))).
Proof.
  eexists. split; [by vm_compute|].
  eapply (key_transitions_alternate_on_every_run (H := joinArgs) 1000
            [HostInput (SendKeyEvent 65 true) 1005; HostExit;
             Callback (CallLog ["bye"]);
             HostInput (SimulateKeyPress [65; 66]) 1010;
             HostExit; Returns None; Returns None] _ 65).
  by vm_compute.
Defined.

(** X29. Nothing but an input command touches the input state: a call of
    [persist()] or [exit()] from the host or from a handler, the return or
    throw of a request, a callback of the module and a job of the event
    loop each leave the start time and the Key Matrix as they are and
    forward no key or mouse event. *)
Theorem calls_leave_input_state `{Serializer} (l : label) (m m' : Machine) :
  mstep l m = Some m' → (∀ c now, l ≠ HostInput c now) →
  startedAt (store m') = startedAt (store m)
  ∧ keyMatrix (store m') = keyMatrix (store m)
  ∧ List.filter isInputEvent (trace (store m'))
    = List.filter isInputEvent (trace (store m)).
Proof.
  intros Hstep Hl.
  by pose proof (desk_mstep l m m' Hstep Hl) as [= -> -> ->].
Qed.

Lemma calls_leave_input_state_witness :
  let m := mkMachine (sendKeyEvent 65 true 1005 (newInstance 1000))
             [InExit 0%nat] in
  let m' := enterPersist m in
  startedAt (store m') = startedAt (store m)
  ∧ keyMatrix (store m') = keyMatrix (store m)
  ∧ List.filter isInputEvent (trace (store m'))
    = List.filter isInputEvent (trace (store m)).
Proof.
  apply (calls_leave_input_state (H := joinArgs) HostPersist).
  - reflexivity.
  - intros c now. discriminate.
Defined.

(** ** More on the startup handshake *)

Section handshake_more.
Context `{Serializer}.
Implicit Types (w : World) (env : StartupEnv).

(** The store when [DosDirect] reads the log, seen from the host: the
    interface is fresh and the module was asked for [callMain] and
    [_runRuntime], nothing else. *)
Lemma handshake_fresh env :
  let w3 := request RunRuntime (runRuntime env)
              (request CallMain (callMain env)
                 (construct (constructedAt env)
                    (foldl (fun acc c => invoke c acc) boot
                       (callbacks (instantiate env))))) in
  startedAt w3 = constructedAt env ∧ keyMatrix w3 = ∅
  ∧ List.filter hostRequest (trace w3) = [CallMain; RunRuntime].
Proof.
  set (w1 := foldl _ boot _).
  set (w1' := construct (constructedAt env) w1).
  set (w2 := request CallMain (callMain env) w1').
  intros w3.
  pose proof (desk_request RunRuntime (runRuntime env) w2 eq_refl) as Hd3.
  pose proof (desk_request CallMain (callMain env) w1' eq_refl) as Hd2.
  fold w3 in Hd3. fold w2 in Hd2. rewrite Hd2 in Hd3.
  injection Hd3 as Hs Hk _.
  pose proof (ledger_invokes (callbacks (instantiate env)) boot)
    as [= _ _ _ Ht1]. fold w1 in Ht1.
  destruct (request_frame CallMain (callMain env) w1' eq_refl)
    as ([= _ _ _ Ht2] & _). fold w2 in Ht2.
  destruct (request_frame RunRuntime (runRuntime env) w2 eq_refl)
    as ([= _ _ _ Ht3] & _). fold w3 in Ht3.
  split_and!; [done..|].
  rewrite Ht3, Ht2. change (trace w1') with (trace w1). by rewrite Ht1.
Qed.

Lemma awaitSettled_unconfirmed q d tasks w :
  Armed q d w → CallExit ∉ tasks →
  awaitSettled d tasks w = foldl (fun acc c => invoke c acc) w tasks
  ∧ Armed q d (awaitSettled d tasks w).
Proof.
  revert w. induction tasks as [|c tasks IH]; intros w Harmed Hcs.
  - simpl. rewrite (runMicrotasks_Armed q d w Harmed).
    by rewrite (armed_derived q d w Harmed).
  - simpl. rewrite (runMicrotasks_Armed q d w Harmed).
    rewrite (armed_derived q d w Harmed).
    apply IH.
    + apply invoke_Armed; [|done]. intros ->. apply Hcs. by left.
    + intros Hin. apply Hcs. by right.
Qed.

Lemma awaitSettled_rejected q d tasks w e :
  q ≠ d → promises w !! q = Some (Rejected e) →
  promises w !! d = Some Pending →
  reactions w = [] → microtasks w = [(q, d)] →
  awaitSettled d tasks w = runMicrotask w
  ∧ promises (runMicrotask w) !! d = Some (Rejected e).
Proof.
  intros Hqd Hq Hd Hr Hm.
  assert (runMicrotasks w = runMicrotask w) as Hrun.
  { unfold runMicrotasks. rewrite Hr, Hm. simpl. by rewrite Hm. }
  assert (promises (runMicrotask w) !! d = Some (Rejected e)) as Hd'.
  { unfold runMicrotask. rewrite Hm. unfold runJob. simpl. rewrite Hq.
    by apply settle_pending. }
  split; [|done]. destruct tasks; simpl; by rewrite Hrun, Hd'.
Qed.
End handshake_more.

(** X17. [DosDirect] returns an interface exactly when the module was
    instantiated, [callMain] returned, and the module printed no diagnostic
    through [err] or [printErr] before the readiness check.  The interface
    it returns is fresh: started at construction time, no key pressed, no
    [persist()] or [exit()] pending, the forwarding sink installed, the log
    empty, and the module asked for [callMain] and [_runRuntime] only. *)
Theorem handshake_returns_iff `{Serializer} (env : StartupEnv) :
  ((∃ w, DosDirect env = Returned w)
   ↔ thrown (instantiate env) = None ∧ thrown (callMain env) = None
     ∧ earlyDiagnostics env = [])
  ∧ ∀ w, DosDirect env = Returned w →
      startedAt w = constructedAt env ∧ keyMatrix w = ∅
      ∧ persistPromise w = None ∧ exitPromise w = None
      ∧ module_err w = ErrFn ∧ startupErrorLog w = ""
      ∧ List.filter hostRequest (trace w) = [CallMain; RunRuntime].
Proof.
  destruct (handshake_before_check env)
    as (Hinv & [Hsink Hlog] & Hpp & Hep & Hdiag).
  destruct (handshake_fresh env) as (Hstart & Hkeys & Hreq).
  set (w3 := request RunRuntime _ _) in *.
  rewrite Hdiag in Hlog.
  assert (∀ w, DosDirect env = Returned w →
            thrown (instantiate env) = None ∧ thrown (callMain env) = None
            ∧ earlyDiagnostics env = [] ∧ w = set_module_err ErrFn w3)
    as Hret.
  { intros w. unfold DosDirect.
    destruct (thrown (instantiate env)); [done|].
    destruct (thrown (callMain env)); [done|].
    fold w3. case_bool_decide as Hlen.
    - by destruct (promises _ !! _) as [[]|].
    - intros [= <-]. split_and!; [done..| |done].
      destruct (earlyDiagnostics env) as [|a l] eqn:He; [done|].
      destruct Hlen. rewrite Hlog. by apply logText_nonempty. }
  split.
  - split.
    + intros [w Hw]. by destruct (Hret w Hw) as (? & ? & ? & _).
    + intros (Hinst & Hmain & Hnil). exists (set_module_err ErrFn w3).
      unfold DosDirect. rewrite Hinst, Hmain. fold w3.
      rewrite bool_decide_eq_false_2; [done|].
      rewrite Hlog, Hnil. simpl. lia.
  - intros w Hw. destruct (Hret w Hw) as (_ & _ & Hnil & ->).
    rewrite Hnil in Hlog. by split_and!.
Qed.

(** X18. When construction fails, [DosDirect] rejects with the error of the
    failing step and goes no further.  If [wasm.instantiate] rejects, the
    module is asked for nothing.  If [callMain] throws, [_runRuntime] is not
    called, the log is not read and no exit is requested, even when
    diagnostics were printed. *)
Theorem handshake_construction_failure `{Serializer} (env : StartupEnv)
  (e : err) :
  (thrown (instantiate env) = Some e →
   ∃ w, DosDirect env = Threw e w
        ∧ List.filter hostRequest (trace w) = [])
  ∧ (thrown (instantiate env) = None → thrown (callMain env) = Some e →
     ∃ w, DosDirect env = Threw e w
          ∧ List.filter hostRequest (trace w) = [CallMain]
          ∧ exitPromise w = None).
Proof.
  set (w1 := foldl (fun acc c => invoke c acc) boot
               (callbacks (instantiate env))).
  pose proof (ledger_invokes (callbacks (instantiate env)) boot)
    as [= _ He1 _ Ht1]. fold w1 in He1, Ht1.
  split.
  - intros Hinst. exists w1. unfold DosDirect. by rewrite Hinst.
  - intros Hinst Hmain.
    set (w1' := construct (constructedAt env) w1).
    destruct (request_frame CallMain (callMain env) w1' eq_refl)
      as ([= _ He2 _ Ht2] & _).
    exists (request CallMain (callMain env) w1').
    unfold DosDirect. rewrite Hinst, Hmain.
    split_and!; [done| |done].
    rewrite Ht2. change (trace w1') with (trace w1). by rewrite Ht1.
Qed.

(** X19. [DosDirect] can wait for ever.  If diagnostics were printed during
    startup, [_requestExit()] returns, and the module never calls
    [module.exit], then [DosDirect] neither returns an interface nor
    rejects: the exit was requested, no Exit event was fired, and the
    startup errors are reported to nobody. *)
Theorem handshake_waits_for_confirmation `{Serializer} (env : StartupEnv) :
  thrown (instantiate env) = None → thrown (callMain env) = None →
  earlyDiagnostics env ≠ [] →
  thrown (requestExit env) = None →
  CallExit ∉ callbacks (requestExit env) → CallExit ∉ afterwards env →
  ∃ w, DosDirect env = Waiting w
       ∧ RequestExit ∈ trace w ∧ (FireExit ∉ trace w).
Proof.
  intros Hinst Hmain Hne Hthrown Hcs Hafter.
  destruct (handshake_before_check env)
    as (Hinv & [Hsink Hlog] & Hpp & Hep & Hdiag).
  unfold DosDirect. rewrite Hinst, Hmain.
  set (w3 := request RunRuntime _ _) in *.
  rewrite Hdiag in Hlog.
  rewrite bool_decide_eq_true_2
    by (rewrite Hlog; by apply logText_nonempty).
  set (r := requestExit env) in *.
  set (q := length (promises w3)).
  destruct (exit_first r w3 Hinv Hep)
    as (Hd & Hme & Hpd & Hnin & _ & Harm & _).
  fold q in Hd, Hme, Hpd, Hnin, Harm.
  rewrite Hd. set (d := S q) in *. set (w4 := (exit r w3).2) in *.
  assert (Inv w4) as Hinv4 by by apply Inv_exit.
  specialize (Hnin Hcs). rewrite Hthrown in Hnin.
  destruct (Harm Hnin) as [Hr4 Hq4].
  assert (module_persist w4 = None) as Hmp4.
  { apply (inv_persist_slot w4 Hinv4). subst w4.
    by rewrite exit_persistPromise. }
  assert (Armed q d w4) as Harmed by by constructor.
  destruct (awaitSettled_unconfirmed q d (afterwards env) w4 Harmed Hafter)
    as [Heq Harmed5].
  set (w5 := awaitSettled d (afterwards env) w4) in *.
  rewrite (armed_derived q d w5 Harmed5).
  assert (Inv w5) as Hinv5 by (rewrite Heq; by apply Inv_invokes).
  exists w5. split_and!; [done| |].
  - apply requested_elem_of; [done|].
    pose proof (ledger_invokes (afterwards env) w4) as [= _ Hl _ _].
    rewrite Heq, Hl. exists d. subst d. rewrite <-Hd. apply exit_kept.
  - intros Hfired.
    destruct (wi_cause w5 (inv_weak w5 Hinv5) Hfired) as (q' & v & He & Hv).
    rewrite (armed_slot q d w5 Harmed5) in He. injection He as <-.
    rewrite (armed_inner q d w5 Harmed5) in Hv. done.
Qed.

Lemma handshake_waits_for_confirmation_witness :
  ∃ w, DosDirect (H := joinArgs)
         (mkEnv (mkReply [CallPrintErr ["no disk"]] None) 1000
            (mkReply [] None) (mkReply [] None) (mkReply [] None)
            [CallLog ["idle"]])
       = Waiting w
       ∧ RequestExit ∈ trace w ∧ (FireExit ∉ trace w).
Proof.
  apply (handshake_waits_for_confirmation (H := joinArgs)
           (mkEnv (mkReply [CallPrintErr ["no disk"]] None) 1000
              (mkReply [] None) (mkReply [] None) (mkReply [] None)
              [CallLog ["idle"]])).
  - reflexivity.
  - reflexivity.
  - vm_compute. discriminate.
  - reflexivity.
  - intros Hin. by apply elem_of_nil in Hin.
  - intros Hin. apply list_elem_of_In in Hin. simpl in Hin.
    destruct Hin as [Hin|[]]. discriminate Hin.
Defined.

(** X20. If diagnostics were printed during startup and [_requestExit()]
    then throws before the module has confirmed, [DosDirect] rejects with
    what [_requestExit()] threw and not with the log: the log is not empty,
    yet it is not reported, and no Exit event is fired. *)
Theorem handshake_exit_throw_hides_log `{Serializer} (env : StartupEnv)
  (e : err) :
  thrown (instantiate env) = None → thrown (callMain env) = None →
  earlyDiagnostics env ≠ [] →
  thrown (requestExit env) = Some e →
  CallExit ∉ callbacks (requestExit env) →
  ∃ w, DosDirect env = Threw e w
       ∧ (0 < String.length (startupErrorLog w))%nat
       ∧ RequestExit ∈ trace w ∧ (FireExit ∉ trace w).
Proof.
  intros Hinst Hmain Hne Hthrown Hcs.
  destruct (handshake_before_check env)
    as (Hinv & Hlog3 & Hpp & Hep & Hdiag).
  unfold DosDirect. rewrite Hinst, Hmain.
  set (w3 := request RunRuntime _ _) in *.
  pose proof Hlog3 as [Hsink Hlog]. rewrite Hdiag in Hlog.
  rewrite bool_decide_eq_true_2
    by (rewrite Hlog; by apply logText_nonempty).
  set (r := requestExit env) in *.
  set (q := length (promises w3)).
  destruct (exit_first r w3 Hinv Hep)
    as (Hd & Hme & Hpd & Hnin & _ & _ & Hcon).
  fold q in Hd, Hme, Hpd, Hnin, Hcon.
  rewrite Hd. set (d := S q) in *. set (w4 := (exit r w3).2) in *.
  assert (Inv w4) as Hinv4 by by apply Inv_exit.
  specialize (Hnin Hcs). rewrite Hthrown in Hnin.
  destruct Hcon as [Hr4 Hq4]; [by rewrite Hnin|].
  destruct (awaitSettled_rejected q d (afterwards env) w4 e)
    as [Heq Hd5]; [subst d; lia|done..|].
  rewrite Heq, Hd5.
  assert (Inv (runMicrotask w4)) as Hinv5
    by exact (Inv_step Microtask w4 Hinv4).
  destruct (exit_journal r w3 Hep Hlog3) as [[_ Hlog4] Hdiag4].
  fold w4 in Hlog4, Hdiag4.
  pose proof (journal_runMicrotask w4) as [= _ Hl5 Hdiag5].
  exists (runMicrotask w4). split_and!; [done| | |].
  - rewrite Hl5, Hlog4. apply logText_nonempty.
    rewrite Hdiag4, Hdiag. intros Hnil. apply app_eq_nil in Hnil as [? _].
    done.
  - apply requested_elem_of; [done|].
    pose proof (ledger_runMicrotask w4) as [= _ Hl _ _].
    rewrite Hl. exists d. subst d. rewrite <-Hd. apply exit_kept.
  - intros Hfired.
    destruct (wi_cause _ (inv_weak _ Hinv5) Hfired) as (q' & v & He & Hv).
    pose proof (ledger_runMicrotask w4) as [= _ _ Hl _].
    rewrite Hl, Hme in He. injection He as <-.
    rewrite (runMicrotask_stays w4 q (Rejected e)) in Hv; done.
Qed.

Lemma handshake_exit_throw_hides_log_witness :
  ∃ w, DosDirect (H := joinArgs) failedBootBrokenExit
       = Threw (ModuleError 7) w
       ∧ (0 < String.length (startupErrorLog w))%nat
       ∧ RequestExit ∈ trace w ∧ (FireExit ∉ trace w).
Proof.
  apply (handshake_exit_throw_hides_log (H := joinArgs)
           failedBootBrokenExit (ModuleError 7)).
  - reflexivity.
  - reflexivity.
  - vm_compute. discriminate.
  - reflexivity.
  - intros Hin. by apply elem_of_nil in Hin.
Defined.

(** ** The log after startup *)

Section log_frozen.
Context `{Serializer}.
Implicit Types (w : World).

Lemma journal_invoke_forwarding c w :
  module_err w = ErrFn → journal (invoke c w) = journal w.
Proof.
  intros Hsink. destruct c as [a|a|a|a|a|a|]; simpl;
    unfold logFn, warnFn, errFn, fireMessage;
    try (by apply journal_emit).
  - rewrite Hsink. by apply journal_emit.
  - rewrite Hsink. by apply journal_emit.
  - destruct (module_persist w); [|done].
    transitivity (journal (settle n (Fulfilled (VArchive a))
                             (emit (PersistCallback a) w))); [done|].
    by rewrite journal_settle, journal_emit.
  - destruct (module_exit w); [|done].
    by rewrite journal_settle, journal_emit.
Qed.

Lemma journal_request_forwarding o r w :
  diagnostic o = None → module_err w = ErrFn →
  journal (request o r w) = journal w.
Proof.
  intros Ho Hsink. unfold request. rewrite <-(journal_emit o w Ho).
  assert (module_err (emit o w) = ErrFn) as Hsink' by done.
  revert Hsink'. generalize (emit o w).
  induction (callbacks r) as [|c cs IH]; intros w' Hsink'; [done|].
  simpl. pose proof (journal_invoke_forwarding c w' Hsink') as Hj.
  rewrite IH; [done|]. injection Hj as -> _ _. done.
Qed.

Lemma journal_issue cmd w : journal (issue cmd w) = journal w.
Proof.
  destruct (issue_backstage cmd w) as (Hb & _ & evs & Ht & Hall).
  injection Hb as _ _ _ _ _ _ _ Hsink Hlog.
  unfold journal. rewrite Hsink, Hlog, Ht. f_equal.
  unfold diagnostics. rewrite omap_app.
  assert (omap diagnostic evs = []) as ->; [|apply app_nil_r].
  clear Ht. induction Hall as [|o evs Ho _ IH]; [done|]. by destruct o.
Qed.

Lemma journal_persist_forwarding r w :
  module_err w = ErrFn → journal (persist r w).2 = journal w.
Proof.
  intros Hsink. unfold persist. destruct (persistPromise w); [done|].
  cbn [snd]. set (w1 := set_module_persist _ _).
  set (w3 := match thrown r with Some e => _ | None => _ end).
  transitivity (journal w3); [done|].
  assert (journal (request PackFsToBundle r w1) = journal w) as Hreq
    by by rewrite journal_request_forwarding.
  subst w3. destruct (thrown r); [|done]. by rewrite journal_settle.
Qed.

Lemma journal_exit_forwarding r w :
  module_err w = ErrFn → journal (exit r w).2 = journal w.
Proof.
  intros Hsink. unfold exit. destruct (exitPromise w); [done|].
  cbn [snd]. set (w1 := set_module_exit _ _).
  set (w3 := match thrown r with Some e => _ | None => _ end).
  assert (journal w3 = journal w) as <-.
  { assert (journal (request RequestExit r w1) = journal w) as Hreq
      by by rewrite journal_request_forwarding.
    subst w3. destruct (thrown r); [|done]. by rewrite journal_settle. }
  unfold then_fireExit.
  by destruct (promises (newPromise w3) !! length (promises w)) as [[]|].
Qed.

Lemma journal_step_forwarding a w :
  module_err w = ErrFn → journal (step a w) = journal w.
Proof.
  intros Hsink. destruct a as [c now|r|r|c|]; cbn [step].
  - apply journal_issue.
  - by apply journal_persist_forwarding.
  - by apply journal_exit_forwarding.
  - by apply journal_invoke_forwarding.
  - apply journal_runMicrotask.
Qed.

Lemma journal_run_forwarding acts w :
  module_err w = ErrFn → journal (run acts w) = journal w.
Proof.
  revert w. induction acts as [|a acts IH]; intros w Hsink; [done|].
  simpl. pose proof (journal_step_forwarding a w Hsink) as Hj.
  rewrite IH; [done|]. injection Hj as -> _ _. done.
Qed.
End log_frozen.

(** X21. Once [DosDirect] has returned the interface, the startup sink is
    gone for good: however the interface is used and whatever the module
    calls, the log stays empty, nothing is printed with [console.error],
    and a diagnostic of the module is forwarded as one error message. *)
Theorem diagnostics_forwarded_after_startup `{Serializer}
  (env : StartupEnv) (w : World) (acts : list action) :
  DosDirect env = Returned w →
  let w' := run acts w in
  module_err w' = ErrFn ∧ startupErrorLog w' = ""
  ∧ diagnostics (trace w') = []
  ∧ ∀ args,
      trace (step (ModuleCalls (CallErr args)) w')
      = trace w' ++ [FireMessage ErrorLevel args]
      ∧ trace (step (ModuleCalls (CallPrintErr args)) w')
        = trace w' ++ [FireMessage ErrorLevel args].
Proof.
  intros Hret w'.
  destruct (handshake_before_check env)
    as (_ & [_ Hlog] & _ & _ & Hdiag).
  assert (module_err w = ErrFn ∧ startupErrorLog w = ""
          ∧ diagnostics (trace w) = []) as (Hsink & Hempty & Hnone).
  { revert Hret. unfold DosDirect.
    destruct (thrown (instantiate env)); [done|].
    destruct (thrown (callMain env)); [done|].
    set (w3 := request RunRuntime _ _) in *.
    case_bool_decide as Hlen; [by destruct (promises _ !! _) as [[]|]|].
    intros [= <-]. cbn [module_err startupErrorLog trace set_module_err].
    assert (diagnostics (trace w3) = []) as Hnil.
    { destruct (diagnostics (trace w3)) as [|a l] eqn:He; [done|].
      destruct Hlen. rewrite Hlog. by apply logText_nonempty. }
    rewrite Hnil in Hlog. by rewrite Hlog, Hnil. }
  pose proof (journal_run_forwarding acts w Hsink) as [= Hs Hl Hd].
  fold w' in Hs, Hl, Hd.
  split_and!; [congruence..|].
  intros args. simpl. rewrite Hs, Hsink. done.
Qed.

Lemma diagnostics_forwarded_after_startup_witness :
  let w := set_module_err ErrFn
             (request (H := joinArgs) RunRuntime (runRuntime cleanBoot)
                (request (H := joinArgs) CallMain (callMain cleanBoot)
                   (construct (constructedAt cleanBoot)
                      (foldl (fun acc c => invoke (H := joinArgs) c acc) boot
                         (callbacks (instantiate cleanBoot)))))) in
  let w' := run (H := joinArgs)
              [ModuleCalls (CallErr ["late"]); Exit (mkReply [] None)] w in
  module_err w' = ErrFn ∧ startupErrorLog w' = ""
  ∧ diagnostics (trace w') = []
  ∧ ∀ args,
      trace (step (H := joinArgs) (ModuleCalls (CallErr args)) w')
      = trace w' ++ [FireMessage ErrorLevel args]
      ∧ trace (step (H := joinArgs) (ModuleCalls (CallPrintErr args)) w')
        = trace w' ++ [FireMessage ErrorLevel args].
Proof.
  apply (diagnostics_forwarded_after_startup (H := joinArgs) cleanBoot).
  reflexivity.
Defined.

(** ** Sound *)

(** X22. [onSoundPush] hands over [numSamples] floats starting at the float
    in which the byte address [samples] lies: an address that is not a
    multiple of 4 is rounded down, because [slice] drops the fraction of
    both of its ends.  When these floats lie inside the memory, the payload
    has exactly [numSamples] of them. *)
Theorem onSoundPush_copies_samples {A} (HEAPF32 : list A)
  (samples numSamples : Z) :
  0 ≤ samples → 0 ≤ numSamples →
  onSoundPush HEAPF32 samples numSamples
  = take (Z.to_nat numSamples) (drop (Z.to_nat (samples / 4)) HEAPF32)
  ∧ (samples / 4 + numSamples ≤ Z.of_nat (length HEAPF32) →
     length (onSoundPush HEAPF32 samples numSamples) = Z.to_nat numSamples).
Proof.
  intros Hs Hn.
  assert (toInteger (inject_Z samples / inject_Z 4) = samples / 4) as Hfrom.
  { unfold toInteger, Qdiv, Qmult, Qinv, inject_Z.
    cbn [Qnum Qden Z.mul Pos.mul]. rewrite Z.mul_1_r.
    apply Z.quot_div_nonneg; lia. }
  assert (toInteger (inject_Z samples / inject_Z 4 + inject_Z numSamples)
          = samples / 4 + numSamples) as Hto.
  { unfold toInteger, Qdiv, Qmult, Qplus, Qinv, inject_Z.
    cbn [Qnum Qden Z.mul Pos.mul]. rewrite !Z.mul_1_r.
    rewrite Z.quot_div_nonneg by lia. apply Z.div_add. lia. }
  assert (0 ≤ samples / 4) as Hq by (apply Z.div_pos; lia).
  assert (onSoundPush HEAPF32 samples numSamples
          = take (Z.to_nat numSamples)
              (drop (Z.to_nat (samples / 4)) HEAPF32)) as Heq.
  { unfold onSoundPush, sliceF32. rewrite Hfrom, Hto.
    rewrite !decide_False by lia. f_equal. lia. }
  split; [done|]. intros Hfit.
  rewrite Heq, length_take, length_drop. lia.
Qed.

Lemma onSoundPush_copies_samples_witness :
  onSoundPush [10; 20; 30; 40] 6 2
  = take (Z.to_nat 2) (drop (Z.to_nat (6 / 4)) [10; 20; 30; 40])
  ∧ (6 / 4 + 2 ≤ Z.of_nat (length [10; 20; 30; 40]) →
     length (onSoundPush [10; 20; 30; 40] 6 2) = Z.to_nat 2).
Proof.
  apply (onSoundPush_copies_samples [10; 20; 30; 40] 6 2); lia.
Defined.
